(** * Compact_container_with_index_2: an index-based compact container

    A shallow embedding of CGAL's [Compact_container_with_index_2] together
    with its index type [Index_for_cc_with_index], its growth policies and its
    iterator [CC_iterator_with_index], followed by the properties of the
    container that the specification states.

    Conventions of the embedding.
    - [size_type] (the template parameter [IndexType]) is an unsigned integer
      of [sizeof_size_type] bytes; its values are integers of [Z] and every
      operation that can overflow is followed by [wrap].
    - A failing [CGAL_assertion]/[CGAL_precondition] and an access outside an
      allocated array are [None].
    - The array [all_items] is a list of cells of type [T]; [nullptr] is the
      empty list.  A cell that holds no constructed object still is a [T]: the
      container reads and writes its tag word through the traits.
    - Constructing a copy of [t] in a cell ([new (&e) value_type(t)]) leaves
      [t] in the cell, with the tag word of [t]; moving an object to another
      cell leaves the object there.
    - Calls of the allocator's [destroy] are recorded: an operation returns,
      next to its result, the list of the objects it destroyed, in order. *)

From Stdlib Require Import ZArith Lia Bool.
From stdpp Require Import base option list.

Local Open Scope Z_scope.

(** ** The index type and the traits *)

(** The template parameter [IndexType]: an unsigned integer type, given by
    its size in bytes. *)
Class IndexType := { sizeof_size_type : positive }.

Section Size_type.
Context {IT : IndexType}.

Definition nbbits_size_type : Z := Z.pos sizeof_size_type * 8.
Definition modulus : Z := 2 ^ nbbits_size_type.
(** Conversion to [size_type]. *)
Definition wrap (x : Z) : Z := x mod modulus.
(** [(std::numeric_limits<size_type>::max)()] *)
Definition numeric_limits_max : Z := modulus - 1.
End Size_type.

(** [Index_for_cc_with_index<Index_type>] *)
Record Index_for_cc_with_index := { m_idx : Z }.

Section Index.
Context {IT : IndexType}.

(** The default argument of the constructor: a kind of "NULL" index. *)
Definition Index_default : Index_for_cc_with_index :=
  {| m_idx := numeric_limits_max / 2 |}.

Definition is_valid (i : Index_for_cc_with_index) : bool :=
  negb (m_idx i =? numeric_limits_max / 2).

Definition Index_incr (i : Index_for_cc_with_index) : Index_for_cc_with_index :=
  {| m_idx := wrap (m_idx i + 1) |}.
Definition Index_decr (i : Index_for_cc_with_index) : Index_for_cc_with_index :=
  {| m_idx := wrap (m_idx i - 1) |}.
End Index.

(** [Compact_container_with_index_traits<T, size_type>]: the access to the
    tag word of a [T].  Writing the word and reading it back gives the word
    written. *)
Class Traits (T : Type) {IT : IndexType} := {
  size_t : T -> Z;
  set_size_t : T -> Z -> T;
  size_t_set_size_t : forall e v, 0 <= v < modulus -> size_t (set_size_t e v) = v
}.

(** What a cell that holds no object contains: the bytes of a fresh
    allocation, and the bytes after [std::memset(&e, 0, sizeof(T))]. *)
Class Storage (T : Type) := {
  indeterminate : T;
  zeroed : T
}.

(** [Index_for_cc_with_index] has [for_compact_container] itself. *)
#[export] Instance Index_traits {IT : IndexType} : Traits Index_for_cc_with_index :=
  {| size_t := m_idx;
     set_size_t := fun _ v => {| m_idx := v |};
     size_t_set_size_t := fun _ _ _ => eq_refl |}.

#[export] Instance Index_storage : Storage Index_for_cc_with_index :=
  {| indeterminate := {| m_idx := 0 |}; zeroed := {| m_idx := 0 |} |}.

(** ** Growth policies *)

(** The template parameter [Increment_policy], with its parameter
    [unsigned int k]. *)
Inductive Increment_policy :=
| Multiply_by_two_policy_for_cc_with_size (k : Z)
| Constant_size_policy_for_cc_with_size (k : Z).

Definition first_block_size (p : Increment_policy) : Z :=
  match p with
  | Multiply_by_two_policy_for_cc_with_size k => k
  | Constant_size_policy_for_cc_with_size k => k
  end.

(** ** The container *)

(** [enum Type { USED = 0, FREE = 1 }] and the casts from and to it. *)
Inductive Type_ := USED | FREE.

Definition Type_to_Z (t : Type_) : Z :=
  match t with USED => 0 | FREE => 1 end.
Definition Type_of_Z (z : Z) : Type_ :=
  if z =? 0 then USED else FREE.
Definition Type_eqb (a b : Type_) : bool :=
  match a, b with USED, USED | FREE, FREE => true | _, _ => false end.

Record Compact_container_with_index_2 (T : Type) := {
  capacity_ : Z;
  size_ : Z;
  block_size : Z;
  free_list : Z;
  all_items : list T
}.
Arguments capacity_ {T} _.
Arguments size_ {T} _.
Arguments block_size {T} _.
Arguments free_list {T} _.
Arguments all_items {T} _.

Section Container.
Context {IT : IndexType} {T : Type} {Tr : Traits T} {St : Storage T}.

Abbreviation CC := (Compact_container_with_index_2 T).
Abbreviation Index := Index_for_cc_with_index.

(** The result of an operation that can fail and can destroy objects. *)
Abbreviation M A := (option (A * list T)).

Definition set_capacity_ (v : Z) (c : CC) : CC :=
  {| capacity_ := v; size_ := size_ c; block_size := block_size c;
     free_list := free_list c; all_items := all_items c |}.
Definition set_size_ (v : Z) (c : CC) : CC :=
  {| capacity_ := capacity_ c; size_ := v; block_size := block_size c;
     free_list := free_list c; all_items := all_items c |}.
Definition set_block_size (v : Z) (c : CC) : CC :=
  {| capacity_ := capacity_ c; size_ := size_ c; block_size := v;
     free_list := free_list c; all_items := all_items c |}.
Definition set_free_list (v : Z) (c : CC) : CC :=
  {| capacity_ := capacity_ c; size_ := size_ c; block_size := block_size c;
     free_list := v; all_items := all_items c |}.
Definition set_all_items (v : list T) (c : CC) : CC :=
  {| capacity_ := capacity_ c; size_ := size_ c; block_size := block_size c;
     free_list := free_list c; all_items := v |}.

Definition bottom : Z := numeric_limits_max / 2.

Definition nbbits_size_type_m1 : Z := nbbits_size_type - 1.
Definition mask_type : Z := numeric_limits_max - numeric_limits_max / 2.

(** [Increment_policy::increase_size(cc)] *)
Definition increase_size (p : Increment_policy) (cc : CC) : CC :=
  match p with
  | Multiply_by_two_policy_for_cc_with_size _ => set_block_size (capacity_ cc) cc
  | Constant_size_policy_for_cc_with_size _ => cc
  end.

(** [init()] overwrites every field. *)
Definition init (p : Increment_policy) : CC :=
  {| block_size := wrap (first_block_size p);
     capacity_ := 0;
     size_ := 0;
     free_list := bottom;
     all_items := [] |}.

(** An access [a[i]] to a raw array; an index is unsigned. *)
Definition raw_get (a : list T) (i : Z) : option T :=
  if 0 <=? i then a !! Z.to_nat i else None.
Definition raw_set (a : list T) (i : Z) (e : T) : option (list T) :=
  if (0 <=? i) && (i <? Z.of_nat (length a)) then Some (<[Z.to_nat i := e]> a)
  else None.

(** [operator[]], with its assertion [all_items != nullptr && i < capacity_]. *)
Definition at_ (c : CC) (i : Z) : option T :=
  match all_items c with
  | [] => None
  | _ => if i <? capacity_ c then raw_get (all_items c) i else None
  end.

(** An assignment through the reference that [operator[]] returned. *)
Definition assign (c : CC) (i : Z) (e : T) : option CC :=
  a ← raw_set (all_items c) i e; Some (set_all_items a c).

Definition static_type (e : T) : Type_ :=
  Type_of_Z (Z.shiftr (Z.land (size_t e) mask_type) nbbits_size_type_m1).

Definition type (c : CC) (e : Z) : option Type_ :=
  static_type <$> at_ c e.

Definition static_get_val (e : T) : Z :=
  wrap (Z.land (size_t e) (Z.lnot mask_type)).

Definition get_val (c : CC) (e : Z) : option Z :=
  static_get_val <$> at_ c e.

Definition static_set_val (e : T) (v : Z) (t : Type_) : T :=
  set_size_t e (wrap (Z.lor v (Z.shiftl (Type_to_Z t) nbbits_size_type_m1))).

Definition static_set_type (e : T) (t : Type_) : T :=
  static_set_val e (wrap (Z.land (size_t e) (Z.lnot mask_type))) t.

Definition set_val (c : CC) (e v : Z) (t : Type_) : option CC :=
  x ← at_ c e; assign c e (static_set_val x v t).

Definition is_used (c : CC) (i : Z) : option bool :=
  (fun t => Type_eqb t USED) <$> type c i.

Definition put_on_free_list (c : CC) (x : Z) : option CC :=
  c' ← set_val c x (free_list c) FREE; Some (set_free_list x c').

Definition size (c : CC) : Z := size_ c.
Definition capacity (c : CC) : Z := capacity_ c.
Definition empty (c : CC) : bool := size_ c =? 0.

(** The first loop of [allocate_new_block]: [n] cells remain, starting at
    [index]; [c] has the new [capacity_] and still the old array. *)
Fixpoint move_items (c : CC) (n : nat) (index : Z) (all_items2 : list T)
  : M (list T) :=
  match n with
  | O => Some (all_items2, [])
  | S n' =>
      u ← is_used c index;
      if u : bool then
        e ← raw_get (all_items c) index;
        a ← raw_set all_items2 index e;
        '(a', d) ← move_items c n' (wrap (index + 1)) a;
        Some (a', e :: d)
      else
        e ← raw_get (all_items c) index;
        e2 ← raw_get all_items2 index;
        a ← raw_set all_items2 index (static_set_val e2 (static_get_val e) FREE);
        move_items c n' (wrap (index + 1)) a
  end.

(** The second loop: [for (index = capacity_-1; index > oldcapacity; --index)];
    it makes less than [capacity_] rounds. *)
Fixpoint free_new_items (fuel : nat) (c : CC) (index oldcapacity : Z)
  : option CC :=
  if oldcapacity <? index then
    match fuel with
    | O => None
    | S fuel' =>
        c' ← put_on_free_list c index;
        free_new_items fuel' c' (wrap (index - 1)) oldcapacity
    end
  else Some c.

(** [allocate_new_block()]: it returns the new state and the objects
    destroyed after their move. *)
Definition allocate_new_block (p : Increment_policy) (c : CC) : M CC :=
  let oldcapacity := capacity_ c in
  let c := set_capacity_ (wrap (capacity_ c + block_size c)) c in
  let all_items2 := replicate (Z.to_nat (capacity_ c)) indeterminate in
  '(all_items2, d) ← move_items c (Z.to_nat oldcapacity) 0 all_items2;
  let c := set_all_items all_items2 c in
  c ← free_new_items (Z.to_nat (capacity_ c)) c (wrap (capacity_ c - 1)) oldcapacity;
  c ← put_on_free_list c oldcapacity;
  Some (increase_size p c, d).

(** [insert(t)]: it returns the index and the new state. *)
Definition insert (p : Increment_policy) (c : CC) (t : T) : M (Index * CC) :=
  '(c, d) ← (if free_list c =? bottom then allocate_new_block p c
             else Some (c, []));
  let ret := {| m_idx := free_list c |} in
  let i := free_list c in
  e ← at_ c i;
  c ← assign c i (static_set_type e USED);
  e ← at_ c i;
  let c := set_free_list (static_get_val e) c in
  c ← assign c i t;
  let c := set_size_ (wrap (size_ c + 1)) c in
  Some ((ret, c), d).

(** [emplace(args...)]: the object is built by a constructor of [T]. *)
Definition emplace {Args : Type} (value_type : Args -> T)
    (p : Increment_policy) (c : CC) (args : Args) : M (Index * CC) :=
  '(c, d) ← (if free_list c =? bottom then allocate_new_block p c
             else Some (c, []));
  let ret := {| m_idx := free_list c |} in
  let i := free_list c in
  e ← at_ c i;
  c ← assign c i (static_set_type e USED);
  e ← at_ c i;
  let c := set_free_list (static_get_val e) c in
  c ← assign c i (value_type args);
  let c := set_size_ (wrap (size_ c + 1)) c in
  Some ((ret, c), d).

(** [erase(x)], with [CGAL_precondition(type(x) == USED)] and the
    [memset] of the destroyed object. *)
Definition erase (c : CC) (x : Index) : M CC :=
  t ← type c (m_idx x);
  if Type_eqb t USED then
    e ← at_ c (m_idx x);
    c ← assign c (m_idx x) zeroed;
    c ← put_on_free_list c (m_idx x);
    Some (set_size_ (wrap (size_ c - 1)) c, [e])
  else None.

(** The loop of [clear]: it returns the objects destroyed. *)
Fixpoint destroy_items (c : CC) (n : nat) (i : Z) : option (list T) :=
  match n with
  | O => Some []
  | S n' =>
      u ← is_used c i;
      if u : bool then
        e ← at_ c i;
        d ← destroy_items c n' (wrap (i + 1));
        Some (e :: d)
      else destroy_items c n' (wrap (i + 1))
  end.

(** [clear()]: the array is given back and [init()] sets every field. *)
Definition clear (p : Increment_policy) (c : CC) : M CC :=
  d ← destroy_items c (Z.to_nat (capacity_ c)) 0;
  Some (init p, d).

End Container.

(** ** The iterator *)

(** The address of a container; [None] is [nullptr]. *)
Definition cc_pointer := option nat.

Definition cc_pointer_eqb (a b : cc_pointer) : bool :=
  match a, b with
  | None, None => true
  | Some x, Some y => Nat.eqb x y
  | _, _ => false
  end.

(** [CC_iterator_with_index<DSC, Const>] *)
Record CC_iterator_with_index := {
  m_ptr_to_cc : cc_pointer;
  m_index : Z
}.

(** [operator==] on iterators. *)
Definition iterator_eqb (rhs lhs : CC_iterator_with_index) : bool :=
  cc_pointer_eqb (m_ptr_to_cc rhs) (m_ptr_to_cc lhs) && (m_index rhs =? m_index lhs).

Section Iterator.
Context {IT : IndexType} {T : Type} {Tr : Traits T} {St : Storage T}.

Abbreviation CC := (Compact_container_with_index_2 T).

(** The body of [do { ++m_index; } while (m_index < capacity_ &&
    !is_used(m_index))]; the cells of [c] bound the number of rounds. *)
Fixpoint increment_loop (fuel : nat) (c : CC) (m_index : Z) : option Z :=
  let m_index := wrap (m_index + 1) in
  if m_index <? capacity_ c then
    u ← is_used c m_index;
    if negb u then
      match fuel with
      | O => None
      | S fuel' => increment_loop fuel' c m_index
      end
    else Some m_index
  else Some m_index.

(** [increment()]; [c] is the container that [m_ptr_to_cc] points to. *)
Definition increment (c : CC) (it : CC_iterator_with_index)
  : option CC_iterator_with_index :=
  match m_ptr_to_cc it with
  | None => None
  | Some _ =>
      if m_index it <? capacity_ c then
        i ← increment_loop (Z.to_nat (capacity_ c)) c (m_index it);
        Some {| m_ptr_to_cc := m_ptr_to_cc it; m_index := i |}
      else None
  end.

(** The constructor [CC_iterator_with_index(ptr, int, int)], for [begin()]. *)
Definition iterator_for_begin (this : nat) (c : CC)
  : option CC_iterator_with_index :=
  let it := {| m_ptr_to_cc := Some this; m_index := 0 |} in
  u ← is_used c (m_index it);
  if negb u then increment c it else Some it.

(** [end()] and [index_to(value)] *)
Definition end_ (this : nat) (c : CC) : CC_iterator_with_index :=
  {| m_ptr_to_cc := Some this; m_index := capacity_ c |}.
Definition index_to (this : nat) (value : Z) : CC_iterator_with_index :=
  {| m_ptr_to_cc := Some this; m_index := value |}.

Definition begin (this : nat) (c : CC) : option CC_iterator_with_index :=
  if empty c then Some (end_ this c) else iterator_for_begin this c.

(** [operator*] *)
Definition deref (c : CC) (it : CC_iterator_with_index) : option T :=
  at_ c (m_index it).

(** [for (it = first; it != end(); ++it)], collecting the index and the
    value of every position visited. *)
Fixpoint iterate_from (fuel : nat) (this : nat) (c : CC)
    (it : CC_iterator_with_index) : option (list (Z * T)) :=
  if iterator_eqb it (end_ this c) then Some []
  else
    match fuel with
    | O => None
    | S fuel' =>
        v ← deref c it;
        it' ← increment c it;
        rest ← iterate_from fuel' this c it';
        Some ((m_index it, v) :: rest)
    end.

Definition forward_iteration (this : nat) (c : CC) : option (list (Z * T)) :=
  it ← begin this c;
  iterate_from (Z.to_nat (capacity_ c)) this c it.

(** The containers of the program, by address. *)
Definition heap := nat -> option CC.

(** [owns(cit)].  The address of an element is the container whose array
    holds it and its offset there; the arrays of two containers are
    disjoint, so that [c >= all_items && c < all_items+capacity_] holds
    exactly for the elements of this container. *)
Definition owns (h : heap) (this : nat) (cit : CC_iterator_with_index)
  : option bool :=
  c ← h this;
  if iterator_eqb cit (end_ this c) then Some true
  else
    owner ← m_ptr_to_cc cit;
    cc ← h owner;
    _ ← deref cc cit;
    if Nat.eqb owner this && (0 <=? m_index cit) && (m_index cit <? capacity_ c)
    then is_used c (m_index cit)
    else Some false.

Definition owns_dereferencable (h : heap) (this : nat)
    (cit : CC_iterator_with_index) : option bool :=
  c ← h this;
  if negb (iterator_eqb cit (end_ this c)) then owns h this cit
  else Some false.

End Iterator.

(** ** Definitions for the statements *)

Section Statements.
Context {IT : IndexType} {T : Type} {Tr : Traits T} {St : Storage T}.

Abbreviation CC := (Compact_container_with_index_2 T).

(** The array has as many cells as [capacity_] says, and [capacity_] is a
    value of [size_type]. *)
Definition sized (c : CC) : Prop :=
  0 <= capacity_ c < modulus /\ length (all_items c) = Z.to_nat (capacity_ c).

Definition used_cell (e : T) : bool := Type_eqb (static_type e) USED.

(** What [insert] and [emplace] do once the free list is not empty. *)
Definition take_free_cell (c : CC) (t : T) (e : T) : CC :=
  {| capacity_ := capacity_ c; size_ := wrap (size_ c + 1);
     block_size := block_size c; free_list := static_get_val e;
     all_items := <[Z.to_nat (free_list c) := t]> (all_items c) |}.

(** The cell of the new array at the place of an old cell. *)
Definition moved_cell (e : T) : T :=
  if used_cell e then e
  else static_set_val indeterminate (static_get_val e) FREE.

(** The cell of the new array at a new index [i]. *)
Definition fresh_cell (c : CC) (i : Z) : T :=
  static_set_val indeterminate
    (if i =? capacity_ c + block_size c - 1 then free_list c else i + 1) FREE.

Definition grown_items (c : CC) : list T :=
  (moved_cell <$> all_items c) ++ (fresh_cell c <$> seqZ (capacity_ c) (block_size c)).

(** The container after [allocate_new_block]. *)
Definition grown (p : Increment_policy) (c : CC) : CC :=
  increase_size p
    {| capacity_ := capacity_ c + block_size c; size_ := size_ c;
       block_size := block_size c; free_list := capacity_ c;
       all_items := grown_items c |}.

(** The used cells of an array whose first cell has index [i], with their
    indices, in ascending order. *)
Fixpoint used_from (i : Z) (l : list T) : list (Z * T) :=
  match l with
  | [] => []
  | e :: l' =>
      if used_cell e then (i, e) :: used_from (i + 1) l'
      else used_from (i + 1) l'
  end.

Definition used_cells (c : CC) : list (Z * T) := used_from 0 (all_items c).

(** The number of free cells at the head of an array. *)
Fixpoint skip_free (l : list T) : nat :=
  match l with
  | [] => O
  | e :: l' => if used_cell e then O else S (skip_free l')
  end.

(** The number of used cells. *)
Definition count_used (c : CC) : Z :=
  Z.of_nat (length (List.filter used_cell (all_items c))).

(** The cells that the free list links, from the head [h] to [bottom]. *)
Inductive free_chain (c : CC) : Z -> list Z -> Prop :=
| free_chain_nil : free_chain c bottom []
| free_chain_cons h e l :
    h <> bottom -> at_ c h = Some e -> used_cell e = false ->
    free_chain c (static_get_val e) l ->
    free_chain c h (h :: l).

(** The invariant: the array has [capacity_] cells, no index reaches
    [bottom], [size_] counts the used cells and the free list links free
    cells, each once. *)
Definition consistent (c : CC) : Prop :=
  sized c /\ capacity_ c <= bottom /\ 0 <= block_size c < modulus
  /\ size_ c = count_used c
  /\ exists l, free_chain c (free_list c) l /\ NoDup l.

(** [insert(first, last)]: one call of [insert] for each element, in
    order; the model keeps the index that each call returns. *)
Fixpoint insert_range (p : Increment_policy) (c : CC) (ts : list T)
  : option ((list Index_for_cc_with_index * CC) * list T) :=
  match ts with
  | [] => Some (([], c), [])
  | t :: ts' =>
      '(r, c1, d1) ← insert p c t;
      '(rs, c2, d2) ← insert_range p c1 ts';
      Some ((r :: rs, c2), d1 ++ d2)
  end.

(** The states that a freshly constructed container reaches by calls of
    [insert], [erase] and [clear] that return. *)
Inductive reachable (p : Increment_policy) : CC -> Prop :=
| reachable_init : reachable p (init p)
| reachable_insert c t r c' d :
    reachable p c -> insert p c t = Some (r, c', d) -> reachable p c'
| reachable_erase c x c' d :
    reachable p c -> erase c x = Some (c', d) -> reachable p c'
| reachable_clear c c' d :
    reachable p c -> clear p c = Some (c', d) -> reachable p c'.

(** The same, when every value inserted has the flag of a used cell in its
    tag word and the capacity never passes [bottom]. *)
Inductive reachable_in_range (p : Increment_policy) : CC -> Prop :=
| in_range_init : reachable_in_range p (init p)
| in_range_insert c t r c' d :
    reachable_in_range p c -> static_type t = USED ->
    insert p c t = Some (r, c', d) -> capacity_ c' <= bottom ->
    reachable_in_range p c'
| in_range_erase c x c' d :
    reachable_in_range p c -> erase c x = Some (c', d) ->
    reachable_in_range p c'.

(** [capacity_] and [block_size] after [n] calls of [insert] on a freshly
    constructed container: a block is added when the [n] cells are used. *)
Fixpoint growth_after (p : Increment_policy) (n : nat) : Z * Z :=
  match n with
  | O => (0, wrap (first_block_size p))
  | S n' =>
      let '(cap, bs) := growth_after p n' in
      if Z.of_nat n' <? cap then (cap, bs)
      else (cap + bs,
            match p with
            | Multiply_by_two_policy_for_cc_with_size _ => cap + bs
            | Constant_size_policy_for_cc_with_size _ => bs
            end)
  end.

(** A container filled without any erasure: its first cells hold [ts], the
    other cells are free and linked in ascending order. *)
Definition filled (c : CC) (ts : list T) : Prop :=
  sized c /\ capacity_ c <= bottom
  /\ size_ c = Z.of_nat (length ts)
  /\ (exists frees, all_items c = ts ++ frees
                    /\ Forall (fun e => used_cell e = false) frees)
  /\ Forall (fun e => used_cell e = true) ts
  /\ free_chain c (free_list c)
       (seqZ (Z.of_nat (length ts)) (capacity_ c - Z.of_nat (length ts))).

End Statements.

(** [IndexType = unsigned char], [std::uint32_t] and [std::size_t]. *)
Definition uint8 : IndexType := {| sizeof_size_type := 1 |}.
Definition uint32 : IndexType := {| sizeof_size_type := 4 |}.
Definition uint64 : IndexType := {| sizeof_size_type := 8 |}.

(** A container of indices with [IndexType = unsigned char] and blocks of
    four cells: after [insert(10)]; after [insert(10)], [insert(20)]; and
    after [erase(0)] on the latter. *)
Definition cc_one : Compact_container_with_index_2 Index_for_cc_with_index :=
  {| capacity_ := 4; size_ := 1; block_size := 4; free_list := 1;
     all_items := [{| m_idx := 10 |}; {| m_idx := 130 |}; {| m_idx := 131 |};
                   {| m_idx := 255 |}] |}.
Definition cc_two : Compact_container_with_index_2 Index_for_cc_with_index :=
  {| capacity_ := 4; size_ := 2; block_size := 4; free_list := 2;
     all_items := [{| m_idx := 10 |}; {| m_idx := 20 |}; {| m_idx := 131 |};
                   {| m_idx := 255 |}] |}.
Definition cc_erased : Compact_container_with_index_2 Index_for_cc_with_index :=
  {| capacity_ := 4; size_ := 1; block_size := 4; free_list := 0;
     all_items := [{| m_idx := 130 |}; {| m_idx := 20 |}; {| m_idx := 131 |};
                   {| m_idx := 255 |}] |}.

(** A container whose free list is empty: one used cell, and one free cell
    that the list does not link. *)
Definition cc_grow : Compact_container_with_index_2 Index_for_cc_with_index :=
  {| capacity_ := 2; size_ := 1; block_size := 2; free_list := 127;
     all_items := [{| m_idx := 10 |}; {| m_idx := 255 |}] |}.

(** A heap with the container [cc_two] at the address 0. *)
Definition heap_two : nat -> option (Compact_container_with_index_2 Index_for_cc_with_index) :=
  fun a => if Nat.eqb a 0 then Some cc_two else None.

(** ** The other operations of the container and of its iterator *)

(** [operator!=] on iterators. *)
Definition iterator_neb (rhs lhs : CC_iterator_with_index) : bool :=
  negb (cc_pointer_eqb (m_ptr_to_cc rhs) (m_ptr_to_cc lhs))
  || negb (m_index rhs =? m_index lhs).

(** The constructor of an index from an iterator: it converts the iterator
    to [size_type], which gives [m_index]. *)
Definition Index_of_iterator (it : CC_iterator_with_index) : Index_for_cc_with_index :=
  {| m_idx := m_index it |}.

(** The address of an element: the container whose array holds it and its
    offset in the array. *)
Record pointer := { array_of : nat; offset : Z }.

Section Operations.
Context {IT : IndexType} {T : Type} {Tr : Traits T} {St : Storage T}.

Abbreviation CC := (Compact_container_with_index_2 T).
Abbreviation M A := (option (A * list T)).

(** [swap(c)]: every field is exchanged. *)
Definition swap (this c : CC) : CC * CC :=
  ({| capacity_ := capacity_ c; size_ := size_ c; block_size := block_size c;
      free_list := free_list c; all_items := all_items c |},
   {| capacity_ := capacity_ this; size_ := size_ this;
      block_size := block_size this; free_list := free_list this;
      all_items := all_items this |}).

(** The body of [do { --m_index; } while (!is_used(m_index))].  [is_used]
    asserts that the index is below [capacity_], so that the loop makes at
    most [capacity_] rounds before it stops or fails. *)
Fixpoint decrement_loop (fuel : nat) (c : CC) (m_index : Z) : option Z :=
  let m_index := wrap (m_index - 1) in
  u ← is_used c m_index;
  if negb u then
    match fuel with
    | O => None
    | S fuel' => decrement_loop fuel' c m_index
    end
  else Some m_index.

(** [decrement()]; [c] is the container that [m_ptr_to_cc] points to. *)
Definition decrement (c : CC) (it : CC_iterator_with_index)
  : option CC_iterator_with_index :=
  match m_ptr_to_cc it with
  | None => None
  | Some _ =>
      if 0 <? m_index it then
        i ← decrement_loop (Z.to_nat (capacity_ c)) c (m_index it);
        Some {| m_ptr_to_cc := m_ptr_to_cc it; m_index := i |}
      else None
  end.

(** [for (r = rbegin(); r != rend(); ++r)] with the [std::reverse_iterator]
    of the iterator: [*r] is the element before the base iterator, [++r]
    decrements the base iterator, and [!=] on two reverse iterators is [!=]
    on their base iterators. *)
Fixpoint reverse_iterate_from (fuel : nat) (c : CC)
    (current rend_base : CC_iterator_with_index) : option (list (Z * T)) :=
  if iterator_neb current rend_base then
    match fuel with
    | O => None
    | S fuel' =>
        tmp ← decrement c current;
        v ← deref c tmp;
        current' ← decrement c current;
        rest ← reverse_iterate_from fuel' c current' rend_base;
        Some ((m_index tmp, v) :: rest)
    end
  else Some [].

(** [rbegin()] is built from [end()] and [rend()] from [begin()]. *)
Definition reverse_iteration (this : nat) (c : CC) : option (list (Z * T)) :=
  b ← begin this c;
  reverse_iterate_from (Z.to_nat (capacity_ c)) c (end_ this c) b.

(** [erase(first, last)]: [while (first != last) erase(first++)].  The
    iterator is incremented before the call of [erase]; [c] is the
    container that [first] points to.  The loop erases one element in each
    round. *)
Fixpoint erase_range (fuel : nat) (c : CC)
    (first last : CC_iterator_with_index) : M CC :=
  if iterator_neb first last then
    match fuel with
    | O => None
    | S fuel' =>
        first' ← increment c first;
        '(c1, d1) ← erase c (Index_of_iterator first);
        '(c2, d2) ← erase_range fuel' c1 first' last;
        Some (c2, d1 ++ d2)
    end
  else Some (c, []).

(** Calls of [erase], one after the other. *)
Fixpoint erase_each (c : CC) (xs : list Index_for_cc_with_index) : M CC :=
  match xs with
  | [] => Some (c, [])
  | x :: xs' =>
      '(c1, d1) ← erase c x;
      '(c2, d2) ← erase_each c1 xs';
      Some (c2, d1 ++ d2)
  end.

(** [assign(first, last)]: [clear(); insert(first, last);] *)
Definition assign_range (p : Increment_policy) (c : CC) (ts : list T) : M CC :=
  '(c, d1) ← clear p c;
  '(_, c, d2) ← insert_range p c ts;
  Some (c, d1 ++ d2).

(** The copy constructor: [init(); block_size = c.block_size;
    std::copy(c.begin(), c.end(), CGAL::inserter( *this));].  [that] is the
    address of [c]. *)
Definition copy_construct (p : Increment_policy) (that : nat) (c : CC) : M CC :=
  let this := set_block_size (block_size c) (init p) in
  vs ← forward_iteration that c;
  '(_, this, d) ← insert_range p this vs.*2;
  Some (this, d).

(** The copy assignment: [if (&c != this) { Self tmp(c); swap(tmp); }];
    [tmp] is destroyed at the end of the block, which calls [clear()]. *)
Definition copy_assign (p : Increment_policy) (this_address that : nat)
    (this c : CC) : M CC :=
  if Nat.eqb that this_address then Some (this, [])
  else
    '(tmp, d1) ← copy_construct p that c;
    let '(this, tmp) := swap this tmp in
    '(_, d2) ← clear p tmp;
    Some (this, d1 ++ d2).

(** The address of the cell [i] of the container at the address [this]. *)
Definition address_of (this : nat) (i : Z) : pointer :=
  {| array_of := this; offset := i |}.

(** [compute_index(value)]: the arrays of two containers are disjoint, so
    that [value >= all_items && value < all_items+capacity_] holds exactly
    for the addresses of the cells of this container. *)
Definition compute_index (this : nat) (c : CC) (value : pointer) : Z :=
  if Nat.eqb (array_of value) this && (0 <=? offset value)
     && (offset value <? capacity_ c)
  then wrap (offset value)
  else 0.

(** [iterator_to(value)], from the address of [value]. *)
Definition iterator_to (this : nat) (c : CC) (value : pointer)
  : CC_iterator_with_index :=
  {| m_ptr_to_cc := Some this; m_index := compute_index this c value |}.

(** [index(cit)] *)
Definition index (cit : CC_iterator_with_index) : Z := m_index cit.

(** The invariant with the cells of the free list made explicit: the free
    list links exactly the free cells. *)
Definition linked (c : CC) (l : list Z) : Prop :=
  consistent c /\ free_chain c (free_list c) l
  /\ Z.of_nat (length l) + count_used c = capacity_ c.

(** [capacity_] and [block_size] after [n] calls of [insert] on an empty
    container whose block size is [bs0]. *)
Fixpoint growth_from (p : Increment_policy) (bs0 : Z) (n : nat) : Z * Z :=
  match n with
  | O => (0, bs0)
  | S n' =>
      let '(cap, bs) := growth_from p bs0 n' in
      if Z.of_nat n' <? cap then (cap, bs)
      else (cap + bs,
            match p with
            | Multiply_by_two_policy_for_cc_with_size _ => cap + bs
            | Constant_size_policy_for_cc_with_size _ => bs
            end)
  end.

End Operations.

(** A container of indices with [IndexType = unsigned char] and blocks of
    four cells, after [insert(10)], [insert(20)], [insert(30)]; and after
    [erase(1)] on it. *)
Definition cc_three : Compact_container_with_index_2 Index_for_cc_with_index :=
  {| capacity_ := 4; size_ := 3; block_size := 4; free_list := 3;
     all_items := [{| m_idx := 10 |}; {| m_idx := 20 |}; {| m_idx := 30 |};
                   {| m_idx := 255 |}] |}.
Definition cc_hole : Compact_container_with_index_2 Index_for_cc_with_index :=
  {| capacity_ := 4; size_ := 2; block_size := 4; free_list := 1;
     all_items := [{| m_idx := 10 |}; {| m_idx := 131 |}; {| m_idx := 30 |};
                   {| m_idx := 255 |}] |}.

(** * Properties *)

(** ** The bits of the tag word *)

Section Bits.
Context {IT : IndexType}.

Lemma nbbits_size_type_m1_ge : 7 <= nbbits_size_type_m1.
Proof. unfold nbbits_size_type_m1, nbbits_size_type. lia. Qed.

Lemma modulus_eq : modulus = 2 * 2 ^ nbbits_size_type_m1.
Proof.
  unfold modulus. pose proof nbbits_size_type_m1_ge.
  replace nbbits_size_type with (Z.succ nbbits_size_type_m1)
    by (unfold nbbits_size_type_m1; lia).
  rewrite Z.pow_succ_r by lia. reflexivity.
Qed.

Lemma pow_m1_ge : 128 <= 2 ^ nbbits_size_type_m1.
Proof.
  pose proof nbbits_size_type_m1_ge.
  change 128 with (2 ^ 7). apply Z.pow_le_mono_r; lia.
Qed.

Lemma mask_type_eq : mask_type = 2 ^ nbbits_size_type_m1.
Proof.
  unfold mask_type, numeric_limits_max. rewrite modulus_eq.
  pose proof pow_m1_ge.
  replace (2 * 2 ^ nbbits_size_type_m1 - 1)
    with (1 + (2 ^ nbbits_size_type_m1 - 1) * 2) by lia.
  rewrite Z.div_add by lia. change (1 / 2) with 0. lia.
Qed.

Lemma bottom_eq : bottom = 2 ^ nbbits_size_type_m1 - 1.
Proof.
  pose proof mask_type_eq as H. unfold mask_type in H.
  unfold bottom. unfold numeric_limits_max in *.
  rewrite modulus_eq in *. lia.
Qed.

Lemma bottom_ones : bottom = Z.ones nbbits_size_type_m1.
Proof. rewrite bottom_eq, Z.ones_equiv. lia. Qed.

Lemma bottom_ge : 127 <= bottom.
Proof. rewrite bottom_eq. pose proof pow_m1_ge. lia. Qed.

Lemma modulus_bottom : modulus = 2 * bottom + 2.
Proof. rewrite modulus_eq, bottom_eq. lia. Qed.

Lemma wrap_small x : 0 <= x < modulus -> wrap x = x.
Proof. intros. unfold wrap. apply Z.mod_small. assumption. Qed.

Lemma wrap_range x : 0 <= wrap x < modulus.
Proof.
  unfold wrap. apply Z.mod_pos_bound.
  rewrite modulus_bottom. pose proof bottom_ge. lia.
Qed.

Lemma land_bottom_small v : 0 <= v <= bottom -> Z.land v bottom = v.
Proof.
  intros Hv. rewrite bottom_ones, Z.land_ones by (pose proof nbbits_size_type_m1_ge; lia).
  apply Z.mod_small. rewrite bottom_eq in Hv. lia.
Qed.

Lemma land_bottom_range v : 0 <= Z.land v bottom <= bottom.
Proof.
  rewrite bottom_ones, Z.land_ones by (pose proof nbbits_size_type_m1_ge; lia).
  rewrite Z.ones_equiv.
  pose proof (Z.mod_pos_bound v (2 ^ nbbits_size_type_m1)).
  pose proof pow_m1_ge. lia.
Qed.

(** Clearing the flag and converting to [size_type] keeps the low bits. *)
Lemma wrap_land_lnot_mask x :
  wrap (Z.land x (Z.lnot mask_type)) = Z.land x bottom.
Proof.
  pose proof nbbits_size_type_m1_ge as Hn.
  unfold wrap. rewrite modulus_eq, mask_type_eq, bottom_ones.
  replace (2 * 2 ^ nbbits_size_type_m1) with (2 ^ (Z.succ nbbits_size_type_m1))
    by (rewrite Z.pow_succ_r; lia).
  apply Z.bits_inj'. intros k Hk.
  rewrite Z.testbit_mod_pow2 by lia.
  rewrite !Z.land_spec, Z.lnot_spec, Z.pow2_bits_eqb by lia.
  rewrite Z.testbit_ones_nonneg by lia.
  destruct (Z.ltb_spec k (Z.succ nbbits_size_type_m1)),
    (Z.eqb_spec nbbits_size_type_m1 k),
    (Z.ltb_spec k nbbits_size_type_m1);
    try lia; simpl; rewrite ?andb_true_r, ?andb_false_r; reflexivity.
Qed.

(** The flag of a word, as the shift of [static_type] computes it. *)
Lemma flag_of_word x :
  Z.shiftr (Z.land x mask_type) nbbits_size_type_m1
  = Z.b2z (Z.testbit x nbbits_size_type_m1).
Proof.
  pose proof nbbits_size_type_m1_ge as Hn.
  rewrite mask_type_eq.
  assert (Z.land x (2 ^ nbbits_size_type_m1)
          = if Z.testbit x nbbits_size_type_m1
            then 2 ^ nbbits_size_type_m1 else 0) as ->.
  { apply Z.bits_inj'. intros k Hk.
    rewrite Z.land_spec, Z.pow2_bits_eqb by lia.
    destruct (Z.eqb_spec nbbits_size_type_m1 k) as [<-|Hne].
    - destruct (Z.testbit x nbbits_size_type_m1); simpl.
      + rewrite Z.pow2_bits_true by lia. reflexivity.
      + rewrite Z.bits_0. reflexivity.
    - rewrite andb_false_r.
      destruct (Z.testbit x nbbits_size_type_m1).
      + rewrite Z.pow2_bits_false by assumption. reflexivity.
      + rewrite Z.bits_0. reflexivity. }
  destruct (Z.testbit x nbbits_size_type_m1); simpl.
  - rewrite Z.shiftr_div_pow2 by lia. apply Z.div_same.
    pose proof pow_m1_ge. lia.
  - apply Z.shiftr_0_l.
Qed.

(** The word that [static_set_val] writes. *)
Lemma word_flag v t :
  Z.testbit (wrap (Z.lor v (Z.shiftl (Type_to_Z t) nbbits_size_type_m1)))
    nbbits_size_type_m1
  = Z.testbit v nbbits_size_type_m1 || Type_eqb t FREE.
Proof.
  pose proof nbbits_size_type_m1_ge as Hn.
  unfold wrap. rewrite modulus_eq.
  replace (2 * 2 ^ nbbits_size_type_m1) with (2 ^ (Z.succ nbbits_size_type_m1))
    by (rewrite Z.pow_succ_r; lia).
  rewrite Z.mod_pow2_bits_low by lia.
  rewrite Z.lor_spec, Z.shiftl_spec, Z.sub_diag by lia.
  destruct t; reflexivity.
Qed.

Lemma word_val v t :
  Z.land (wrap (Z.lor v (Z.shiftl (Type_to_Z t) nbbits_size_type_m1))) bottom
  = Z.land v bottom.
Proof.
  pose proof nbbits_size_type_m1_ge as Hn.
  unfold wrap. rewrite modulus_eq, bottom_ones.
  replace (2 * 2 ^ nbbits_size_type_m1) with (2 ^ (Z.succ nbbits_size_type_m1))
    by (rewrite Z.pow_succ_r; lia).
  apply Z.bits_inj'. intros k Hk.
  rewrite !Z.land_spec, Z.testbit_ones_nonneg by lia.
  destruct (Z.ltb_spec k nbbits_size_type_m1); rewrite ?andb_false_r; [|reflexivity].
  rewrite Z.mod_pow2_bits_low by lia.
  rewrite Z.lor_spec, Z.shiftl_spec_low by lia.
  rewrite orb_false_r. reflexivity.
Qed.

Lemma land_bottom_flag v : Z.testbit (Z.land v bottom) nbbits_size_type_m1 = false.
Proof.
  pose proof nbbits_size_type_m1_ge as Hn.
  rewrite bottom_ones, Z.land_spec, Z.ones_spec_high by lia.
  apply andb_false_r.
Qed.

Context {T : Type} {Tr : Traits T}.

Lemma static_type_spec (e : T) :
  static_type e = if Z.testbit (size_t e) nbbits_size_type_m1 then FREE else USED.
Proof.
  unfold static_type. rewrite flag_of_word.
  destruct (Z.testbit (size_t e) nbbits_size_type_m1); reflexivity.
Qed.

Lemma static_get_val_spec (e : T) : static_get_val e = Z.land (size_t e) bottom.
Proof. unfold static_get_val. apply wrap_land_lnot_mask. Qed.

Lemma static_get_val_range (e : T) : 0 <= static_get_val e <= bottom.
Proof. rewrite static_get_val_spec. apply land_bottom_range. Qed.

Lemma size_t_static_set_val (e : T) v t :
  size_t (static_set_val e v t)
  = wrap (Z.lor v (Z.shiftl (Type_to_Z t) nbbits_size_type_m1)).
Proof. unfold static_set_val. apply size_t_set_size_t, wrap_range. Qed.

Lemma static_type_set_val_FREE (e : T) v : static_type (static_set_val e v FREE) = FREE.
Proof.
  rewrite static_type_spec, size_t_static_set_val, word_flag.
  rewrite orb_true_r. reflexivity.
Qed.

Lemma static_get_val_set_val (e : T) v t :
  static_get_val (static_set_val e v t) = Z.land v bottom.
Proof. rewrite static_get_val_spec, size_t_static_set_val. apply word_val. Qed.

Lemma static_type_set_type_USED (e : T) : static_type (static_set_type e USED) = USED.
Proof.
  unfold static_set_type.
  rewrite static_type_spec, size_t_static_set_val, word_flag.
  rewrite wrap_land_lnot_mask, land_bottom_flag. reflexivity.
Qed.

Lemma static_get_val_set_type (e : T) t :
  static_get_val (static_set_type e t) = static_get_val e.
Proof.
  unfold static_set_type. rewrite static_get_val_set_val.
  rewrite wrap_land_lnot_mask, static_get_val_spec.
  rewrite <- Z.land_assoc, Z.land_diag. reflexivity.
Qed.

End Bits.

(** ** Cells *)

Section Cells.
Context {IT : IndexType} {T : Type} {Tr : Traits T} {St : Storage T}.

Abbreviation CC := (Compact_container_with_index_2 T).

Lemma raw_get_Some (a : list T) i e :
  raw_get a i = Some e <-> 0 <= i /\ a !! Z.to_nat i = Some e.
Proof.
  unfold raw_get. destruct (Z.leb_spec 0 i); split.
  - intros H0. split; [lia | exact H0].
  - intros [_ H0]. exact H0.
  - discriminate.
  - intros [? _]. lia.
Qed.

Lemma raw_set_Some (a : list T) i e a' :
  raw_set a i e = Some a'
  <-> 0 <= i < Z.of_nat (length a) /\ a' = <[Z.to_nat i := e]> a.
Proof.
  unfold raw_set.
  destruct (Z.leb_spec 0 i), (Z.ltb_spec i (Z.of_nat (length a))); simpl;
    split; intros H1; try (destruct H1; lia); try discriminate.
  - injection H1 as <-. split; [lia | reflexivity].
  - destruct H1 as [_ ->]. reflexivity.
Qed.

Lemma at_Some (c : CC) i e :
  at_ c i = Some e
  <-> 0 <= i < capacity_ c /\ all_items c !! Z.to_nat i = Some e.
Proof.
  unfold at_. destruct (all_items c) as [|x l] eqn:E.
  - split; [discriminate | intros [_ H]; discriminate].
  - destruct (Z.ltb_spec i (capacity_ c)).
    + rewrite raw_get_Some. intuition lia.
    + split; [discriminate | intros [? _]; lia].
Qed.

Lemma at_lookup (c : CC) i :
  sized c -> 0 <= i < capacity_ c -> at_ c i = all_items c !! Z.to_nat i.
Proof.
  intros [Hc Hl] Hi.
  destruct (all_items c !! Z.to_nat i) as [e|] eqn:E.
  - apply at_Some. auto.
  - apply lookup_ge_None in E. lia.
Qed.

Lemma at_is_Some (c : CC) i :
  sized c -> 0 <= i < capacity_ c -> is_Some (at_ c i).
Proof.
  intros Hs Hi. rewrite at_lookup by assumption.
  apply lookup_lt_is_Some. destruct Hs. lia.
Qed.

Lemma at_None (c : CC) i : ~ (0 <= i < capacity_ c) -> at_ c i = None.
Proof.
  intros Hi. destruct (at_ c i) eqn:E; [|reflexivity].
  apply at_Some in E. tauto.
Qed.

Lemma assign_Some (c : CC) i e e0 :
  at_ c i = Some e0 ->
  assign c i e = Some (set_all_items (<[Z.to_nat i := e]> (all_items c)) c).
Proof.
  intros [Hi He]%at_Some. unfold assign.
  apply lookup_lt_Some in He.
  replace (raw_set (all_items c) i e)
    with (Some (<[Z.to_nat i := e]> (all_items c))); [reflexivity|].
  symmetry. apply raw_set_Some. split; [lia | reflexivity].
Qed.

Lemma is_used_Some (c : CC) i b :
  is_used c i = Some b <-> exists e, at_ c i = Some e /\ used_cell e = b.
Proof.
  unfold is_used, type. destruct (at_ c i) as [e|]; simpl.
  - split.
    + intros [= <-]. eauto.
    + intros (e' & [= <-] & <-). reflexivity.
  - split; [discriminate | intros (e' & [=] & _)].
Qed.

Lemma is_used_at (c : CC) i e : at_ c i = Some e -> is_used c i = Some (used_cell e).
Proof. intros H. apply is_used_Some. eauto. Qed.

Lemma type_at (c : CC) i e : at_ c i = Some e -> type c i = Some (static_type e).
Proof. intros H. unfold type. rewrite H. reflexivity. Qed.

Lemma get_val_at (c : CC) i e : at_ c i = Some e -> get_val c i = Some (static_get_val e).
Proof. intros H. unfold get_val. rewrite H. reflexivity. Qed.

Lemma used_cell_set_val_FREE (e : T) v : used_cell (static_set_val e v FREE) = false.
Proof. unfold used_cell. rewrite static_type_set_val_FREE. reflexivity. Qed.

Lemma used_cell_USED (e : T) : used_cell e = true <-> static_type e = USED.
Proof. unfold used_cell. destruct (static_type e); simpl; intuition congruence. Qed.

(** *** The operations, on a cell that exists *)

Lemma put_on_free_list_eq (c : CC) x e :
  at_ c x = Some e ->
  put_on_free_list c x
  = Some {| capacity_ := capacity_ c; size_ := size_ c;
            block_size := block_size c; free_list := x;
            all_items := <[Z.to_nat x := static_set_val e (free_list c) FREE]>
                           (all_items c) |}.
Proof.
  intros H. unfold put_on_free_list, set_val. rewrite H. simpl.
  rewrite (assign_Some c x _ e H). reflexivity.
Qed.

Lemma put_on_free_list_None (c : CC) x : at_ c x = None -> put_on_free_list c x = None.
Proof. intros H. unfold put_on_free_list, set_val. rewrite H. reflexivity. Qed.

Lemma at_set_all_items_same (c : CC) i e e0 :
  at_ c i = Some e0 ->
  at_ (set_all_items (<[Z.to_nat i := e]> (all_items c)) c) i = Some e.
Proof.
  intros [Hi He]%at_Some. apply at_Some. simpl. split; [assumption|].
  apply list_lookup_insert_eq. eapply lookup_lt_Some; eassumption.
Qed.

Lemma insert_tail (c : CC) t e (d : list T) :
  at_ c (free_list c) = Some e ->
  (e0 ← at_ c (free_list c);
   c0 ← assign c (free_list c) (static_set_type e0 USED);
   e1 ← at_ c0 (free_list c);
   c2 ← assign (set_free_list (static_get_val e1) c0) (free_list c) t;
   Some ({| m_idx := free_list c |}, set_size_ (wrap (size_ c2 + 1)) c2, d))
  = Some ({| m_idx := free_list c |}, take_free_cell c t e, d).
Proof.
  intros He. rewrite He. simpl.
  rewrite (assign_Some c _ _ e He). simpl.
  rewrite (at_set_all_items_same c _ _ e He). simpl.
  unfold assign. simpl.
  apply at_Some in He as [Hi He]. apply lookup_lt_Some in He.
  replace (raw_set _ (free_list c) t)
    with (Some (<[Z.to_nat (free_list c) := t]> (all_items c))).
  - simpl. unfold take_free_cell, set_size_, set_free_list, set_all_items. simpl.
    rewrite static_get_val_set_type. reflexivity.
  - symmetry. apply raw_set_Some. rewrite length_insert.
    split; [lia|]. symmetry. apply list_insert_insert_eq.
Qed.

Lemma insert_no_growth p (c : CC) t e :
  free_list c <> bottom ->
  at_ c (free_list c) = Some e ->
  insert p c t = Some ({| m_idx := free_list c |}, take_free_cell c t e, []).
Proof.
  intros Hne He. unfold insert.
  destruct (Z.eqb_spec (free_list c) bottom) as [?|_]; [contradiction|].
  apply (insert_tail c t e [] He).
Qed.

Lemma insert_growth p (c c1 : CC) d t e :
  free_list c = bottom ->
  allocate_new_block p c = Some (c1, d) ->
  at_ c1 (free_list c1) = Some e ->
  insert p c t = Some ({| m_idx := free_list c1 |}, take_free_cell c1 t e, d).
Proof.
  intros Hb Ha He. unfold insert. rewrite Hb, Z.eqb_refl, Ha.
  apply (insert_tail c1 t e d He).
Qed.

Lemma emplace_insert {Args} (value_type : Args -> T) p (c : CC) args :
  emplace value_type p c args = insert p c (value_type args).
Proof. reflexivity. Qed.

Lemma erase_eq (c : CC) x e :
  at_ c (m_idx x) = Some e ->
  static_type e = USED ->
  erase c x
  = Some ({| capacity_ := capacity_ c; size_ := wrap (size_ c - 1);
             block_size := block_size c; free_list := m_idx x;
             all_items := <[Z.to_nat (m_idx x)
                            := static_set_val zeroed (free_list c) FREE]>
                            (all_items c) |}, [e]).
Proof.
  intros He Ht. unfold erase. rewrite (type_at c _ e He). simpl.
  rewrite Ht. simpl. rewrite He. simpl.
  rewrite (assign_Some c _ _ e He). simpl.
  rewrite (put_on_free_list_eq _ _ zeroed).
  - simpl. rewrite list_insert_insert_eq. reflexivity.
  - apply (at_set_all_items_same c _ _ e He).
Qed.

Lemma erase_None (c : CC) x : is_used c (m_idx x) <> Some true -> erase c x = None.
Proof.
  unfold erase, is_used. destruct (type c (m_idx x)) as [[]|]; simpl; try reflexivity.
  intros H. contradiction H. reflexivity.
Qed.

End Cells.

(** ** Growth *)

Section Growth.
Context {IT : IndexType} {T : Type} {Tr : Traits T} {St : Storage T}.

Abbreviation CC := (Compact_container_with_index_2 T).

Lemma move_items_spec (c : CC) (l2 : list T) : forall l1 a1 k,
  all_items c = l1 ++ l2 ->
  length a1 = length l1 ->
  Z.of_nat (length (l1 ++ l2)) <= capacity_ c < modulus ->
  move_items c (length l2) (Z.of_nat (length l1))
    (a1 ++ replicate (length l2 + k) indeterminate)
  = Some (a1 ++ (moved_cell <$> l2) ++ replicate k indeterminate,
          List.filter used_cell l2).
Proof.
  induction l2 as [|e l2 IH]; intros l1 a1 k Hl Ha Hc.
  - reflexivity.
  - rewrite length_app in Hc. simpl in Hc.
    assert (at_ c (Z.of_nat (length l1)) = Some e) as Hat.
    { apply at_Some. split; [lia|]. rewrite Hl, Nat2Z.id.
      apply list_lookup_middle. reflexivity. }
    assert (raw_get (all_items c) (Z.of_nat (length l1)) = Some e) as Hget.
    { apply raw_get_Some. apply at_Some in Hat. tauto. }
    assert (forall v, raw_set (a1 ++ replicate (S (length l2) + k) indeterminate)
                        (Z.of_nat (length l1)) v
                      = Some ((a1 ++ [v]) ++ replicate (length l2 + k) indeterminate))
      as Hset.
    { intros v. apply raw_set_Some. rewrite length_app, length_replicate. simpl.
      split; [lia|]. rewrite Nat2Z.id, <- Ha.
      replace (length a1) with (length a1 + 0)%nat at 1 by lia.
      rewrite insert_app_r. simpl. rewrite <- app_assoc. reflexivity. }
    assert (wrap (Z.of_nat (length l1) + 1) = Z.of_nat (length (l1 ++ [e]))) as Hw.
    { rewrite length_app. simpl. rewrite wrap_small; lia. }
    assert (move_items c (length l2) (Z.of_nat (length (l1 ++ [e])))
              ((a1 ++ [moved_cell e]) ++ replicate (length l2 + k) indeterminate)
            = Some ((a1 ++ [moved_cell e]) ++ (moved_cell <$> l2)
                      ++ replicate k indeterminate, List.filter used_cell l2))
      as IH'.
    { apply IH.
      - rewrite <- app_assoc. exact Hl.
      - rewrite !length_app. simpl. lia.
      - rewrite !length_app. simpl. lia. }
    clear IH.
    cbn [move_items length]. rewrite (is_used_at c _ e Hat). simpl.
    rewrite Hget. simpl. unfold moved_cell in *.
    destruct (used_cell e) eqn:Hu.
    + rewrite Hset. simpl. rewrite Hw, IH'. simpl.
      rewrite <- app_assoc. reflexivity.
    + assert (raw_get (a1 ++ replicate (S (length l2) + k) indeterminate)
                (Z.of_nat (length l1)) = Some indeterminate) as Hg.
      { apply raw_get_Some. split; [lia|]. rewrite Nat2Z.id, <- Ha.
        apply list_lookup_middle. reflexivity. }
      simpl in Hg. rewrite Hg. simpl. rewrite Hset. simpl. rewrite Hw, IH'.
      rewrite <- app_assoc. reflexivity.
Qed.

Lemma sized_put (c : CC) x v f :
  sized c ->
  sized {| capacity_ := capacity_ c; size_ := size_ c; block_size := block_size c;
           free_list := f; all_items := <[x := v]> (all_items c) |}.
Proof. intros [? ?]. split; simpl; [assumption|]. rewrite length_insert. assumption. Qed.

Lemma free_new_items_spec (old : Z) (j : nat) : forall fuel (c : CC),
  sized c -> 0 <= old -> old + Z.of_nat j < capacity_ c -> (j <= fuel)%nat ->
  exists c',
    free_new_items fuel c (old + Z.of_nat j) old = Some c'
    /\ capacity_ c' = capacity_ c /\ size_ c' = size_ c
    /\ block_size c' = block_size c
    /\ free_list c' = (if j is O then free_list c else old + 1)
    /\ length (all_items c') = length (all_items c)
    /\ forall i : nat,
         all_items c' !! i
         = if (old <? Z.of_nat i) && (Z.of_nat i <=? old + Z.of_nat j)
           then (fun e => static_set_val e
                   (if Z.of_nat i =? old + Z.of_nat j then free_list c
                    else Z.of_nat i + 1) FREE) <$> all_items c !! i
           else all_items c !! i.
Proof.
  induction j as [|j IH]; intros fuel c Hs Hold Hcap Hfuel.
  - exists c. replace (old + Z.of_nat 0) with old by lia.
    assert (free_new_items fuel c old old = Some c) as ->.
    { destruct fuel; simpl; rewrite Z.ltb_irrefl; reflexivity. }
    repeat split; try reflexivity.
    intros i. destruct (Z.ltb_spec old (Z.of_nat i)), (Z.leb_spec (Z.of_nat i) old);
      simpl; try reflexivity. lia.
  - destruct fuel as [|fuel]; [lia|].
    destruct (at_is_Some c (old + Z.of_nat (S j)) Hs ltac:(lia)) as [e He].
    cbn [free_new_items].
    destruct (Z.ltb_spec old (old + Z.of_nat (S j))); [|lia].
    rewrite (put_on_free_list_eq c _ e He). simpl.
    rewrite wrap_small by (destruct Hs; lia).
    replace (old + Z.of_nat (S j) - 1) with (old + Z.of_nat j) by lia.
    match goal with |- context [free_new_items fuel ?c1 _ _] => set (c1' := c1) end.
    destruct (IH fuel c1') as (c' & Hc' & H1 & H2 & H3 & H4 & H5 & H6).
    { apply sized_put. assumption. }
    { assumption. }
    { simpl. lia. }
    { lia. }
    exists c'. split; [assumption|]. simpl in *.
    repeat split; try assumption.
    + rewrite H4. destruct j; [lia | reflexivity].
    + rewrite H5, length_insert. reflexivity.
    + intros i. rewrite H6. clear H6.
      apply at_Some in He as [_ He].
      destruct (decide (i = Z.to_nat (old + Z.of_nat (S j)))) as [->|Hne].
      * rewrite list_lookup_insert_eq by (eapply lookup_lt_Some; eassumption).
        rewrite He. simpl.
        destruct (Z.ltb_spec old (Z.of_nat (Z.to_nat (old + Z.of_nat (S j)))));
          [|lia].
        destruct (Z.leb_spec (Z.of_nat (Z.to_nat (old + Z.of_nat (S j))))
                    (old + Z.of_nat j)); [lia|].
        destruct (Z.leb_spec (Z.of_nat (Z.to_nat (old + Z.of_nat (S j))))
                    (old + Z.of_nat (S j))); [|lia].
        simpl.
        destruct (Z.eqb_spec (Z.of_nat (Z.to_nat (old + Z.of_nat (S j))))
                    (old + Z.of_nat (S j))); [reflexivity | lia].
      * rewrite list_lookup_insert_ne by congruence.
        destruct (Z.ltb_spec old (Z.of_nat i)); simpl; [|reflexivity].
        destruct (Z.leb_spec (Z.of_nat i) (old + Z.of_nat j)),
          (Z.leb_spec (Z.of_nat i) (old + Z.of_nat (S j))); try lia;
          try reflexivity.
        destruct (Z.eqb_spec (Z.of_nat i) (old + Z.of_nat j)),
          (Z.eqb_spec (Z.of_nat i) (old + Z.of_nat (S j))); try lia;
          try reflexivity.
        rewrite e0. replace (old + Z.of_nat j + 1) with (old + Z.of_nat (S j)) by lia.
        reflexivity.
Qed.

Lemma allocate_new_block_eq p (c : CC) :
  sized c -> 0 < block_size c -> capacity_ c + block_size c < modulus ->
  allocate_new_block p c = Some (grown p c, List.filter used_cell (all_items c)).
Proof.
  intros [Hc Hl] Hb Hm. unfold allocate_new_block. cbv zeta.
  cbn [capacity_ set_capacity_ set_all_items size_ block_size free_list all_items].
  rewrite (wrap_small (capacity_ c + block_size c)) by lia.
  set (new := capacity_ c + block_size c) in *.
  set (c1 := set_capacity_ new c).
  pose proof (move_items_spec c1 (all_items c) [] [] (Z.to_nat (block_size c))
                eq_refl eq_refl) as Hmove.
  simpl in Hmove. change (Z.of_nat 0) with 0 in Hmove.
  replace (Z.to_nat new) with (length (all_items c) + Z.to_nat (block_size c))%nat
    at 1 by lia.
  rewrite <- Hl at 1. rewrite Hmove by lia. clear Hmove.
  cbn [mbind option_bind].
  set (A := (moved_cell <$> all_items c) ++ replicate (Z.to_nat (block_size c)) indeterminate).
  set (c2 := {| capacity_ := new; size_ := size_ c; block_size := block_size c;
                free_list := free_list c; all_items := A |}).
  change (set_all_items A c1) with c2.
  assert (length A = Z.to_nat new) as HlA.
  { unfold A. rewrite length_app, length_fmap, length_replicate. lia. }
  assert (sized c2) as Hs2 by (split; simpl; [lia | assumption]).
  rewrite (wrap_small (new - 1)) by lia.
  destruct (free_new_items_spec (capacity_ c) (Z.to_nat (block_size c - 1))
              (Z.to_nat new) c2 Hs2) as (c' & Hc' & H1 & H2 & H3 & H4 & H5 & H6);
    [lia | simpl; lia | lia |].
  replace (capacity_ c + Z.of_nat (Z.to_nat (block_size c - 1))) with (new - 1)
    in Hc' by lia.
  rewrite Hc'. cbn [mbind option_bind].
  assert (all_items c' !! Z.to_nat (capacity_ c) = Some indeterminate) as Hcell.
  { rewrite H6. destruct (Z.ltb_spec (capacity_ c) (Z.of_nat (Z.to_nat (capacity_ c))));
      [lia|]. simpl. unfold A. rewrite lookup_app_r by (rewrite length_fmap; lia).
    apply lookup_replicate_2. rewrite length_fmap. lia. }
  rewrite (put_on_free_list_eq c' (capacity_ c) indeterminate)
    by (apply at_Some; split; [rewrite H1; simpl; lia | assumption]).
  cbn [mbind option_bind]. unfold grown. do 3 f_equal.
  rewrite H1, H2, H3. simpl. f_equal.
  apply list_eq. intros i. unfold grown_items.
  destruct (decide (i = Z.to_nat (capacity_ c))) as [->|Hne].
  - rewrite list_lookup_insert_eq by (eapply lookup_lt_Some; eassumption).
    rewrite lookup_app_r by (rewrite length_fmap; lia).
    rewrite length_fmap, Hl, Nat.sub_diag, list_lookup_fmap.
    rewrite lookup_seqZ_lt by lia.
    cbn [fmap option_fmap option_map]. unfold fresh_cell. rewrite H4.
    f_equal. f_equal.
    destruct (Z.eqb_spec (capacity_ c + Z.of_nat 0) (capacity_ c + block_size c - 1));
      destruct (Z.to_nat (block_size c - 1)) eqn:E; try lia; reflexivity.
  - rewrite list_lookup_insert_ne by congruence. rewrite H6. simpl. unfold A.
    destruct (decide (i < Z.to_nat (capacity_ c))%nat) as [Hlt|Hge].
    + destruct (Z.ltb_spec (capacity_ c) (Z.of_nat i)); [lia|]. simpl.
      rewrite !lookup_app_l by (rewrite length_fmap; lia). reflexivity.
    + destruct (Z.ltb_spec (capacity_ c) (Z.of_nat i)); [|lia]. simpl.
      rewrite !lookup_app_r by (rewrite length_fmap; lia).
      rewrite length_fmap, list_lookup_fmap.
      destruct (Z.leb_spec (Z.of_nat i)
                  (capacity_ c + Z.of_nat (Z.to_nat (block_size c - 1)))).
      * rewrite lookup_replicate_2 by lia.
        rewrite lookup_seqZ_lt by lia. simpl. unfold fresh_cell.
        f_equal. f_equal.
        replace (capacity_ c + Z.of_nat (i - length (all_items c)))
          with (Z.of_nat i) by lia.
        replace (capacity_ c + Z.of_nat (Z.to_nat (block_size c - 1)))
          with (capacity_ c + block_size c - 1) by lia.
        reflexivity.
      * rewrite lookup_seqZ_ge by lia. simpl.
        apply lookup_ge_None_2. rewrite length_replicate. lia.
Qed.

End Growth.

(** ** Iteration *)

Section Iteration.
Context {IT : IndexType} {T : Type} {Tr : Traits T} {St : Storage T}.

Abbreviation CC := (Compact_container_with_index_2 T).

Lemma skip_free_le l : (skip_free l <= length l)%nat.
Proof. induction l as [|e l IH]; simpl; [lia|]. destruct (used_cell e); simpl; lia. Qed.

Lemma used_from_skip l : forall i,
  used_from i l = used_from (i + Z.of_nat (skip_free l)) (drop (skip_free l) l).
Proof.
  induction l as [|e l IH]; intros i; simpl.
  - reflexivity.
  - destruct (used_cell e) eqn:E; simpl.
    + rewrite E. change (Z.of_nat 0) with 0. rewrite Z.add_0_r. reflexivity.
    + rewrite IH. f_equal. lia.
Qed.

Lemma drop_skip_free_head l e l' :
  drop (skip_free l) l = e :: l' -> used_cell e = true.
Proof.
  induction l as [|x l IH]; simpl.
  - discriminate.
  - destruct (used_cell x) eqn:E; simpl.
    + intros [= <- _]. assumption.
    + assumption.
Qed.

Lemma length_used_from l : forall i,
  length (used_from i l) = length (List.filter used_cell l).
Proof.
  induction l as [|e l IH]; intros i; simpl; [reflexivity|].
  destruct (used_cell e); simpl; rewrite IH; reflexivity.
Qed.

Lemma increment_loop_spec (c : CC) (l2 : list T) : forall l1 fuel,
  sized c -> all_items c = l1 ++ l2 -> (skip_free l2 <= fuel)%nat ->
  increment_loop fuel c (Z.of_nat (length l1) - 1)
  = Some (Z.of_nat (length l1) + Z.of_nat (skip_free l2)).
Proof.
  induction l2 as [|e l2 IH]; intros l1 fuel Hs Hl Hf.
  - destruct Hs as [Hc Hlen]. rewrite Hl, length_app in Hlen. simpl in Hlen.
    assert (increment_loop fuel c (Z.of_nat (length l1) - 1)
            = Some (Z.of_nat (length l1))) as ->.
    { destruct fuel; simpl;
        (replace (Z.of_nat (length l1) - 1 + 1) with (Z.of_nat (length l1)) by lia);
        rewrite wrap_small by lia;
        (destruct (Z.ltb_spec (Z.of_nat (length l1)) (capacity_ c)); [lia|]);
        reflexivity. }
    simpl. f_equal. lia.
  - pose proof Hs as [Hc Hlen]. rewrite Hl, length_app in Hlen. simpl in Hlen.
    assert (at_ c (Z.of_nat (length l1)) = Some e) as Hat.
    { apply at_Some. split; [lia|]. rewrite Hl, Nat2Z.id.
      apply list_lookup_middle. reflexivity. }
    assert (forall f, increment_loop f c (Z.of_nat (length l1) - 1)
              = if negb (used_cell e)
                then match f with
                     | O => None
                     | S f' => increment_loop f' c (Z.of_nat (length l1))
                     end
                else Some (Z.of_nat (length l1))) as Hstep.
    { intros f. destruct f; simpl;
        (replace (Z.of_nat (length l1) - 1 + 1) with (Z.of_nat (length l1)) by lia);
        rewrite wrap_small by lia;
        (destruct (Z.ltb_spec (Z.of_nat (length l1)) (capacity_ c)); [|lia]);
        rewrite (is_used_at c _ e Hat); reflexivity. }
    rewrite Hstep. simpl in *. destruct (used_cell e) eqn:E; simpl.
    + f_equal. lia.
    + destruct fuel as [|fuel]; [lia|].
      specialize (IH (l1 ++ [e]) fuel Hs).
      rewrite <- app_assoc in IH. specialize (IH Hl ltac:(lia)).
      rewrite length_app in IH. simpl in IH.
      replace (Z.of_nat (length l1 + 1) - 1) with (Z.of_nat (length l1)) in IH by lia.
      rewrite IH. f_equal. lia.
Qed.

Lemma iterate_from_spec (this : nat) (c : CC) : forall n l1 l2 fuel,
  (length l2 <= n)%nat ->
  sized c -> all_items c = l1 ++ l2 ->
  (forall e l', l2 = e :: l' -> used_cell e = true) ->
  (length l2 <= fuel)%nat ->
  iterate_from fuel this c
    {| m_ptr_to_cc := Some this; m_index := Z.of_nat (length l1) |}
  = Some (used_from (Z.of_nat (length l1)) l2).
Proof.
  induction n as [|n IH]; intros l1 l2 fuel Hn Hs Hl Hhd Hf;
    pose proof Hs as [Hc Hlen]; rewrite Hl, length_app in Hlen.
  - destruct l2; [|simpl in Hn; lia]. simpl in Hlen.
    assert (iterator_eqb {| m_ptr_to_cc := Some this;
                            m_index := Z.of_nat (length l1) |} (end_ this c) = true)
      as Heq.
    { unfold iterator_eqb. simpl. rewrite Nat.eqb_refl. simpl. lia. }
    destruct fuel; simpl; rewrite Heq; reflexivity.
  - destruct l2 as [|e l2].
    + simpl in Hlen.
      assert (iterator_eqb {| m_ptr_to_cc := Some this;
                              m_index := Z.of_nat (length l1) |} (end_ this c) = true)
        as Heq.
      { unfold iterator_eqb. simpl. rewrite Nat.eqb_refl. simpl. lia. }
      destruct fuel; simpl; rewrite Heq; reflexivity.
    + simpl in Hlen, Hn, Hf.
      assert (iterator_eqb {| m_ptr_to_cc := Some this;
                              m_index := Z.of_nat (length l1) |} (end_ this c) = false)
        as Hne.
      { unfold iterator_eqb. simpl. rewrite Nat.eqb_refl. simpl. lia. }
      destruct fuel as [|fuel]; [lia|].
      cbn [iterate_from]. rewrite Hne.
      assert (at_ c (Z.of_nat (length l1)) = Some e) as Hat.
      { apply at_Some. split; [lia|]. rewrite Hl, Nat2Z.id.
        apply list_lookup_middle. reflexivity. }
      unfold deref. cbn [m_index]. rewrite Hat. cbn [mbind option_bind].
      unfold increment. cbn [m_ptr_to_cc m_index].
      destruct (Z.ltb_spec (Z.of_nat (length l1)) (capacity_ c)); [|lia].
      pose proof (increment_loop_spec c l2 (l1 ++ [e]) (Z.to_nat (capacity_ c)) Hs)
        as Hinc.
      rewrite <- app_assoc in Hinc. specialize (Hinc Hl).
      rewrite length_app in Hinc. simpl in Hinc.
      replace (Z.of_nat (length l1 + 1) - 1) with (Z.of_nat (length l1)) in Hinc by lia.
      pose proof (skip_free_le l2).
      rewrite Hinc by lia. cbn [mbind option_bind].
      specialize (IH (l1 ++ e :: take (skip_free l2) l2) (drop (skip_free l2) l2) fuel).
      rewrite length_drop in IH.
      rewrite <- app_assoc in IH. simpl in IH. rewrite take_drop in IH.
      specialize (IH ltac:(lia) Hs Hl).
      rewrite length_app in IH. simpl in IH.
      rewrite length_take in IH.
      replace (Z.of_nat (length l1 + S (skip_free l2 `min` length l2)))
        with (Z.of_nat (length l1 + 1) + Z.of_nat (skip_free l2)) in IH by lia.
      rewrite IH.
      * cbn [mbind option_bind]. cbn [used_from].
        rewrite (Hhd e l2 eq_refl). f_equal. f_equal.
        rewrite (used_from_skip l2). f_equal. lia.
      * intros e' l' H'. eapply drop_skip_free_head. eassumption.
      * lia.
Qed.

(** Forward iteration visits exactly the used cells, in ascending order;
    [begin()] relies on [size_] to tell an empty container. *)
Lemma forward_iteration_spec (this : nat) (c : CC) :
  sized c ->
  (size_ c = 0 -> used_cells c = []) ->
  (size_ c <> 0 -> 0 < capacity_ c) ->
  forward_iteration this c = Some (used_cells c).
Proof.
  intros Hs H0 H1. pose proof Hs as [Hc Hlen].
  unfold forward_iteration, begin, empty.
  destruct (Z.eqb_spec (size_ c) 0) as [Hz|Hnz].
  - cbn [mbind option_bind]. rewrite (H0 Hz).
    assert (iterator_eqb (end_ this c) (end_ this c) = true) as Heq.
    { unfold iterator_eqb. simpl. rewrite Nat.eqb_refl. simpl. lia. }
    destruct (Z.to_nat (capacity_ c)); simpl; rewrite Heq; reflexivity.
  - specialize (H1 Hnz).
    destruct (all_items c) as [|e l] eqn:El; [simpl in Hlen; lia|].
    simpl in Hlen.
    assert (at_ c 0 = Some e) as Hat.
    { apply at_Some. split; [lia|]. rewrite El. reflexivity. }
    unfold iterator_for_begin. cbn [m_index].
    rewrite (is_used_at c 0 e Hat). cbn [mbind option_bind].
    unfold used_cells. rewrite El.
    destruct (used_cell e) eqn:E; cbn [negb].
    + apply (iterate_from_spec this c (length (e :: l)) [] (e :: l)); auto.
      * intros e' l' [= <- <-]. assumption.
      * simpl. lia.
    + unfold increment. cbn [m_ptr_to_cc m_index].
      destruct (Z.ltb_spec 0 (capacity_ c)); [|lia].
      pose proof (increment_loop_spec c l [e] (Z.to_nat (capacity_ c)) Hs El) as Hinc.
      pose proof (skip_free_le l).
      change (Z.of_nat (length [e]) - 1) with 0 in Hinc.
      change (Z.of_nat (length [e])) with 1 in Hinc.
      rewrite Hinc by lia. cbn [mbind option_bind].
      pose proof (iterate_from_spec this c (length l)
                    (e :: take (skip_free l) l) (drop (skip_free l) l)
                    (Z.to_nat (capacity_ c))) as Hit.
      rewrite length_drop in Hit. simpl in Hit. rewrite take_drop in Hit.
      rewrite length_take in Hit.
      replace (Z.of_nat (S (skip_free l `min` length l)))
        with (1 + Z.of_nat (skip_free l)) in Hit by lia.
      rewrite Hit.
      * cbn [used_from]. rewrite E. rewrite (used_from_skip l). reflexivity.
      * lia.
      * assumption.
      * assumption.
      * intros e' l' H'. eapply drop_skip_free_head. eassumption.
      * lia.
Qed.

End Iteration.

(** ** Inversion of the operations *)

Section Inversion.
Context {IT : IndexType} {T : Type} {Tr : Traits T} {St : Storage T}.

Abbreviation CC := (Compact_container_with_index_2 T).

Lemma insert_Some_inv p (c : CC) t r c' d :
  insert p c t = Some (r, c', d) ->
  exists c1 e,
    (free_list c <> bottom /\ c1 = c /\ d = []
     \/ free_list c = bottom /\ allocate_new_block p c = Some (c1, d))
    /\ at_ c1 (free_list c1) = Some e
    /\ r = {| m_idx := free_list c1 |}
    /\ c' = take_free_cell c1 t e.
Proof.
  intros H.
  destruct (Z.eqb_spec (free_list c) bottom) as [Hb|Hb].
  - destruct (allocate_new_block p c) as [[c1 d1]|] eqn:Ha.
    + destruct (at_ c1 (free_list c1)) as [e|] eqn:He.
      * rewrite (insert_growth p c c1 d1 t e Hb Ha He) in H.
        injection H as <- <- <-. exists c1, e. auto 10.
      * unfold insert in H. rewrite Hb, Z.eqb_refl, Ha in H.
        cbn [mbind option_bind] in H. rewrite He in H. discriminate.
    + unfold insert in H. rewrite Hb, Z.eqb_refl, Ha in H. discriminate.
  - destruct (at_ c (free_list c)) as [e|] eqn:He.
    + rewrite (insert_no_growth p c t e Hb He) in H.
      injection H as <- <- <-. exists c, e. auto 10.
    + unfold insert in H.
      destruct (Z.eqb_spec (free_list c) bottom); [contradiction|].
      cbn [mbind option_bind] in H. rewrite He in H. discriminate.
Qed.

Lemma erase_Some_inv (c : CC) x c' d :
  erase c x = Some (c', d) ->
  exists e, at_ c (m_idx x) = Some e /\ static_type e = USED.
Proof.
  intros H. unfold erase, type in H.
  destruct (at_ c (m_idx x)) as [e|] eqn:He; [|discriminate].
  exists e. split; [reflexivity|]. simpl in H.
  destruct (static_type e); [reflexivity | discriminate].
Qed.

Lemma move_items_None (c : CC) : forall n index a,
  0 <= index <= capacity_ c -> capacity_ c < modulus ->
  capacity_ c - index < Z.of_nat n ->
  move_items c n index a = None.
Proof.
  induction n as [|n IH]; intros index a Hi Hc Hn.
  - lia.
  - cbn [move_items].
    destruct (is_used c index) as [u|] eqn:Hu; [|reflexivity].
    apply is_used_Some in Hu as (e & [Hr _]%at_Some & _).
    cbn [mbind option_bind].
    rewrite wrap_small by lia.
    destruct u.
    + destruct (raw_get (all_items c) index); [|reflexivity].
      cbn [mbind option_bind].
      destruct (raw_set a index t); [|reflexivity].
      cbn [mbind option_bind]. rewrite IH by lia. reflexivity.
    + destruct (raw_get (all_items c) index); [|reflexivity].
      cbn [mbind option_bind].
      destruct (raw_get a index); [|reflexivity].
      cbn [mbind option_bind].
      destruct (raw_set a index _); [|reflexivity].
      cbn [mbind option_bind]. apply IH; lia.
Qed.

(** [allocate_new_block] returns only when it adds at least one cell and
    the new capacity is a value of [size_type]. *)
Lemma allocate_new_block_Some_inv p (c c' : CC) d :
  sized c -> 0 <= block_size c < modulus ->
  allocate_new_block p c = Some (c', d) ->
  0 < block_size c /\ capacity_ c + block_size c < modulus.
Proof.
  intros [Hc Hl] Hb H.
  destruct (Z.lt_ge_cases (capacity_ c + block_size c) modulus) as [Hlt|Hge].
  - split; [|assumption].
    destruct (Z.eq_dec (block_size c) 0) as [H0|]; [|lia]. exfalso.
    unfold allocate_new_block in H. cbv zeta in H.
    cbn [capacity_ set_capacity_ set_all_items] in H.
    rewrite H0, Z.add_0_r, (wrap_small (capacity_ c)) in H by lia.
    destruct (move_items _ _ _ _) as [[a d1]|]; [|discriminate].
    cbn [mbind option_bind] in H.
    destruct (Z.eq_dec (capacity_ c) 0) as [Hz|Hnz].
    + rewrite Hz in H. simpl in H.
      assert ((0 <? wrap (0 - 1)) = true) as Hw.
      { unfold wrap. pose proof bottom_ge. rewrite modulus_bottom.
        apply Z.ltb_lt.
        replace (0 - 1) with ((2 * bottom + 1) + (- (1)) * (2 * bottom + 2)) by lia.
        rewrite Z.mod_add by lia. rewrite Z.mod_small by lia. lia. }
      rewrite Hw in H. discriminate.
    + rewrite (wrap_small (capacity_ c - 1)) in H by lia.
      assert (forall fuel (c0 : CC), free_new_items fuel c0 (capacity_ c - 1) (capacity_ c)
                                     = Some c0) as Hf.
      { intros fuel c0. destruct fuel; simpl;
          (destruct (Z.ltb_spec (capacity_ c) (capacity_ c - 1)); [lia|]);
          reflexivity. }
      rewrite Hf in H. cbn [mbind option_bind] in H.
      rewrite put_on_free_list_None in H; [discriminate|].
      apply at_None. simpl. lia.
  - exfalso. unfold allocate_new_block in H. cbv zeta in H.
    cbn [capacity_ set_capacity_ set_all_items] in H.
    rewrite move_items_None in H;
      [discriminate | simpl; pose proof (wrap_range (capacity_ c + block_size c)); lia
      | apply wrap_range |].
    simpl. unfold wrap.
    replace (capacity_ c + block_size c)
      with ((capacity_ c + block_size c - modulus) + 1 * modulus) by lia.
    rewrite Z.mod_add by lia. rewrite Z.mod_small by lia. lia.
Qed.

Lemma allocate_new_block_Some p (c c' : CC) d :
  sized c -> 0 <= block_size c < modulus ->
  allocate_new_block p c = Some (c', d) ->
  0 < block_size c /\ capacity_ c + block_size c < modulus
  /\ c' = grown p c /\ d = List.filter used_cell (all_items c).
Proof.
  intros Hs Hb H.
  destruct (allocate_new_block_Some_inv p c c' d Hs Hb H) as [H1 H2].
  rewrite (allocate_new_block_eq p c Hs H1 H2) in H.
  injection H as <- <-. auto.
Qed.

End Inversion.

(** ** The invariant of the container *)

Section Invariant.
Context {IT : IndexType} {T : Type} {Tr : Traits T} {St : Storage T}.

Abbreviation CC := (Compact_container_with_index_2 T).

Lemma at_ext (c c' : CC) j :
  capacity_ c' = capacity_ c ->
  (0 <= j < capacity_ c -> all_items c' !! Z.to_nat j = all_items c !! Z.to_nat j) ->
  at_ c' j = at_ c j.
Proof.
  intros Hc Hl.
  destruct (at_ c j) as [e|] eqn:E.
  - apply at_Some in E as [Hj E]. apply at_Some. rewrite Hc, Hl by assumption. auto.
  - destruct (at_ c' j) as [e|] eqn:E'; [|reflexivity].
    apply at_Some in E' as [Hj E']. rewrite Hc in Hj. rewrite Hl in E' by assumption.
    assert (at_ c j = Some e) as H by (apply at_Some; auto). congruence.
Qed.

Lemma at_update_ne (c c' : CC) k v j :
  capacity_ c' = capacity_ c ->
  all_items c' = <[Z.to_nat k := v]> (all_items c) ->
  0 <= k -> j <> k ->
  at_ c' j = at_ c j.
Proof.
  intros Hc Hl Hk Hne. apply at_ext; [assumption|].
  intros Hj. rewrite Hl. apply list_lookup_insert_ne. lia.
Qed.

Lemma at_update_eq (c c' : CC) k v e :
  capacity_ c' = capacity_ c ->
  all_items c' = <[Z.to_nat k := v]> (all_items c) ->
  at_ c k = Some e ->
  at_ c' k = Some v.
Proof.
  intros Hc Hl [Hk He]%at_Some. apply at_Some. rewrite Hc, Hl. split; [assumption|].
  apply list_lookup_insert_eq. eapply lookup_lt_Some. eassumption.
Qed.

Lemma free_chain_frame (c c' : CC) h l :
  free_chain c h l ->
  (forall j, j ∈ l -> at_ c' j = at_ c j) ->
  free_chain c' h l.
Proof.
  induction 1 as [|h e l Hh He Hu Hch IH]; intros Hf.
  - constructor.
  - econstructor; try eassumption.
    + rewrite Hf by apply list_elem_of_here. assumption.
    + apply IH. intros j Hj. apply Hf. apply elem_of_cons. auto.
Qed.

Lemma free_chain_free (c : CC) h l j :
  free_chain c h l -> j ∈ l ->
  exists e, at_ c j = Some e /\ used_cell e = false.
Proof.
  induction 1 as [|h e l Hh He Hu Hch IH]; intros Hj.
  - apply elem_of_nil in Hj. contradiction.
  - apply elem_of_cons in Hj as [->|Hj]; eauto.
Qed.

Lemma free_chain_head (c : CC) h l :
  free_chain c h l -> capacity_ c <= bottom -> 0 <= h <= bottom.
Proof.
  destruct 1 as [|h e l Hh [Hr _]%at_Some _ _]; intros Hc.
  - pose proof bottom_ge. lia.
  - lia.
Qed.

Lemma count_insert (l : list T) i e v :
  l !! i = Some e ->
  (length (List.filter used_cell (<[i := v]> l)) + (if used_cell e then 1 else 0)
   = length (List.filter used_cell l) + (if used_cell v then 1 else 0))%nat.
Proof.
  intros He.
  rewrite insert_take_drop by (eapply lookup_lt_Some; eassumption).
  rewrite <- (take_drop_middle l i e He) at 3.
  rewrite !List.filter_app, !length_app. simpl.
  destruct (used_cell e), (used_cell v); simpl; lia.
Qed.

Lemma used_cell_moved (e : T) : used_cell (moved_cell e) = used_cell e.
Proof.
  unfold moved_cell. destruct (used_cell e) eqn:E; [assumption|].
  apply used_cell_set_val_FREE.
Qed.

Lemma filter_moved (l : list T) :
  length (List.filter used_cell (moved_cell <$> l))
  = length (List.filter used_cell l).
Proof.
  induction l as [|e l IH]; [reflexivity|].
  cbn [fmap list_fmap List.filter]. rewrite used_cell_moved.
  destruct (used_cell e); simpl; rewrite <- IH; reflexivity.
Qed.

Lemma filter_fresh (c : CC) (l : list Z) :
  List.filter used_cell (fresh_cell c <$> l) = [].
Proof.
  induction l as [|i l IH]; [reflexivity|].
  cbn [fmap list_fmap List.filter]. unfold fresh_cell at 1.
  rewrite used_cell_set_val_FREE. exact IH.
Qed.

Lemma count_used_bound (c : CC) : sized c -> 0 <= count_used c <= capacity_ c.
Proof.
  intros [Hc Hl]. unfold count_used.
  pose proof (filter_length_le used_cell (all_items c)). lia.
Qed.

Lemma grown_fields p (c : CC) :
  capacity_ (grown p c) = capacity_ c + block_size c
  /\ size_ (grown p c) = size_ c
  /\ free_list (grown p c) = capacity_ c
  /\ all_items (grown p c) = grown_items c.
Proof. destruct p; auto. Qed.

Lemma grown_block_size p (c : CC) :
  block_size (grown p c)
  = match p with
    | Multiply_by_two_policy_for_cc_with_size _ => capacity_ c + block_size c
    | Constant_size_policy_for_cc_with_size _ => block_size c
    end.
Proof. destruct p; reflexivity. Qed.

Lemma length_grown_items (c : CC) :
  sized c -> 0 <= block_size c ->
  length (grown_items c) = Z.to_nat (capacity_ c + block_size c).
Proof.
  intros [Hc Hl] Hb. unfold grown_items.
  rewrite length_app, !length_fmap, length_seqZ. lia.
Qed.

Lemma sized_grown p (c : CC) :
  sized c -> 0 <= block_size c -> capacity_ c + block_size c < modulus ->
  sized (grown p c).
Proof.
  intros Hs Hb Hm. unfold sized.
  destruct (grown_fields p c) as (-> & _ & _ & ->).
  split; [destruct Hs; lia|]. apply length_grown_items; assumption.
Qed.

(** The old cells after growth. *)
Lemma at_grown_old p (c : CC) i e :
  sized c -> 0 <= block_size c ->
  at_ c i = Some e -> at_ (grown p c) i = Some (moved_cell e).
Proof.
  intros [Hc Hl] Hb [Hi He]%at_Some. apply at_Some.
  destruct (grown_fields p c) as (-> & _ & _ & ->). split; [lia|].
  unfold grown_items. rewrite lookup_app_l by (rewrite length_fmap; lia).
  rewrite list_lookup_fmap, He. reflexivity.
Qed.

(** The new cells after growth. *)
Lemma at_grown_new p (c : CC) i :
  sized c -> capacity_ c <= i < capacity_ c + block_size c ->
  at_ (grown p c) i = Some (fresh_cell c i).
Proof.
  intros [Hc Hl] Hi. apply at_Some.
  destruct (grown_fields p c) as (-> & _ & _ & ->). split; [lia|].
  unfold grown_items. rewrite lookup_app_r by (rewrite length_fmap; lia).
  rewrite length_fmap, list_lookup_fmap.
  rewrite lookup_seqZ_lt by lia. simpl. f_equal. f_equal. lia.
Qed.

Lemma count_used_grown p (c : CC) : count_used (grown p c) = count_used c.
Proof.
  unfold count_used. destruct (grown_fields p c) as (_ & _ & _ & ->).
  unfold grown_items. rewrite List.filter_app, length_app, filter_moved, filter_fresh.
  simpl. f_equal. lia.
Qed.

(** After growth the free list links the new cells in ascending order. *)
Lemma free_chain_grown p (c : CC) :
  sized c -> free_list c = bottom ->
  capacity_ c + block_size c <= bottom ->
  forall n : nat, Z.of_nat n <= block_size c ->
    free_chain (grown p c)
      (if n is O then bottom else capacity_ c + block_size c - Z.of_nat n)
      (seqZ (capacity_ c + block_size c - Z.of_nat n) (Z.of_nat n)).
Proof.
  intros Hs Hf Hb. induction n as [|n IH]; intros Hn.
  - constructor.
  - rewrite seqZ_cons by lia.
    assert (at_ (grown p c) (capacity_ c + block_size c - Z.of_nat (S n))
            = Some (fresh_cell c (capacity_ c + block_size c - Z.of_nat (S n))))
      as Hat by (apply at_grown_new; [assumption | destruct Hs; lia]).
    econstructor.
    + destruct Hs. lia.
    + exact Hat.
    + apply used_cell_set_val_FREE.
    + unfold fresh_cell. rewrite static_get_val_set_val.
      replace (Z.succ (capacity_ c + block_size c - Z.of_nat (S n)))
        with (capacity_ c + block_size c - Z.of_nat n) by lia.
      replace (Z.pred (Z.of_nat (S n))) with (Z.of_nat n) by lia.
      specialize (IH ltac:(lia)).
      destruct (Z.eqb_spec (capacity_ c + block_size c - Z.of_nat (S n))
                  (capacity_ c + block_size c - 1)) as [Heq|Hne].
      * assert (n = O) as -> by lia.
        rewrite Hf, land_bottom_small by (pose proof bottom_ge; lia). exact IH.
      * destruct n as [|n]; [lia|].
        rewrite land_bottom_small by (destruct Hs; lia).
        replace (capacity_ c + block_size c - Z.of_nat (S (S n)) + 1)
          with (capacity_ c + block_size c - Z.of_nat (S n)) by lia.
        exact IH.
Qed.

Lemma consistent_grown p (c : CC) :
  consistent c -> free_list c = bottom ->
  0 < block_size c -> capacity_ c + block_size c <= bottom ->
  consistent (grown p c).
Proof.
  intros (Hs & Hc & Hb & Hsz & _) Hf Hpos Hle.
  pose proof modulus_bottom as Hm. pose proof Hs as [Hs1 Hs2].
  split; [apply sized_grown; [assumption | lia | lia]|].
  split; [destruct (grown_fields p c) as (-> & _); assumption|].
  split; [rewrite grown_block_size; destruct p; lia|].
  split.
  { rewrite count_used_grown. destruct (grown_fields p c) as (_ & -> & _).
    assumption. }
  exists (seqZ (capacity_ c) (block_size c)). split; [|apply NoDup_seqZ].
  destruct (grown_fields p c) as (_ & _ & -> & _).
  pose proof (free_chain_grown p c Hs Hf Hle (Z.to_nat (block_size c)) ltac:(lia))
    as H.
  destruct (Z.to_nat (block_size c)) eqn:E; [lia|]. rewrite <- E in H.
  replace (capacity_ c + block_size c - Z.of_nat (Z.to_nat (block_size c)))
    with (capacity_ c) in H by lia.
  replace (Z.of_nat (Z.to_nat (block_size c))) with (block_size c) in H by lia.
  exact H.
Qed.

Lemma consistent_take_free_cell (c : CC) t e :
  consistent c -> free_list c <> bottom ->
  at_ c (free_list c) = Some e -> used_cell t = true ->
  consistent (take_free_cell c t e).
Proof.
  intros (Hs & Hc & Hb & Hsz & l & Hch & Hnd) Hne He Ht.
  pose proof modulus_bottom as Hm.
  inversion Hch as [Hbot|h e' l' _ He' Hu Hch' Hh]; [congruence|]. subst h l.
  rewrite He in He'. injection He' as <-.
  apply NoDup_cons in Hnd as [Hnin Hnd].
  pose proof He as [Hr Hl]%at_Some.
  assert (sized (take_free_cell c t e)) as Hs'.
  { destruct Hs as [? Hlen]. split; simpl; [assumption|].
    rewrite length_insert. assumption. }
  split; [assumption|]. split; [assumption|]. split; [assumption|].
  split.
  - pose proof (count_insert (all_items c) _ e t Hl) as Hcnt.
    rewrite Hu, Ht in Hcnt.
    pose proof (count_used_bound _ Hs') as Hbd.
    unfold count_used in *. simpl in *.
    rewrite Hsz. rewrite wrap_small; lia.
  - exists l'. split; [|assumption]. simpl.
    apply (free_chain_frame c); [assumption|].
    intros j Hj. apply (at_update_ne c _ (free_list c) t); simpl; auto; [lia|].
    intros ->. contradiction.
Qed.

Lemma consistent_erase (c c' : CC) x d :
  consistent c -> erase c x = Some (c', d) -> consistent c'.
Proof.
  intros (Hs & Hc & Hb & Hsz & l & Hch & Hnd) H.
  pose proof modulus_bottom as Hm.
  destruct (erase_Some_inv c x c' d H) as (e & He & Ht).
  rewrite (erase_eq c x e He Ht) in H. injection H as <- <-.
  pose proof He as [Hr Hl]%at_Some.
  apply used_cell_USED in Ht.
  match goal with |- consistent ?c0 => set (c' := c0) end.
  assert (sized c') as Hs'.
  { destruct Hs as [? Hlen]. split; simpl; [assumption|].
    rewrite length_insert. assumption. }
  split; [assumption|]. split; [assumption|]. split; [assumption|].
  split.
  - pose proof (count_insert (all_items c) _ e
                  (static_set_val zeroed (free_list c) FREE) Hl) as Hcnt.
    rewrite Ht, used_cell_set_val_FREE in Hcnt.
    pose proof (count_used_bound _ Hs) as Hbd.
    unfold count_used in *. simpl in *.
    rewrite Hsz. rewrite wrap_small; lia.
  - assert (m_idx x ∉ l) as Hnin.
    { intros Hin. destruct (free_chain_free c _ l _ Hch Hin) as (e' & He' & Hu').
      congruence. }
    exists (m_idx x :: l). split; [|apply NoDup_cons; auto]. simpl.
    econstructor.
    + lia.
    + apply (at_update_eq c c' (m_idx x) _ e); auto.
    + apply used_cell_set_val_FREE.
    + rewrite static_get_val_set_val.
      rewrite land_bottom_small by (eapply free_chain_head; eassumption).
      apply (free_chain_frame c); [assumption|].
      intros j Hj. apply (at_update_ne c c' (m_idx x) (static_set_val zeroed (free_list c) FREE));
        auto; [lia|].
      intros ->. contradiction.
Qed.

Lemma consistent_init p : consistent (init p).
Proof.
  pose proof modulus_bottom as Hm. pose proof bottom_ge.
  split; [split; simpl; [lia | reflexivity]|].
  split; [simpl; lia|].
  split; [simpl; apply wrap_range|].
  split; [reflexivity|].
  exists []. split; [constructor | constructor].
Qed.

(** [insert] keeps the invariant as long as the capacity does not pass
    [bottom] and the value inserted has the flag of a used cell. *)
Lemma consistent_insert p (c c' : CC) t r d :
  consistent c -> insert p c t = Some (r, c', d) ->
  used_cell t = true -> capacity_ c' <= bottom ->
  consistent c'.
Proof.
  intros Hc H Ht Hcap.
  destruct (insert_Some_inv p c t r c' d H)
    as (c1 & e & [(Hne & -> & ->)|(Hb & Ha)] & He & -> & ->).
  - apply consistent_take_free_cell; assumption.
  - pose proof Hc as (Hs & _ & Hbs & _).
    destruct (allocate_new_block_Some p c c1 d Hs Hbs Ha) as (Hpos & Hm & -> & _).
    simpl in Hcap. destruct (grown_fields p c) as (Hg1 & _ & Hg3 & _).
    rewrite Hg1 in Hcap.
    apply consistent_take_free_cell; try assumption.
    + apply consistent_grown; assumption.
    + rewrite Hg3. destruct Hs. lia.
Qed.

End Invariant.

(** ** Reachable states *)

Section Reachable.
Context {IT : IndexType} {T : Type} {Tr : Traits T} {St : Storage T}.

Abbreviation CC := (Compact_container_with_index_2 T).

Lemma is_used_fmap (c : CC) j : is_used c j = used_cell <$> at_ c j.
Proof. unfold is_used, type. destruct (at_ c j); reflexivity. Qed.

Lemma clear_Some_inv p (c c' : CC) d : clear p c = Some (c', d) -> c' = init p.
Proof.
  unfold clear. destruct (destroy_items _ _ _); simpl; [|discriminate].
  intros [= <- _]. reflexivity.
Qed.

Lemma sized_take_free_cell (c : CC) t e : sized c -> sized (take_free_cell c t e).
Proof.
  intros [? Hlen]. split; simpl; [assumption|]. rewrite length_insert. assumption.
Qed.

Lemma sized_same_shape (c c' : CC) :
  capacity_ c' = capacity_ c -> length (all_items c') = length (all_items c) ->
  sized c -> sized c'.
Proof. intros Hc Hl [? ?]. split; [rewrite Hc | rewrite Hc, Hl]; assumption. Qed.

(** Every reachable state has an array of [capacity_] cells and a block
    size that is a value of [size_type]. *)
Lemma reachable_sized p (c : CC) :
  reachable p c -> sized c /\ 0 <= block_size c < modulus.
Proof.
  induction 1 as [|c t r c' d _ [Hs Hb] H|c x c' d _ [Hs Hb] H|c c' d _ _ H].
  - destruct (consistent_init p) as (? & _ & ? & _). auto.
  - destruct (insert_Some_inv p c t r c' d H)
      as (c1 & e & [(Hne & -> & ->)|(Hbot & Ha)] & He & -> & ->).
    + split; [apply sized_take_free_cell; assumption | assumption].
    + destruct (allocate_new_block_Some p c c1 d Hs Hb Ha) as (Hpos & Hm & -> & _).
      split; [apply sized_take_free_cell, sized_grown; (assumption || lia)|].
      simpl. rewrite grown_block_size. destruct Hs. destruct p; lia.
  - destruct (erase_Some_inv c x c' d H) as (e & He & Ht).
    rewrite (erase_eq c x e He Ht) in H. injection H as <- <-.
    split; [|assumption]. apply (sized_same_shape c); [reflexivity | | assumption].
    simpl. apply length_insert.
  - apply clear_Some_inv in H as ->.
    destruct (consistent_init p) as (? & _ & ? & _). auto.
Qed.

Lemma reachable_in_range_reachable p (c : CC) :
  reachable_in_range p c -> reachable p c.
Proof.
  induction 1; [constructor | eapply reachable_insert | eapply reachable_erase];
    eassumption.
Qed.

Lemma reachable_in_range_consistent p (c : CC) :
  reachable_in_range p c -> consistent c.
Proof.
  induction 1 as [|c t r c' d _ IH Ht H Hc|c x c' d _ IH H].
  - apply consistent_init.
  - eapply consistent_insert; try eassumption. apply used_cell_USED. assumption.
  - eapply consistent_erase; eassumption.
Qed.

(** The cell that [insert] returns holds the value inserted; the other
    cells keep their flag. *)
Lemma insert_cell p (c c' : CC) t r d :
  insert p c t = Some (r, c', d) -> at_ c' (m_idx r) = Some t.
Proof.
  intros H.
  destruct (insert_Some_inv p c t r c' d H) as (c1 & e & _ & He & -> & ->).
  simpl. apply (at_update_eq c1 _ (free_list c1) t e); auto.
Qed.

Lemma insert_other_cells p (c c' : CC) t r d j b :
  sized c -> 0 <= block_size c < modulus ->
  insert p c t = Some (r, c', d) -> j <> m_idx r ->
  is_used c j = Some b -> is_used c' j = Some b.
Proof.
  intros Hs Hb H Hj Hu.
  destruct (insert_Some_inv p c t r c' d H)
    as (c1 & e & Hcase & He & -> & ->).
  simpl in Hj. pose proof He as [Hr _]%at_Some.
  assert (at_ (take_free_cell c1 t e) j = at_ c1 j) as Hat.
  { apply (at_update_ne c1 _ (free_list c1) t); auto. lia. }
  rewrite is_used_fmap, Hat, <- is_used_fmap.
  destruct Hcase as [(Hne & -> & ->)|(Hbot & Ha)]; [assumption|].
  destruct (allocate_new_block_Some p c c1 d Hs Hb Ha) as (Hpos & Hm & -> & _).
  apply is_used_Some in Hu as (e0 & He0 & <-).
  rewrite (is_used_at _ _ _ (at_grown_old p c j e0 Hs ltac:(lia) He0)).
  rewrite used_cell_moved. reflexivity.
Qed.

Lemma erase_cell (c c' : CC) x d :
  erase c x = Some (c', d) ->
  capacity_ c' = capacity_ c /\ free_list c' = m_idx x
  /\ at_ c' (m_idx x) = Some (static_set_val zeroed (free_list c) FREE)
  /\ forall j, j <> m_idx x -> at_ c' j = at_ c j.
Proof.
  intros H. destruct (erase_Some_inv c x c' d H) as (e & He & Ht).
  rewrite (erase_eq c x e He Ht) in H. injection H as <- <-.
  pose proof He as [Hr _]%at_Some.
  split; [reflexivity|]. split; [reflexivity|]. split.
  - apply (at_update_eq c _ (m_idx x) _ e); auto.
  - intros j Hj.
    apply (at_update_ne c _ (m_idx x) (static_set_val zeroed (free_list c) FREE));
      auto. lia.
Qed.

(** A container with a used cell has at least one used cell counted. *)
Lemma count_used_pos (c : CC) j e :
  at_ c j = Some e -> used_cell e = true -> 0 < count_used c.
Proof.
  intros [Hj He]%at_Some Hu.
  pose proof (count_insert (all_items c) _ e (static_set_val zeroed 0 FREE) He) as Hn.
  rewrite Hu, used_cell_set_val_FREE in Hn. unfold count_used. lia.
Qed.

End Reachable.

(** ** Erasing, reusing a slot, the null index, liveness *)

Section Slots.
Context {IT : IndexType} {T : Type} {Tr : Traits T} {St : Storage T}.

Abbreviation CC := (Compact_container_with_index_2 T).
Abbreviation Index := Index_for_cc_with_index.

(** C9, amended.  [erase(x)] asserts that [x] is a used slot.  On a used
    slot it returns: it destroys the object stored there, writes the head
    of the free list into the slot with the flag [FREE], makes the slot
    the new head, and decrements [size_] in [size_type]; no other cell
    changes.  The link that is read back from the slot is the old head
    when the old head is at most [bottom], and the size is less by exactly
    one when it was not 0.  On any other index the assertion fails.  In
    every state reached by [insert] and [erase] with values that have the
    flag [USED] and a capacity of at most [bottom], the old head is at most
    [bottom] and the size of a container with a used slot is not 0: there
    [erase] links the slot to the old head and the size is less by exactly
    one. *)
Theorem erase_used_slot (c : CC) (x : Index) :
  (is_used c (m_idx x) = Some true ->
   exists e c',
     at_ c (m_idx x) = Some e
     /\ erase c x = Some (c', [e])
     /\ free_list c' = m_idx x
     /\ at_ c' (m_idx x) = Some (static_set_val zeroed (free_list c) FREE)
     /\ type c' (m_idx x) = Some FREE
     /\ (0 <= free_list c <= bottom -> get_val c' (m_idx x) = Some (free_list c))
     /\ size_ c' = wrap (size_ c - 1)
     /\ (0 < size_ c < modulus -> size_ c' = size_ c - 1)
     /\ capacity_ c' = capacity_ c
     /\ forall j, j <> m_idx x -> at_ c' j = at_ c j)
  /\ (is_used c (m_idx x) <> Some true -> erase c x = None)
  /\ (forall p, reachable_in_range p c -> is_used c (m_idx x) = Some true ->
        exists e c',
          erase c x = Some (c', [e])
          /\ free_list c' = m_idx x
          /\ get_val c' (m_idx x) = Some (free_list c)
          /\ size_ c' = size_ c - 1).
Proof.
  assert (is_used c (m_idx x) = Some true ->
          exists e c',
            at_ c (m_idx x) = Some e
            /\ erase c x = Some (c', [e])
            /\ free_list c' = m_idx x
            /\ at_ c' (m_idx x) = Some (static_set_val zeroed (free_list c) FREE)
            /\ type c' (m_idx x) = Some FREE
            /\ (0 <= free_list c <= bottom -> get_val c' (m_idx x) = Some (free_list c))
            /\ size_ c' = wrap (size_ c - 1)
            /\ (0 < size_ c < modulus -> size_ c' = size_ c - 1)
            /\ capacity_ c' = capacity_ c
            /\ forall j, j <> m_idx x -> at_ c' j = at_ c j) as Hused.
  { intros (e & He & Hu)%is_used_Some. apply used_cell_USED in Hu.
    pose proof (erase_eq c x e He Hu) as H.
    destruct (erase_cell c _ x _ H) as (Hc & Hf & Hat & Hother).
    eexists e, _. split; [assumption|]. split; [exact H|].
    split; [assumption|]. split; [assumption|].
    split; [rewrite (type_at _ _ _ Hat), static_type_set_val_FREE; reflexivity|].
    split.
    { intros Hr. rewrite (get_val_at _ _ _ Hat), static_get_val_set_val.
      rewrite land_bottom_small by assumption. reflexivity. }
    split; [reflexivity|]. split; [|auto].
    intros Hs. simpl. apply wrap_small. lia. }
  split; [exact Hused|]. split; [apply erase_None|].
  intros p (Hs & Hcap & _ & Hsz & l & Hch & _)%reachable_in_range_consistent Hu.
  destruct (Hused Hu) as (e & c' & He & H & Hf & _ & _ & Hlink & _ & Hsize & _).
  exists e, c'. split; [exact H|]. split; [exact Hf|]. split.
  - apply Hlink. eapply free_chain_head; eassumption.
  - apply Hsize. apply is_used_Some in Hu as (e' & He' & Hu').
    pose proof (count_used_pos c _ e' He' Hu').
    pose proof (count_used_bound c Hs). destruct Hs. lia.
Qed.

(** C2, amended.  After [erase(x)] of a used slot other than [bottom], the
    next [insert] returns [x]; it does not grow the container. *)
Theorem erase_then_insert_reuses p (c c' : CC) x d t :
  erase c x = Some (c', d) -> m_idx x <> bottom ->
  exists c'',
    insert p c' t = Some (x, c'', []) /\ capacity_ c'' = capacity_ c'.
Proof.
  intros H Hx. destruct (erase_cell c c' x d H) as (Hc & Hf & Hat & _).
  rewrite <- Hf in Hat, Hx.
  rewrite (insert_no_growth p c' t _ Hx Hat). rewrite Hf.
  destruct x as [i]. simpl. eexists. split; reflexivity.
Qed.

(** C6, amended.  The default index is [bottom] and is not valid; an
    [insert] or [emplace] that leaves the capacity at [bottom] or below
    returns a valid index, different from the default one. *)
Theorem insert_returns_valid_index :
  (m_idx Index_default = bottom /\ is_valid Index_default = false)
  /\ (forall p (c c' : CC) t r d,
        insert p c t = Some (r, c', d) -> capacity_ c' <= bottom ->
        r <> Index_default /\ is_valid r = true)
  /\ (forall (Args : Type) (value_type : Args -> T) p (c c' : CC) args r d,
        emplace value_type p c args = Some (r, c', d) -> capacity_ c' <= bottom ->
        r <> Index_default /\ is_valid r = true).
Proof.
  assert (forall p (c c' : CC) t r d,
             insert p c t = Some (r, c', d) -> capacity_ c' <= bottom ->
             r <> Index_default /\ is_valid r = true) as Hins.
  { intros p c c' t r d H Hc.
    pose proof (insert_cell p c c' t r d H) as [Hr _]%at_Some.
    unfold is_valid, Index_default. fold bottom. split.
    - intros ->. simpl in Hr. lia.
    - destruct (Z.eqb_spec (m_idx r) bottom); [lia | reflexivity]. }
  split; [|split].
  - split; [reflexivity|]. unfold is_valid, Index_default. simpl.
    rewrite Z.eqb_refl. reflexivity.
  - exact Hins.
  - intros Args value_type p c c' args r d. rewrite emplace_insert. apply Hins.
Qed.

(** C10, amended.  In a reachable state: the index that [insert] or
    [emplace] returns is used when the value stored has the flag [USED] in
    its tag word; an erased index is not used; [insert], [erase] and
    [allocate_new_block] leave [is_used] of every other existing cell as it
    was. *)
Theorem is_used_tracks_liveness p (c : CC) :
  reachable p c ->
  (forall t r c' d,
      insert p c t = Some (r, c', d) -> static_type t = USED ->
      is_used c' (m_idx r) = Some true)
  /\ (forall (Args : Type) (value_type : Args -> T) args r c' d,
        emplace value_type p c args = Some (r, c', d) ->
        static_type (value_type args) = USED ->
        is_used c' (m_idx r) = Some true)
  /\ (forall x c' d, erase c x = Some (c', d) -> is_used c' (m_idx x) = Some false)
  /\ (forall t r c' d j b,
        insert p c t = Some (r, c', d) -> j <> m_idx r ->
        is_used c j = Some b -> is_used c' j = Some b)
  /\ (forall x c' d j,
        erase c x = Some (c', d) -> j <> m_idx x -> is_used c' j = is_used c j)
  /\ (forall c' d j b,
        allocate_new_block p c = Some (c', d) ->
        is_used c j = Some b -> is_used c' j = Some b).
Proof.
  intros [Hs Hb]%reachable_sized.
  assert (forall t r c' d,
             insert p c t = Some (r, c', d) -> static_type t = USED ->
             is_used c' (m_idx r) = Some true) as Hins.
  { intros t r c' d H Ht. rewrite (is_used_at _ _ _ (insert_cell p c c' t r d H)).
    f_equal. apply used_cell_USED. assumption. }
  repeat split.
  - exact Hins.
  - intros Args value_type args r c' d. rewrite emplace_insert. apply Hins.
  - intros x c' d H. destruct (erase_cell c c' x d H) as (_ & _ & Hat & _).
    rewrite (is_used_at _ _ _ Hat), used_cell_set_val_FREE. reflexivity.
  - intros t r c' d j b. apply insert_other_cells; assumption.
  - intros x c' d j H Hj. destruct (erase_cell c c' x d H) as (_ & _ & _ & Hother).
    rewrite !is_used_fmap, Hother by assumption. reflexivity.
  - intros c' d j b H (e & He & <-)%is_used_Some.
    destruct (allocate_new_block_Some p c c' d Hs Hb H) as (Hpos & Hm & -> & _).
    rewrite (is_used_at _ _ _ (at_grown_old p c j e Hs ltac:(lia) He)).
    rewrite used_cell_moved. reflexivity.
Qed.

(** C3, amended.  In every state reached from a fresh container by
    [insert] and [erase], as long as every value inserted has the flag
    [USED] in its tag word and the capacity stays at [bottom] or below:
    forward iteration visits exactly the used cells, in ascending order,
    and [size()] is their number. *)
Theorem size_counts_iteration p (c : CC) (this : nat) :
  reachable_in_range p c ->
  forward_iteration this c = Some (used_cells c)
  /\ size c = Z.of_nat (length (used_cells c))
  /\ size c = count_used c.
Proof.
  intros (Hs & Hc & Hb & Hsz & _)%reachable_in_range_consistent.
  assert (size_ c = Z.of_nat (length (used_cells c))) as Hlen.
  { rewrite Hsz. unfold count_used, used_cells. rewrite length_used_from. reflexivity. }
  split; [|split; assumption].
  apply forward_iteration_spec; [assumption | |].
  - intros H0. rewrite H0 in Hlen. destruct (used_cells c); [reflexivity|].
    simpl in Hlen. lia.
  - intros Hne. pose proof (count_used_bound c Hs). lia.
Qed.

End Slots.

(** ** Growth, [clear] and [owns] *)

Section Growth_clear_owns.
Context {IT : IndexType} {T : Type} {Tr : Traits T} {St : Storage T}.

Abbreviation CC := (Compact_container_with_index_2 T).

(** C4. [allocate_new_block] returns when the block has at least one cell
    and the new capacity is a value of [size_type].  Then every used cell is
    still used and holds the same value at the same index, every free cell
    is still free and keeps its link, and the cells from the old capacity
    to the new one are free; they are linked in ascending order, the last
    one to the old head of the free list.  [insert] calls it only when the
    free list is empty. *)
Theorem growth_keeps_slots p (c : CC) :
  sized c -> 0 < block_size c -> capacity_ c + block_size c < modulus ->
  exists c' d,
    allocate_new_block p c = Some (c', d)
    /\ capacity_ c' = capacity_ c + block_size c
    /\ size_ c' = size_ c
    /\ free_list c' = capacity_ c
    /\ (forall i e, at_ c i = Some e -> used_cell e = true ->
          at_ c' i = Some e /\ is_used c' i = Some true)
    /\ (forall i e, at_ c i = Some e -> used_cell e = false ->
          is_used c' i = Some false /\ get_val c' i = get_val c i)
    /\ (forall i, capacity_ c <= i < capacity_ c + block_size c ->
          is_used c' i = Some false
          /\ get_val c' i
             = Some (Z.land (if i =? capacity_ c + block_size c - 1
                             then free_list c else i + 1) bottom))
    /\ (forall t r c1 d1,
          free_list c <> bottom -> insert p c t = Some (r, c1, d1) ->
          capacity_ c1 = capacity_ c /\ all_items c1 = <[Z.to_nat (m_idx r) := t]> (all_items c)).
Proof.
  intros Hs Hb Hm. exists (grown p c), (List.filter used_cell (all_items c)).
  split; [apply allocate_new_block_eq; assumption|].
  destruct (grown_fields p c) as (Hg1 & Hg2 & Hg3 & _).
  split; [assumption|]. split; [assumption|]. split; [assumption|].
  split; [|split; [|split]].
  - intros i e He Hu.
    pose proof (at_grown_old p c i e Hs ltac:(lia) He) as Hat.
    unfold moved_cell in Hat. rewrite Hu in Hat.
    split; [assumption|]. rewrite (is_used_at _ _ _ Hat), Hu. reflexivity.
  - intros i e He Hu.
    pose proof (at_grown_old p c i e Hs ltac:(lia) He) as Hat.
    unfold moved_cell in Hat. rewrite Hu in Hat.
    rewrite (is_used_at _ _ _ Hat), used_cell_set_val_FREE.
    split; [reflexivity|].
    rewrite (get_val_at _ _ _ Hat), (get_val_at _ _ _ He), static_get_val_set_val.
    rewrite land_bottom_small by apply static_get_val_range. reflexivity.
  - intros i Hi. pose proof (at_grown_new p c i Hs Hi) as Hat.
    rewrite (is_used_at _ _ _ Hat), (get_val_at _ _ _ Hat).
    unfold fresh_cell. rewrite used_cell_set_val_FREE, static_get_val_set_val.
    split; reflexivity.
  - intros t r c1 d1 Hne H.
    destruct (insert_Some_inv p c t r c1 d1 H)
      as (c0 & e & [(_ & -> & ->)|(Hbot & _)] & He & -> & ->); [|contradiction].
    split; reflexivity.
Qed.

Lemma destroy_items_spec (c : CC) (l2 : list T) : forall l1,
  sized c -> all_items c = l1 ++ l2 ->
  destroy_items c (length l2) (Z.of_nat (length l1))
  = Some (List.filter used_cell l2).
Proof.
  induction l2 as [|e l2 IH]; intros l1 Hs Hl; [reflexivity|].
  pose proof Hs as [Hc Hlen]. rewrite Hl, length_app in Hlen. simpl in Hlen.
  assert (at_ c (Z.of_nat (length l1)) = Some e) as Hat.
  { apply at_Some. split; [lia|]. rewrite Hl, Nat2Z.id.
    apply list_lookup_middle. reflexivity. }
  specialize (IH (l1 ++ [e]) Hs). rewrite <- app_assoc in IH. specialize (IH Hl).
  rewrite length_app in IH. simpl in IH.
  cbn [destroy_items length]. rewrite (is_used_at c _ e Hat).
  cbn [mbind option_bind]. rewrite wrap_small by lia.
  replace (Z.of_nat (length l1) + 1) with (Z.of_nat (length l1 + 1)) by lia.
  rewrite IH. cbn [List.filter].
  destruct (used_cell e); [rewrite Hat|]; reflexivity.
Qed.

Lemma snd_used_from (l : list T) : forall i,
  (used_from i l).*2 = List.filter used_cell l.
Proof.
  induction l as [|e l IH]; intros i; simpl; [reflexivity|].
  destruct (used_cell e); simpl; rewrite IH; reflexivity.
Qed.


(** C7, amended.  [owns(cit)] is true exactly when [cit] is an iterator
    of this container that is [end()] or refers to a used cell. *)
Theorem owns_iff (h : heap) (this : nat) (c : CC) (cit : CC_iterator_with_index) :
  h this = Some c ->
  owns h this cit = Some true
  <-> m_ptr_to_cc cit = Some this
      /\ (m_index cit = capacity_ c \/ is_used c (m_index cit) = Some true).
Proof.
  intros Hh. unfold owns. rewrite Hh. cbn [mbind option_bind].
  unfold iterator_eqb, end_. cbn [m_ptr_to_cc m_index].
  destruct cit as [[owner|] idx]; cbn [m_ptr_to_cc m_index cc_pointer_eqb].
  - destruct (Nat.eqb_spec owner this) as [->|Hne].
    + destruct (Z.eqb_spec idx (capacity_ c)) as [->|Hidx]; cbn [andb].
      * split; auto.
      * cbn [mbind option_bind]. rewrite Hh. cbn [mbind option_bind].
        unfold deref. cbn [m_index].
        destruct (at_ c idx) as [e|] eqn:He; cbn [mbind option_bind].
        -- pose proof He as [Hr _]%at_Some.
           destruct (Z.leb_spec 0 idx); [|lia].
           destruct (Z.ltb_spec idx (capacity_ c)); [|lia].
           rewrite Nat.eqb_refl. cbn [andb].
           split; [auto | intros [_ [?|?]]; [contradiction | assumption]].
        -- split; [discriminate|].
           intros [_ [?|Hu]]; [contradiction|].
           rewrite is_used_fmap, He in Hu. discriminate.
    + cbn [andb mbind option_bind]. split.
      * destruct (h owner) as [cc|]; cbn [mbind option_bind]; [|discriminate].
        destruct (deref cc _); cbn [mbind option_bind]; [|discriminate].
        destruct (Nat.eqb_spec owner this); [contradiction|]. discriminate.
      * intros [[= ?] _]. contradiction.
  - split; [discriminate | intros [[=] _]].
Qed.

End Growth_clear_owns.

(** ** Filling a container *)

Section Filling.
Context {IT : IndexType} {T : Type} {Tr : Traits T} {St : Storage T}.

Abbreviation CC := (Compact_container_with_index_2 T).

Lemma filled_length (c : CC) ts : filled c ts -> Z.of_nat (length ts) <= capacity_ c.
Proof.
  intros ([Hc Hlen] & _ & _ & (frees & Hl & _) & _).
  rewrite Hl, length_app in Hlen. lia.
Qed.

Lemma filled_init p : filled (init p) [].
Proof.
  pose proof bottom_ge. pose proof modulus_bottom.
  split; [split; simpl; [lia | reflexivity]|].
  split; [simpl; lia|]. split; [reflexivity|].
  split; [exists []; split; [reflexivity | constructor]|].
  split; [constructor|]. simpl. constructor.
Qed.

Lemma free_chain_cons_inv (c : CC) h x l :
  free_chain c h (x :: l) ->
  h = x /\ x <> bottom
  /\ exists e, at_ c x = Some e /\ used_cell e = false
               /\ free_chain c (static_get_val e) l.
Proof. inversion 1; subst. eauto 10. Qed.

Lemma free_chain_nil_inv (c : CC) h : free_chain c h [] -> h = bottom.
Proof. inversion 1. reflexivity. Qed.

(** The next free cell of a filled container that is not full. *)
Lemma filled_take (c : CC) ts t :
  filled c ts -> Z.of_nat (length ts) < capacity_ c -> used_cell t = true ->
  exists e,
    free_list c = Z.of_nat (length ts) /\ free_list c <> bottom
    /\ at_ c (free_list c) = Some e
    /\ filled (take_free_cell c t e) (ts ++ [t]).
Proof.
  intros (Hs & Hc & Hsz & (frees & Hl & Hfr) & Hus & Hch) Hlt Ht.
  pose proof modulus_bottom as Hm.
  rewrite seqZ_cons in Hch by lia.
  apply free_chain_cons_inv in Hch as (Hhd & Hh & e & He & Hu & Hch').
  exists e.
  split; [assumption|]. split; [rewrite Hhd; assumption|].
  split; [rewrite Hhd; assumption|].
  pose proof Hs as [Hs1 Hlen]. rewrite Hl, length_app in Hlen.
  destruct frees as [|e' frees]; [simpl in Hlen; lia|].
  split; [apply sized_take_free_cell; assumption|].
  split; [assumption|].
  split; [simpl; rewrite length_app, Hsz; simpl; rewrite wrap_small; lia|].
  split.
  { exists frees. split; [|inversion Hfr; assumption].
    simpl. rewrite Hl, Hhd, Nat2Z.id.
    replace (length ts) with (length ts + 0)%nat at 1 by lia.
    rewrite insert_app_r. simpl. rewrite <- app_assoc. reflexivity. }
  split; [apply Forall_app; split; [assumption | repeat constructor; assumption]|].
  simpl. rewrite length_app. simpl.
  replace (Z.of_nat (length ts + 1)) with (Z.succ (Z.of_nat (length ts))) by lia.
  replace (capacity_ c - Z.succ (Z.of_nat (length ts)))
    with (Z.pred (capacity_ c - Z.of_nat (length ts))) by lia.
  apply (free_chain_frame c); [assumption|].
  intros j Hj%elem_of_seqZ.
  apply (at_update_ne c _ (free_list c) t); simpl; auto; lia.
Qed.

Lemma filter_all_used (l : list T) :
  Forall (fun e => used_cell e = true) l -> List.filter used_cell l = l.
Proof.
  induction 1 as [|e l He _ IH]; [reflexivity|]. simpl. rewrite He, IH. reflexivity.
Qed.

Lemma moved_all_used (l : list T) :
  Forall (fun e => used_cell e = true) l -> moved_cell <$> l = l.
Proof.
  induction 1 as [|e l He _ IH]; [reflexivity|].
  cbn [fmap list_fmap]. fold (fmap moved_cell l). rewrite IH.
  unfold moved_cell. rewrite He. reflexivity.
Qed.

(** Growth of a full filled container. *)
Lemma filled_grown p (c : CC) ts :
  filled c ts -> Z.of_nat (length ts) = capacity_ c ->
  0 < block_size c -> capacity_ c + block_size c <= bottom ->
  free_list c = bottom
  /\ allocate_new_block p c = Some (grown p c, ts)
  /\ filled (grown p c) ts.
Proof.
  intros (Hs & Hc & Hsz & (frees & Hl & Hfr) & Hus & Hch) Heq Hb Hle.
  pose proof modulus_bottom as Hm.
  replace (capacity_ c - Z.of_nat (length ts)) with 0 in Hch by lia.
  apply free_chain_nil_inv in Hch as Hbot.
  pose proof Hs as [Hs1 Hlen]. rewrite Hl, length_app in Hlen.
  destruct frees as [|? ?]; [|simpl in Hlen; lia]. rewrite app_nil_r in Hl.
  split; [assumption|]. split.
  { rewrite allocate_new_block_eq by (assumption || lia).
    rewrite Hl, filter_all_used by assumption. reflexivity. }
  destruct (grown_fields p c) as (Hg1 & Hg2 & Hg3 & Hg4).
  split; [apply sized_grown; (assumption || lia)|].
  split; [rewrite Hg1; assumption|].
  split; [rewrite Hg2; assumption|].
  split.
  { rewrite Hg4. unfold grown_items. rewrite Hl, moved_all_used by assumption.
    eexists. split; [reflexivity|].
    apply Forall_fmap, Forall_forall. intros i _. apply used_cell_set_val_FREE. }
  split; [assumption|].
  rewrite Hg1, Hg3, Heq.
  pose proof (free_chain_grown p c Hs Hbot Hle (Z.to_nat (block_size c)) ltac:(lia))
    as H.
  destruct (Z.to_nat (block_size c)) eqn:E; [lia|]. rewrite <- E in H.
  replace (capacity_ c + block_size c - Z.of_nat (Z.to_nat (block_size c)))
    with (capacity_ c) in H by lia.
  replace (Z.of_nat (Z.to_nat (block_size c))) with (block_size c) in H by lia.
  replace (capacity_ c + block_size c - capacity_ c) with (block_size c) by lia.
  exact H.
Qed.

(** One more [insert] into a filled container. *)
Lemma filled_step p (c : CC) ts t :
  filled c ts -> used_cell t = true -> 0 < block_size c ->
  (Z.of_nat (length ts) = capacity_ c -> capacity_ c + block_size c <= bottom) ->
  exists c' d,
    insert p c t = Some ({| m_idx := Z.of_nat (length ts) |}, c', d)
    /\ filled c' (ts ++ [t])
    /\ (capacity_ c', block_size c')
       = (if Z.of_nat (length ts) <? capacity_ c then (capacity_ c, block_size c)
          else (capacity_ c + block_size c,
                match p with
                | Multiply_by_two_policy_for_cc_with_size _ =>
                    capacity_ c + block_size c
                | Constant_size_policy_for_cc_with_size _ => block_size c
                end)).
Proof.
  intros Hf Ht Hb Hle. pose proof (filled_length c ts Hf) as Hlen.
  destruct (Z.ltb_spec (Z.of_nat (length ts)) (capacity_ c)) as [Hlt|Hge].
  - destruct (filled_take c ts t Hf Hlt Ht) as (e & Hfl & Hne & He & Hf').
    exists (take_free_cell c t e), []. rewrite <- Hfl.
    split; [apply insert_no_growth; assumption|]. split; [assumption | reflexivity].
  - assert (Z.of_nat (length ts) = capacity_ c) as Heq by lia.
    destruct (filled_grown p c ts Hf Heq Hb (Hle Heq)) as (Hbot & Ha & Hg).
    destruct (grown_fields p c) as (Hg1 & Hg2 & Hg3 & Hg4).
    destruct (filled_take (grown p c) ts t Hg ltac:(lia) Ht)
      as (e & Hfl & Hne & He & Hf').
    exists (take_free_cell (grown p c) t e), ts. rewrite <- Hfl.
    split; [apply (insert_growth p c (grown p c)); assumption|].
    split; [assumption|]. simpl. rewrite Hg1, grown_block_size. reflexivity.
Qed.

Lemma growth_after_pos p (n : nat) :
  0 < wrap (first_block_size p) ->
  0 <= fst (growth_after p n) /\ 0 < snd (growth_after p n).
Proof.
  intros Hk. induction n as [|n [IH1 IH2]]; simpl; [lia|].
  destruct (growth_after p n) as [cap bs]. simpl in *.
  destruct (Z.of_nat n <? cap); simpl; [lia|]. destruct p; lia.
Qed.

Lemma growth_after_mono p (n m : nat) :
  0 < wrap (first_block_size p) -> (n <= m)%nat ->
  fst (growth_after p n) <= fst (growth_after p m).
Proof.
  intros Hk. induction 1 as [|m _ IH]; [lia|].
  destruct (growth_after_pos p m Hk) as [H1 H2].
  simpl. destruct (growth_after p m) as [cap bs]. simpl in *.
  destruct (Z.of_nat m <? cap); simpl; lia.
Qed.

Lemma insert_range_filled p (ts : list T) : forall (c : CC) ts0,
  filled c ts0 ->
  (capacity_ c, block_size c) = growth_after p (length ts0) ->
  0 < wrap (first_block_size p) ->
  Forall (fun t => used_cell t = true) ts ->
  fst (growth_after p (length ts0 + length ts)) <= bottom ->
  exists c' d,
    insert_range p c ts
    = Some ((fun i => {| m_idx := i |}) <$> seqZ (Z.of_nat (length ts0)) (Z.of_nat (length ts)),
            c', d)
    /\ filled c' (ts0 ++ ts)
    /\ (capacity_ c', block_size c') = growth_after p (length ts0 + length ts).
Proof.
  induction ts as [|t ts IH]; intros c ts0 Hf Hg Hk Hus Hle.
  - exists c, []. simpl. rewrite app_nil_r, Nat.add_0_r. auto.
  - inversion Hus as [|? ? Ht Hus']. subst.
    pose proof (growth_after_pos p (length ts0) Hk) as [Hp1 Hp2].
    rewrite <- Hg in Hp1, Hp2. simpl in Hp1, Hp2.
    pose proof (growth_after_mono p (S (length ts0)) (length ts0 + length (t :: ts)) Hk
                  ltac:(simpl; lia)) as Hmono.
    cbn [growth_after] in Hmono. rewrite <- Hg in Hmono.
    destruct (filled_step p c ts0 t Hf Ht Hp2) as (c1 & d1 & Hi & Hf1 & Hg1).
    { intros Heq.
      assert ((Z.of_nat (length ts0) <? capacity_ c) = false) as E
        by (apply Z.ltb_ge; lia).
      simpl in Hmono, Hle. rewrite E in Hmono. simpl in Hmono. lia. }
    assert ((capacity_ c1, block_size c1) = growth_after p (length (ts0 ++ [t]))) as Hg1'.
    { rewrite length_app. simpl. rewrite Nat.add_1_r. cbn [growth_after].
      rewrite <- Hg. exact Hg1. }
    destruct (IH c1 (ts0 ++ [t]) Hf1 Hg1' Hk Hus') as (c' & d & Hr & Hf' & Hg').
    { rewrite length_app. simpl. simpl in Hle.
      replace (length ts0 + 1 + length ts)%nat with (length ts0 + S (length ts))%nat by lia.
      exact Hle. }
    exists c', (d1 ++ d). cbn [insert_range]. rewrite Hi. cbn [mbind option_bind].
    rewrite Hr. cbn [mbind option_bind].
    rewrite <- app_assoc in Hf'. simpl in Hf'.
    rewrite length_app in Hg'. simpl in Hg'.
    replace (length ts0 + 1 + length ts)%nat with (length ts0 + S (length ts))%nat
      in Hg' by lia.
    split; [|split; assumption].
    replace (Z.of_nat (length (t :: ts))) with (Z.succ (Z.of_nat (length ts)))
      by (simpl; lia).
    rewrite (seqZ_cons (Z.of_nat (length ts0))) by lia.
    rewrite Z.pred_succ, fmap_cons.
    replace (Z.of_nat (length (ts0 ++ [t]))) with (Z.succ (Z.of_nat (length ts0)))
      by (rewrite length_app; simpl; lia).
    reflexivity.
Qed.

Lemma used_from_app (l1 l2 : list T) : forall i,
  used_from i (l1 ++ l2)
  = used_from i l1 ++ used_from (i + Z.of_nat (length l1)) l2.
Proof.
  induction l1 as [|e l1 IH]; intros i; simpl.
  - rewrite Z.add_0_r. reflexivity.
  - rewrite IH. replace (i + 1 + Z.of_nat (length l1))
      with (i + Z.pos (Pos.of_succ_nat (length l1))) by lia.
    destruct (used_cell e); reflexivity.
Qed.

Lemma used_from_all_used (l : list T) : forall i,
  Forall (fun e => used_cell e = true) l ->
  used_from i l = zip (seqZ i (Z.of_nat (length l))) l.
Proof.
  induction l as [|e l IH]; intros i Hl; [reflexivity|].
  inversion Hl as [|? ? He Hl']. subst.
  rewrite seqZ_cons by (simpl; lia). simpl. rewrite He, IH by assumption.
  do 3 f_equal; lia.
Qed.

Lemma used_from_all_free (l : list T) : forall i,
  Forall (fun e => used_cell e = false) l -> used_from i l = [].
Proof.
  induction l as [|e l IH]; intros i Hl; [reflexivity|].
  inversion Hl as [|? ? He Hl']. subst. simpl. rewrite He. apply IH. assumption.
Qed.

Lemma filled_iteration (this : nat) (c : CC) ts :
  filled c ts ->
  forward_iteration this c = Some (zip (seqZ 0 (Z.of_nat (length ts))) ts).
Proof.
  intros Hf. pose proof (filled_length c ts Hf) as Hlen.
  destruct Hf as (Hs & Hc & Hsz & (frees & Hl & Hfr) & Hus & Hch).
  assert (used_cells c = zip (seqZ 0 (Z.of_nat (length ts))) ts) as Hu.
  { unfold used_cells. rewrite Hl, used_from_app.
    rewrite (used_from_all_free frees) by assumption.
    rewrite app_nil_r. apply used_from_all_used. assumption. }
  rewrite <- Hu. apply forward_iteration_spec; [assumption | |].
  - intros H0. rewrite Hu. destruct ts; [reflexivity | simpl in *; lia].
  - lia.
Qed.

End Filling.

(** ** Insertion order and the scenario of the specification *)

Section Order.
Context {IT : IndexType} {T : Type} {Tr : Traits T} {St : Storage T}.

Abbreviation CC := (Compact_container_with_index_2 T).

(** C5, amended.  With a first block of at least one cell, values that have
    the flag [USED] in their tag word, and a capacity for [k] elements that
    does not pass [bottom]: [k] calls of [insert] on a freshly constructed
    container return the indices 0, 1, ..., k-1 in this order, and forward
    iteration then visits the indices 0, 1, ..., k-1 in ascending order,
    each with the value inserted there.  The reason is the free list that
    [allocate_new_block] leaves: it links the new cells in ascending
    order. *)
Theorem insert_in_ascending_order p (ts : list T) (this : nat) :
  0 < wrap (first_block_size p) ->
  Forall (fun t => static_type t = USED) ts ->
  fst (growth_after p (length ts)) <= bottom ->
  (exists (c : CC) d,
      insert_range p (init p) ts
      = Some ((fun i => {| m_idx := i |}) <$> seqZ 0 (Z.of_nat (length ts)), c, d)
      /\ forward_iteration this c = Some (zip (seqZ 0 (Z.of_nat (length ts))) ts)
      /\ size c = Z.of_nat (length ts)
      /\ capacity c = fst (growth_after p (length ts)))
  /\ (forall c0 : CC,
        sized c0 -> free_list c0 = bottom -> 0 < block_size c0 ->
        capacity_ c0 + block_size c0 <= bottom ->
        exists c1 d1,
          allocate_new_block p c0 = Some (c1, d1)
          /\ free_chain c1 (free_list c1) (seqZ (capacity_ c0) (block_size c0))).
Proof.
  intros Hk Hus Hle. split.
  - assert (Forall (fun t => used_cell t = true) ts) as Hus'.
    { eapply Forall_impl; [exact Hus|]. intros t. apply used_cell_USED. }
    destruct (insert_range_filled p ts (init p) [] (filled_init p) eq_refl Hk Hus' Hle)
      as (c & d & Hr & Hf & Hg).
    exists c, d. split; [exact Hr|]. simpl in Hf, Hg.
    split; [apply filled_iteration; assumption|].
    split; [destruct Hf as (_ & _ & Hsz & _); exact Hsz|].
    unfold capacity. rewrite <- Hg. reflexivity.
  - intros c0 Hs Hbot Hb Hle0. pose proof modulus_bottom. pose proof bottom_ge.
    exists (grown p c0), (List.filter used_cell (all_items c0)).
    split; [apply allocate_new_block_eq; (assumption || lia)|].
    destruct (grown_fields p c0) as (_ & _ & -> & _).
    pose proof (free_chain_grown p c0 Hs Hbot Hle0 (Z.to_nat (block_size c0)) ltac:(lia))
      as Hch.
    destruct (Z.to_nat (block_size c0)) eqn:E; [lia|]. rewrite <- E in Hch.
    replace (capacity_ c0 + block_size c0 - Z.of_nat (Z.to_nat (block_size c0)))
      with (capacity_ c0) in Hch by lia.
    replace (Z.of_nat (Z.to_nat (block_size c0))) with (block_size c0) in Hch by lia.
    exact Hch.
Qed.

(** The first two calls of [insert] on a freshly constructed container,
    whatever the size of the first block. *)
Lemma first_two_inserts p (a b : T) :
  0 < wrap (first_block_size p) ->
  used_cell a = true -> used_cell b = true ->
  exists (s1 s2 : CC) d1 d2 frees,
    insert p (init p) a = Some ({| m_idx := 0 |}, s1, d1) /\ size_ s1 = 1
    /\ insert p s1 b = Some ({| m_idx := 1 |}, s2, d2) /\ size_ s2 = 2
    /\ sized s2 /\ all_items s2 = [a; b] ++ frees
    /\ Forall (fun e => used_cell e = false) frees.
Proof.
  intros Hk Ha Hb.
  pose proof modulus_bottom as Hm. pose proof bottom_ge as Hbg.
  pose proof (wrap_range (first_block_size p)) as Hwr.
  set (c0 := init p : CC).
  assert (sized c0) as Hs0 by (split; simpl; [lia | reflexivity]).
  pose proof (allocate_new_block_eq p c0 Hs0 Hk ltac:(simpl; lia)) as Hg0.
  destruct (grown_fields p c0) as (Hc0 & Hz0 & Hf0 & Hl0).
  pose proof (grown_block_size p c0) as Hb0.
  assert (at_ (grown p c0) (free_list (grown p c0)) = Some (fresh_cell c0 0)) as Hat0.
  { rewrite Hf0. apply (at_grown_new p c0 0 Hs0). simpl. lia. }
  pose proof (insert_growth p c0 _ _ a _ eq_refl Hg0 Hat0) as H1.
  rewrite Hf0 in H1. change (capacity_ c0) with 0 in H1.
  set (s1 := take_free_cell (grown p c0) a (fresh_cell c0 0)) in *.
  assert (sized s1) as Hs1.
  { apply sized_take_free_cell, sized_grown; simpl; (assumption || lia). }
  assert (capacity_ s1 = wrap (first_block_size p)) as Hc1
      by (unfold s1; simpl; rewrite Hc0; simpl; lia).
  assert (block_size s1 = wrap (first_block_size p)) as Hb1
      by (unfold s1; simpl; rewrite Hb0; destruct p; simpl; lia).
  assert (size_ s1 = 1) as Hz1
      by (unfold s1; simpl; rewrite Hz0; simpl; apply wrap_small; lia).
  assert (all_items s1
          = a :: (fresh_cell c0 <$> seqZ 1 (wrap (first_block_size p) - 1))) as Hl1.
  { unfold s1. simpl. rewrite Hf0, Hl0. unfold grown_items. simpl.
    rewrite seqZ_cons by lia. reflexivity. }
  assert (free_list s1
          = Z.land (if 0 =? wrap (first_block_size p) - 1 then bottom else 1) bottom)
    as Hf1.
  { unfold s1. simpl. unfold fresh_cell. rewrite static_get_val_set_val.
    simpl. reflexivity. }
  clearbody s1.
  destruct (Z.eqb_spec 0 (wrap (first_block_size p) - 1)) as [Hone|Hmore].
  - (* a first block of one cell: the second call grows the container *)
    rewrite land_bottom_small in Hf1 by lia.
    replace (wrap (first_block_size p) - 1) with 0 in Hl1 by lia.
    simpl in Hl1.
    pose proof (allocate_new_block_eq p s1 Hs1 ltac:(lia) ltac:(lia)) as Hg1.
    destruct (grown_fields p s1) as (Hc1' & Hz1' & Hf1' & Hl1').
    assert (at_ (grown p s1) (free_list (grown p s1)) = Some (fresh_cell s1 1)) as Hat1.
    { rewrite Hf1', Hc1. replace (wrap (first_block_size p)) with 1 by lia.
      apply (at_grown_new p s1 1 Hs1). lia. }
    pose proof (insert_growth p s1 _ _ b _ Hf1 Hg1 Hat1) as H2.
    rewrite Hf1', Hc1 in H2. replace (wrap (first_block_size p)) with 1 in H2 by lia.
    eexists s1, _, _, _, []. split; [exact H1|]. split; [exact Hz1|].
    split; [exact H2|].
    split; [simpl; rewrite Hz1', Hz1; apply wrap_small; lia|].
    split; [apply sized_take_free_cell, sized_grown; (assumption || lia)|].
    split; [|constructor].
    simpl. rewrite Hf1', Hl1', Hc1. unfold grown_items. rewrite Hl1, Hc1, Hb1.
    replace (wrap (first_block_size p)) with 1 by lia.
    simpl. unfold moved_cell. rewrite Ha. reflexivity.
  - (* a larger first block: the second call takes the cell 1 *)
    rewrite land_bottom_small in Hf1 by lia.
    rewrite (seqZ_cons 1) in Hl1 by lia.
    assert (at_ s1 (free_list s1) = Some (fresh_cell c0 1)) as Hat1.
    { apply at_Some. rewrite Hf1, Hc1, Hl1. split; [lia | reflexivity]. }
    assert (free_list s1 <> bottom) as Hne1 by lia.
    pose proof (insert_no_growth p s1 b _ Hne1 Hat1) as H2.
    rewrite Hf1 in H2 at 1.
    eexists s1, _, _, _, _. split; [exact H1|]. split; [exact Hz1|].
    split; [exact H2|].
    split; [simpl; rewrite Hz1; apply wrap_small; lia|].
    split; [apply sized_take_free_cell; assumption|].
    split.
    + simpl. rewrite Hf1, Hl1. reflexivity.
    + apply Forall_fmap, Forall_forall. intros i _. apply used_cell_set_val_FREE.
Qed.

(** C1, amended.  With a first block of at least one cell and values [a],
    [b], [c] that have the flag [USED] in their tag word, a freshly
    constructed container (capacity 0) gives: [insert(a)] returns 0, size
    1; [insert(b)] returns 1, size 2; [erase(0)] destroys [a] and leaves
    size 1 and slot 0 free; [insert(c)] returns 0, size 2; forward
    iteration then visits index 0 with [c] and index 1 with [b]. *)
Theorem insert_insert_erase_insert p (a b c : T) (this : nat) :
  0 < wrap (first_block_size p) ->
  static_type a = USED -> static_type b = USED -> static_type c = USED ->
  capacity (init p : CC) = 0
  /\ exists (s1 s2 s3 s4 : CC) d1 d2 d4,
      insert p (init p) a = Some ({| m_idx := 0 |}, s1, d1) /\ size s1 = 1
      /\ insert p s1 b = Some ({| m_idx := 1 |}, s2, d2) /\ size s2 = 2
      /\ erase s2 {| m_idx := 0 |} = Some (s3, [a]) /\ size s3 = 1
      /\ is_used s3 0 = Some false
      /\ insert p s3 c = Some ({| m_idx := 0 |}, s4, d4) /\ size s4 = 2
      /\ forward_iteration this s4 = Some [(0, c); (1, b)].
Proof.
  intros Hk Ha%used_cell_USED Hb%used_cell_USED Hc%used_cell_USED.
  split; [reflexivity|].
  pose proof modulus_bottom as Hm. pose proof bottom_ge as Hbg.
  destruct (first_two_inserts p a b Hk Ha Hb)
    as (s1 & s2 & d1 & d2 & frees & H1 & Hsz1 & H2 & Hsz2 & Hs2 & Hl2 & Hfr).
  assert (at_ s2 0 = Some a) as Hat2.
  { apply at_Some. destruct Hs2 as [_ Hlen]. rewrite Hl2 in Hlen |- *.
    cbn [length app] in Hlen. split; [lia | reflexivity]. }
  pose proof (erase_eq s2 {| m_idx := 0 |} a Hat2 ltac:(apply used_cell_USED; exact Ha))
    as H3.
  simpl in H3.
  match type of H3 with _ = Some (?s, _) => set (s3 := s) in * end.
  assert (at_ s3 0 = Some (static_set_val zeroed (free_list s2) FREE)) as Hat3.
  { apply (at_update_eq s2 s3 0 _ a); auto. }
  assert (free_list s3 <> bottom) as Hne3 by (unfold s3; simpl; lia).
  pose proof (insert_no_growth p s3 c _ Hne3 Hat3) as H4.
  change (free_list s3) with 0 in H4.
  match type of H4 with _ = Some (_, ?s, _) => set (s4 := s) in * end.
  exists s1, s2, s3, s4, d1, d2, [].
  split; [exact H1|]. split; [exact Hsz1|].
  split; [exact H2|]. split; [exact Hsz2|].
  split; [exact H3|].
  assert (size_ s3 = 1) as Hsz3.
  { unfold s3. simpl. rewrite Hsz2. apply wrap_small. lia. }
  split; [exact Hsz3|].
  split; [rewrite (is_used_at _ _ _ Hat3), used_cell_set_val_FREE; reflexivity|].
  split; [exact H4|].
  assert (size_ s4 = 2) as Hsz4.
  { unfold s4, s3. simpl. rewrite Hsz2. rewrite (wrap_small (2 - 1)) by lia.
    apply wrap_small. lia. }
  split; [exact Hsz4|].
  assert (all_items s4 = c :: b :: frees) as Hl4.
  { unfold s4, s3. simpl. rewrite Hl2. reflexivity. }
  assert (sized s4) as Hs4.
  { apply (sized_same_shape s2); [reflexivity | | assumption].
    unfold s4, s3. simpl. rewrite !length_insert. reflexivity. }
  rewrite forward_iteration_spec; [| assumption | rewrite Hsz4; lia |].
  - unfold used_cells. rewrite Hl4. simpl. rewrite Hc, Hb.
    rewrite used_from_all_free by assumption. reflexivity.
  - intros _. destruct Hs4 as [_ Hlen4]. rewrite Hl4 in Hlen4.
    cbn [length] in Hlen4. lia.
Qed.

End Order.

(** ** Iterators, addresses and indices *)

Section Access.
Context {IT : IndexType} {T : Type} {Tr : Traits T} {St : Storage T}.

Abbreviation CC := (Compact_container_with_index_2 T).
Abbreviation Index := Index_for_cc_with_index.

Lemma cc_pointer_eqb_eq (a b : cc_pointer) : cc_pointer_eqb a b = true <-> a = b.
Proof.
  destruct a as [x|], b as [y|]; simpl; try (split; congruence).
  rewrite Nat.eqb_eq. split; congruence.
Qed.

Lemma iterator_eqb_eq (a b : CC_iterator_with_index) :
  iterator_eqb a b = true <-> a = b.
Proof.
  unfold iterator_eqb. rewrite andb_true_iff, cc_pointer_eqb_eq, Z.eqb_eq.
  destruct a, b; simpl. split; [intros [-> ->]; reflexivity | intros [= -> ->]; auto].
Qed.

Lemma iterator_neb_eqb (a b : CC_iterator_with_index) :
  iterator_neb a b = negb (iterator_eqb a b).
Proof. unfold iterator_neb, iterator_eqb. rewrite negb_andb. reflexivity. Qed.

(** X1. [owns_dereferencable(cit)] is true exactly when [cit] is an
    iterator of this container that refers to a used cell. *)
Theorem owns_dereferencable_spec (h : heap) (this : nat) (c : CC)
    (cit : CC_iterator_with_index) :
  h this = Some c ->
  owns_dereferencable h this cit = Some true
  <-> m_ptr_to_cc cit = Some this /\ is_used c (m_index cit) = Some true.
Proof.
  intros Hh. unfold owns_dereferencable, owns. rewrite Hh. cbn [mbind option_bind].
  destruct (iterator_eqb cit (end_ this c)) eqn:E; cbn [negb].
  - apply iterator_eqb_eq in E. subst cit. cbn [end_ m_index m_ptr_to_cc].
    split; [discriminate|]. intros [_ Hu].
    apply is_used_Some in Hu as (e & [Hr _]%at_Some & _). lia.
  - destruct cit as [[owner|] idx]; cbn [m_ptr_to_cc m_index mbind option_bind].
    + destruct (Nat.eqb_spec owner this) as [->|Hne].
      * rewrite Hh. cbn [mbind option_bind]. unfold deref. cbn [m_index].
        destruct (at_ c idx) as [e|] eqn:He; cbn [mbind option_bind].
        -- pose proof He as [Hr _]%at_Some.
           destruct (Z.leb_spec 0 idx); [|lia].
           destruct (Z.ltb_spec idx (capacity_ c)); [|lia].
           cbn [andb]. split; [auto | intros [_ ?]; assumption].
        -- split; [discriminate|]. intros [_ Hu].
           rewrite is_used_fmap, He in Hu. discriminate.
      * split.
        -- destruct (h owner) as [cc|]; cbn [mbind option_bind]; [|discriminate].
           destruct (deref cc _); cbn [mbind option_bind]; [|discriminate].
           cbn [andb]. discriminate.
        -- intros [[= ?] _]. contradiction.
    + split; [discriminate | intros [[=] _]].
Qed.

(** X2. [erase] detects its misuse: erasing the same index a second time,
    erasing the null index of a container whose capacity is at most
    [bottom], and erasing from a freshly constructed container all fail. *)
Theorem erase_rejects_free_slots (c : CC) :
  (forall x c' d, erase c x = Some (c', d) -> erase c' x = None)
  /\ (capacity_ c <= bottom -> erase c Index_default = None)
  /\ (forall p x, erase (init p : CC) x = None).
Proof.
  split; [|split].
  - intros x c' d H. apply erase_None.
    destruct (erase_cell c c' x d H) as (_ & _ & Hat & _).
    rewrite (is_used_at _ _ _ Hat), used_cell_set_val_FREE. discriminate.
  - intros Hc. apply erase_None. rewrite is_used_fmap, at_None; [discriminate|].
    unfold Index_default, bottom in *. simpl. lia.
  - intros p x. reflexivity.
Qed.

(** X3. On an index of [size_type], [++] followed by [--] and [--]
    followed by [++] give the index back, also across the wrap-around; and
    [++] gives the null index exactly from [bottom - 1]. *)
Theorem Index_incr_decr (i : Index) :
  0 <= m_idx i < modulus ->
  Index_decr (Index_incr i) = i
  /\ Index_incr (Index_decr i) = i
  /\ (is_valid (Index_incr i) = false <-> m_idx i = bottom - 1).
Proof.
  intros Hi. destruct i as [x]. simpl in Hi.
  pose proof modulus_bottom as Hm. pose proof bottom_ge as Hb.
  unfold Index_decr, Index_incr, is_valid, wrap. cbn [m_idx].
  split; [|split].
  - f_equal. rewrite Zminus_mod_idemp_l.
    replace (x + 1 - 1) with x by lia. apply Z.mod_small. assumption.
  - f_equal. rewrite Zplus_mod_idemp_l.
    replace (x - 1 + 1) with x by lia. apply Z.mod_small. assumption.
  - fold bottom. rewrite negb_false_iff, Z.eqb_eq.
    destruct (Z.eq_dec x (modulus - 1)) as [->|Hne].
    + replace (modulus - 1 + 1) with (1 * modulus) by lia.
      rewrite Z.mod_mul by lia. lia.
    + rewrite Z.mod_small by lia. lia.
Qed.

(** X4. [iterator_to] of the element that an iterator of this container
    refers to gives the iterator back, and [index] gives its index; of an
    element that is not in the array of this container it gives the
    iterator of the cell 0. *)
Theorem iterator_to_element (this : nat) (c : CC) :
  sized c ->
  (forall it, m_ptr_to_cc it = Some this -> is_Some (deref c it) ->
     iterator_to this c (address_of this (m_index it)) = it
     /\ index (iterator_to this c (address_of this (m_index it))) = m_index it)
  /\ (forall value,
        array_of value <> this \/ ~ (0 <= offset value < capacity_ c) ->
        iterator_to this c value = index_to this 0).
Proof.
  intros [Hcap _]. split.
  - intros [ptr idx] Hp [e He]. cbn [m_ptr_to_cc m_index] in *. subst ptr.
    unfold deref in He. cbn [m_index] in He. apply at_Some in He as [Hr Hl].
    unfold iterator_to, index, compute_index, address_of. cbn [array_of offset m_index].
    rewrite Nat.eqb_refl.
    destruct (Z.leb_spec 0 idx); [|lia].
    destruct (Z.ltb_spec idx (capacity_ c)); [|lia]. cbn [andb].
    rewrite wrap_small by lia. auto.
  - intros value Hv. unfold iterator_to, index_to, compute_index. f_equal.
    destruct (Nat.eqb_spec (array_of value) this); cbn [andb]; [|reflexivity].
    destruct (Z.leb_spec 0 (offset value)); cbn [andb]; [|reflexivity].
    destruct (Z.ltb_spec (offset value) (capacity_ c)); [|reflexivity].
    destruct Hv as [?|Hv]; [contradiction|]. lia.
Qed.

End Access.

(** ** The positions of an iterator *)

Section Positions.
Context {IT : IndexType} {T : Type} {Tr : Traits T} {St : Storage T}.

Abbreviation CC := (Compact_container_with_index_2 T).

Lemma increment_loop_step fuel (c : CC) i :
  increment_loop fuel c i
  = if wrap (i + 1) <? capacity_ c then
      u ← is_used c (wrap (i + 1));
      if negb u then
        match fuel with
        | O => None
        | S fuel' => increment_loop fuel' c (wrap (i + 1))
        end
      else Some (wrap (i + 1))
    else Some (wrap (i + 1)).
Proof. destruct fuel; reflexivity. Qed.

Lemma decrement_loop_step fuel (c : CC) i :
  decrement_loop fuel c i
  = u ← is_used c (wrap (i - 1));
    if negb u then
      match fuel with
      | O => None
      | S fuel' => decrement_loop fuel' c (wrap (i - 1))
      end
    else Some (wrap (i - 1)).
Proof. destruct fuel; reflexivity. Qed.

Lemma wrap_m1 : wrap (0 - 1) = modulus - 1.
Proof.
  pose proof modulus_bottom. pose proof bottom_ge. unfold wrap.
  replace (0 - 1) with (modulus - 1 + (-1) * modulus) by lia.
  rewrite Z_mod_plus_full. apply Z.mod_small. lia.
Qed.

(** [increment] stops at the first used cell after its position, or at
    [capacity_]. *)
Lemma increment_loop_to (c : CC) : forall (n fuel : nat) i j,
  sized c -> -1 <= i -> j = i + 1 + Z.of_nat n -> j <= capacity_ c ->
  (forall k, i < k < j -> is_used c k = Some false) ->
  (j < capacity_ c -> is_used c j = Some true) ->
  (n <= fuel)%nat ->
  increment_loop fuel c i = Some j.
Proof.
  induction n as [|n IH]; intros fuel i j Hs Hi Hj Hcap Hfree Hused Hfuel;
    rewrite increment_loop_step; rewrite wrap_small by (destruct Hs; lia).
  - replace (i + 1) with j by lia.
    destruct (Z.ltb_spec j (capacity_ c)); [|reflexivity].
    rewrite Hused by assumption. reflexivity.
  - destruct (Z.ltb_spec (i + 1) (capacity_ c)); [|lia].
    rewrite Hfree by lia. cbn [mbind option_bind negb].
    destruct fuel as [|fuel]; [lia|].
    apply IH; try assumption; try lia.
    intros k Hk. apply Hfree. lia.
Qed.

(** [decrement] stops at the last used cell before its position. *)
Lemma decrement_loop_to (c : CC) : forall (n fuel : nat) i j,
  sized c -> 0 <= j -> i = j + 1 + Z.of_nat n -> i <= capacity_ c ->
  is_used c j = Some true ->
  (forall k, j < k < i -> is_used c k = Some false) ->
  (n <= fuel)%nat ->
  decrement_loop fuel c i = Some j.
Proof.
  induction n as [|n IH]; intros fuel i j Hs Hj Hi Hcap Hused Hfree Hfuel;
    rewrite decrement_loop_step; rewrite wrap_small by (destruct Hs; lia).
  - replace (i - 1) with j by lia. rewrite Hused. reflexivity.
  - rewrite Hfree by lia. cbn [mbind option_bind negb].
    destruct fuel as [|fuel]; [lia|].
    apply IH; try assumption; try lia.
    intros k Hk. apply Hfree. lia.
Qed.

(** Without a used cell before its position, [decrement] fails: at the
    cell 0 the index wraps around and [is_used] rejects it. *)
Lemma decrement_loop_none (c : CC) : forall (n : nat) fuel i,
  sized c -> i = Z.of_nat n -> i <= capacity_ c ->
  (forall k, 0 <= k < i -> is_used c k = Some false) ->
  decrement_loop fuel c i = None.
Proof.
  induction n as [|n IH]; intros fuel i Hs Hi Hcap Hfree;
    rewrite decrement_loop_step.
  - subst i. change (Z.of_nat 0) with 0. rewrite wrap_m1.
    rewrite is_used_fmap, at_None by (destruct Hs; lia). reflexivity.
  - rewrite wrap_small by (destruct Hs; lia).
    rewrite Hfree by lia. cbn [mbind option_bind negb].
    destruct fuel as [|fuel]; [reflexivity|].
    apply IH; try assumption; try lia.
    intros k Hk. apply Hfree. lia.
Qed.

Lemma next_used (c : CC) : forall (n : nat) i,
  sized c -> -1 <= i -> i + 1 + Z.of_nat n = capacity_ c ->
  exists j, i < j <= capacity_ c
    /\ (forall k, i < k < j -> is_used c k = Some false)
    /\ (j < capacity_ c -> is_used c j = Some true).
Proof.
  induction n as [|n IH]; intros i Hs Hi Hn.
  - exists (capacity_ c). split; [lia|]. split; intros; lia.
  - destruct (at_is_Some c (i + 1) Hs ltac:(lia)) as [e He].
    pose proof (is_used_at c _ e He) as Hu.
    destruct (used_cell e) eqn:E.
    + exists (i + 1). split; [lia|]. split; [intros; lia | auto].
    + destruct (IH (i + 1) Hs ltac:(lia) ltac:(lia)) as (j & Hj & Hfree & Hused).
      exists j. split; [lia|]. split; [|assumption].
      intros k Hk. destruct (Z.eq_dec k (i + 1)) as [->|Hne]; [assumption|].
      apply Hfree. lia.
Qed.

Lemma prev_used (c : CC) : forall (n : nat) i,
  sized c -> i = Z.of_nat n -> i <= capacity_ c ->
  (exists j, 0 <= j < i /\ is_used c j = Some true
     /\ forall k, j < k < i -> is_used c k = Some false)
  \/ (forall k, 0 <= k < i -> is_used c k = Some false).
Proof.
  induction n as [|n IH]; intros i Hs Hi Hcap.
  - right. intros k Hk. lia.
  - destruct (at_is_Some c (i - 1) Hs ltac:(lia)) as [e He].
    pose proof (is_used_at c _ e He) as Hu.
    destruct (used_cell e) eqn:E.
    + left. exists (i - 1). split; [lia|]. split; [assumption | intros; lia].
    + destruct (IH (i - 1) Hs ltac:(lia) ltac:(lia)) as [(j & Hj & Hused & Hfree)|Hfree].
      * left. exists j. split; [lia|]. split; [assumption|].
        intros k Hk. destruct (Z.eq_dec k (i - 1)) as [->|Hne]; [assumption|].
        apply Hfree. lia.
      * right. intros k Hk. destruct (Z.eq_dec k (i - 1)) as [->|Hne]; [assumption|].
        apply Hfree. lia.
Qed.

Lemma increment_spec (c : CC) (it : CC_iterator_with_index) a :
  sized c -> m_ptr_to_cc it = Some a -> 0 <= m_index it < capacity_ c ->
  exists j,
    increment c it = Some {| m_ptr_to_cc := Some a; m_index := j |}
    /\ m_index it < j <= capacity_ c
    /\ (forall k, m_index it < k < j -> is_used c k = Some false)
    /\ (j < capacity_ c -> is_used c j = Some true).
Proof.
  intros Hs Hp Hi.
  destruct (next_used c (Z.to_nat (capacity_ c - 1 - m_index it)) (m_index it)
              Hs ltac:(lia) ltac:(lia)) as (j & Hj & Hfree & Hused).
  exists j. split; [|auto].
  unfold increment. rewrite Hp.
  destruct (Z.ltb_spec (m_index it) (capacity_ c)); [|lia].
  rewrite (increment_loop_to c (Z.to_nat (j - m_index it - 1)) _ (m_index it) j);
    try assumption; try lia.
  reflexivity.
Qed.

Lemma decrement_spec (c : CC) (it : CC_iterator_with_index) a :
  sized c -> m_ptr_to_cc it = Some a -> 0 < m_index it <= capacity_ c ->
  (exists j,
     decrement c it = Some {| m_ptr_to_cc := Some a; m_index := j |}
     /\ 0 <= j < m_index it /\ is_used c j = Some true
     /\ forall k, j < k < m_index it -> is_used c k = Some false)
  \/ (decrement c it = None
      /\ forall k, 0 <= k < m_index it -> is_used c k = Some false).
Proof.
  intros Hs Hp Hi. unfold decrement. rewrite Hp.
  destruct (Z.ltb_spec 0 (m_index it)); [|lia].
  destruct (prev_used c (Z.to_nat (m_index it)) (m_index it) Hs ltac:(lia) ltac:(lia))
    as [(j & Hj & Hused & Hfree)|Hfree].
  - left. exists j. split; [|auto].
    rewrite (decrement_loop_to c (Z.to_nat (m_index it - j - 1)) _ (m_index it) j);
      try assumption; try lia.
    reflexivity.
  - right. split; [|assumption].
    rewrite (decrement_loop_none c (Z.to_nat (m_index it))); try assumption; try lia.
    reflexivity.
Qed.

(** X5. Round trips of the iterator: on a used cell, [++] followed by
    [--] gives the iterator back; on [end()] or a used cell, [--] followed
    by [++] gives the iterator back. *)
Theorem increment_decrement_round_trip (c : CC) :
  sized c ->
  (forall it it',
      increment c it = Some it' -> is_used c (m_index it) = Some true ->
      decrement c it' = Some it)
  /\ (forall it it',
        decrement c it = Some it' ->
        m_index it = capacity_ c \/ is_used c (m_index it) = Some true ->
        increment c it' = Some it).
Proof.
  intros Hs. split.
  - intros [[a|] i] it' H Hu; [|discriminate].
    cbn [m_index] in Hu.
    apply is_used_Some in Hu as (e & He & Hu). pose proof He as [Hr _]%at_Some.
    destruct (increment_spec c {| m_ptr_to_cc := Some a; m_index := i |} a Hs eq_refl Hr)
      as (j & Hinc & Hj & Hfree & _).
    cbn [m_index] in *. rewrite Hinc in H. injection H as <-.
    unfold decrement. cbn [m_ptr_to_cc m_index].
    destruct (Z.ltb_spec 0 j); [|lia].
    rewrite (decrement_loop_to c (Z.to_nat (j - i - 1)) _ j i); try assumption; try lia.
    + reflexivity.
    + rewrite (is_used_at c i e He). f_equal. assumption.
  - intros [[a|] i] it' H Hi; [|discriminate].
    cbn [m_index] in Hi.
    assert (0 < i <= capacity_ c) as Hr.
    { unfold decrement in H. cbn [m_ptr_to_cc m_index] in H.
      destruct (Z.ltb_spec 0 i); [|discriminate].
      destruct Hi as [->|Hu]; [lia|].
      apply is_used_Some in Hu as (e & [? _]%at_Some & _). lia. }
    destruct (decrement_spec c {| m_ptr_to_cc := Some a; m_index := i |} a Hs eq_refl Hr)
      as [(j & Hdec & Hj & Hused & Hfree)|[Hdec _]];
      cbn [m_index] in *; rewrite Hdec in H; [|discriminate].
    injection H as <-.
    unfold increment. cbn [m_ptr_to_cc m_index].
    destruct (Z.ltb_spec j (capacity_ c)); [|lia].
    rewrite (increment_loop_to c (Z.to_nat (i - j - 1)) _ j i); try assumption; try lia.
    + reflexivity.
    + intros Hlt. destruct Hi as [->|Hu]; [lia | assumption].
Qed.

End Positions.

(** ** [begin()], [rbegin()] and [rend()] *)

Section Begin.
Context {IT : IndexType} {T : Type} {Tr : Traits T} {St : Storage T}.

Abbreviation CC := (Compact_container_with_index_2 T).

Lemma is_used_lookup (c : CC) (k : nat) e :
  sized c -> all_items c !! k = Some e ->
  is_used c (Z.of_nat k) = Some (used_cell e).
Proof.
  intros [Hc Hl] He. apply is_used_at, at_Some. rewrite Nat2Z.id.
  apply lookup_lt_Some in He as Hk. split; [lia | assumption].
Qed.

Lemma filter_nil_free (l : list T) :
  List.filter used_cell l = [] <-> Forall (fun e => used_cell e = false) l.
Proof.
  induction l as [|e l IH]; simpl.
  - split; auto.
  - destruct (used_cell e) eqn:E.
    + split; [discriminate|]. intros [? ?]%Forall_cons. congruence.
    + rewrite IH. split; [auto | intros [? ?]%Forall_cons; assumption].
Qed.

Lemma count_used_zero (c : CC) :
  sized c ->
  count_used c = 0 <-> (forall k, 0 <= k < capacity_ c -> is_used c k = Some false).
Proof.
  intros Hs. pose proof Hs as [Hc Hl]. unfold count_used.
  assert (Z.of_nat (length (List.filter used_cell (all_items c))) = 0
          <-> List.filter used_cell (all_items c) = []) as ->.
  { destruct (List.filter used_cell (all_items c)); simpl; split;
      (reflexivity || discriminate || lia). }
  rewrite filter_nil_free, Forall_lookup. split.
  - intros H k Hk.
    destruct (at_is_Some c k Hs Hk) as [e He].
    rewrite (is_used_at c k e He). f_equal.
    apply at_Some in He as [_ He]. exact (H _ _ He).
  - intros H k e He. apply lookup_lt_Some in He as Hk.
    specialize (H (Z.of_nat k) ltac:(lia)).
    rewrite (is_used_lookup c k e Hs He) in H. congruence.
Qed.

(** [begin()] is the first used cell, or [end()] when there is none. *)
Lemma begin_spec (this : nat) (c : CC) :
  sized c -> size_ c = count_used c ->
  exists j,
    begin this c = Some {| m_ptr_to_cc := Some this; m_index := j |}
    /\ 0 <= j <= capacity_ c
    /\ (forall k, 0 <= k < j -> is_used c k = Some false)
    /\ (j < capacity_ c -> is_used c j = Some true)
    /\ (j = capacity_ c <-> size_ c = 0).
Proof.
  intros Hs Hsz. pose proof Hs as [Hc Hl].
  pose proof (count_used_bound c Hs) as Hbd.
  unfold begin, empty. destruct (Z.eqb_spec (size_ c) 0) as [Hz|Hnz].
  - exists (capacity_ c). split; [reflexivity|]. split; [lia|].
    split; [apply count_used_zero; [assumption | lia]|].
    split; [lia | tauto].
  - unfold iterator_for_begin. cbn [m_index].
    destruct (at_is_Some c 0 Hs ltac:(lia)) as [e He].
    rewrite (is_used_at c 0 e He). cbn [mbind option_bind].
    destruct (used_cell e) eqn:E; cbn [negb].
    + exists 0. split; [reflexivity|]. split; [lia|]. split; [intros; lia|].
      split; [intros _; rewrite (is_used_at c 0 e He); f_equal; assumption | lia].
    + destruct (increment_spec c {| m_ptr_to_cc := Some this; m_index := 0 |} this
                  Hs eq_refl ltac:(simpl; lia)) as (j & Hinc & Hj & Hfree & Hused).
      cbn [m_index] in *.
      assert (forall k, 0 <= k < j -> is_used c k = Some false) as Hfree'.
      { intros k Hk. destruct (Z.eq_dec k 0) as [->|Hne].
        - rewrite (is_used_at c 0 e He). f_equal. assumption.
        - apply Hfree. lia. }
      exists j. split; [assumption|]. split; [lia|]. split; [assumption|].
      split; [assumption|]. split; [|lia].
      intros ->. exfalso. apply Hnz. rewrite Hsz. apply count_used_zero; assumption.
Qed.

(** X6. In a state reached by [insert] and [erase] (values with the flag
    [USED], capacity at most [bottom]), [begin()] is the iterator of the
    first used cell; it is [end()] exactly when the container is empty. *)
Theorem begin_first_used p (this : nat) (c : CC) :
  reachable_in_range p c ->
  exists b,
    begin this c = Some b /\ m_ptr_to_cc b = Some this
    /\ 0 <= m_index b <= capacity_ c
    /\ (forall k, 0 <= k < m_index b -> is_used c k = Some false)
    /\ (m_index b < capacity_ c -> is_used c (m_index b) = Some true)
    /\ (b = end_ this c <-> empty c = true).
Proof.
  intros (Hs & _ & _ & Hsz & _)%reachable_in_range_consistent.
  destruct (begin_spec this c Hs Hsz) as (j & Hb & Hj & Hfree & Hused & Hend).
  eexists. split; [exact Hb|]. cbn [m_ptr_to_cc m_index].
  split; [reflexivity|]. split; [assumption|]. split; [assumption|].
  split; [assumption|].
  unfold end_, empty. rewrite Z.eqb_eq, <- Hend.
  split; [intros [= ->]; reflexivity | intros ->; reflexivity].
Qed.

(** X7. In such a state [--] on [begin()] fails: either the index is 0,
    or no cell before it is used and the index passes below 0. *)
Theorem decrement_begin_fails p (this : nat) (c : CC) b :
  reachable_in_range p c -> begin this c = Some b -> decrement c b = None.
Proof.
  intros (Hs & _ & _ & Hsz & _)%reachable_in_range_consistent Hb.
  destruct (begin_spec this c Hs Hsz) as (j & Hb' & Hj & Hfree & _).
  rewrite Hb' in Hb. injection Hb as <-.
  unfold decrement. cbn [m_ptr_to_cc m_index].
  destruct (Z.ltb_spec 0 j); [|reflexivity].
  rewrite (decrement_loop_none c (Z.to_nat j)); try assumption; try lia.
  reflexivity.
Qed.

End Begin.

(** ** Reverse iteration *)

Section Reverse.
Context {IT : IndexType} {T : Type} {Tr : Traits T} {St : Storage T}.

Abbreviation CC := (Compact_container_with_index_2 T).

Lemma skip_free_unique (l : list T) : forall n : nat,
  (forall k e, (k < n)%nat -> l !! k = Some e -> used_cell e = false) ->
  (n <= length l)%nat ->
  (forall e, l !! n = Some e -> used_cell e = true) ->
  skip_free l = n.
Proof.
  induction l as [|e l IH]; intros n Hfree Hn Hused; simpl in *.
  - lia.
  - destruct n as [|n].
    + rewrite (Hused e eq_refl). reflexivity.
    + rewrite (Hfree O e ltac:(lia) eq_refl). f_equal. apply IH.
      * intros k e' Hk He'. apply (Hfree (S k) e'); [lia | assumption].
      * lia.
      * intros e' He'. apply (Hused e'). assumption.
Qed.

Lemma begin_skip_free (this : nat) (c : CC) :
  sized c -> size_ c = count_used c ->
  begin this c
  = Some {| m_ptr_to_cc := Some this;
            m_index := Z.of_nat (skip_free (all_items c)) |}.
Proof.
  intros Hs Hsz. pose proof Hs as [Hc Hl].
  destruct (begin_spec this c Hs Hsz) as (j & Hb & Hj & Hfree & Hused & _).
  rewrite Hb. do 2 f_equal.
  rewrite (skip_free_unique (all_items c) (Z.to_nat j)); [lia| |lia|].
  - intros k e Hk He. specialize (Hfree (Z.of_nat k) ltac:(lia)).
    rewrite (is_used_lookup c k e Hs He) in Hfree. congruence.
  - intros e He. apply lookup_lt_Some in He as Hlt.
    specialize (Hused ltac:(lia)).
    replace j with (Z.of_nat (Z.to_nat j)) in Hused by lia.
    rewrite (is_used_lookup c _ e Hs He) in Hused. congruence.
Qed.

Lemma used_split (l : list T) :
  Forall (fun e => used_cell e = false) l
  \/ exists l' e frees,
       l = l' ++ e :: frees /\ used_cell e = true
       /\ Forall (fun e => used_cell e = false) frees.
Proof.
  induction l as [|x l IH] using rev_ind.
  - left. constructor.
  - destruct (used_cell x) eqn:E.
    + right. exists l, x, []. auto.
    + destruct IH as [IH|(l' & e & frees & -> & He & Hf)].
      * left. apply Forall_app. split; [assumption|]. constructor; auto.
      * right. exists l', e, (frees ++ [x]). rewrite <- app_assoc. simpl.
        split; [reflexivity|]. split; [assumption|].
        apply Forall_app. split; [assumption|]. constructor; auto.
Qed.

Lemma skip_free_app_free (l1 l2 : list T) :
  Forall (fun e => used_cell e = false) l1 ->
  skip_free (l1 ++ l2) = (length l1 + skip_free l2)%nat.
Proof.
  induction 1 as [|e l1 He _ IH]; simpl; [reflexivity|].
  rewrite He, IH. reflexivity.
Qed.

Lemma skip_free_before_used (l : list T) e r :
  used_cell e = true -> (skip_free (l ++ e :: r) <= length l)%nat.
Proof.
  intros He. induction l as [|x l IH]; simpl.
  - rewrite He. lia.
  - destruct (used_cell x); lia.
Qed.

Lemma skip_free_head_used (l : list T) :
  (forall e l', l = e :: l' -> used_cell e = true) -> skip_free l = O.
Proof.
  destruct l as [|e l]; intros H; simpl; [reflexivity|].
  rewrite (H e l eq_refl). reflexivity.
Qed.

Lemma reverse_iterate_from_step fuel (c : CC) current rend_base :
  reverse_iterate_from fuel c current rend_base
  = if iterator_neb current rend_base then
      match fuel with
      | O => None
      | S fuel' =>
          tmp ← decrement c current;
          v ← deref c tmp;
          current' ← decrement c current;
          rest ← reverse_iterate_from fuel' c current' rend_base;
          Some ((m_index tmp, v) :: rest)
      end
    else Some [].
Proof. destruct fuel; reflexivity. Qed.

(** From a position that is [end()] or a used cell, reverse iteration
    visits the used cells before it, in descending order. *)
Lemma reverse_iterate_from_spec (this : nat) (c : CC) : forall (n : nat) l1 l2 fuel,
  (length l1 <= n)%nat ->
  sized c -> all_items c = l1 ++ l2 ->
  (forall e l', l2 = e :: l' -> used_cell e = true) ->
  (length l1 <= fuel)%nat ->
  reverse_iterate_from fuel c
    {| m_ptr_to_cc := Some this; m_index := Z.of_nat (length l1) |}
    {| m_ptr_to_cc := Some this;
       m_index := Z.of_nat (skip_free (all_items c)) |}
  = Some (rev (used_from 0 l1)).
Proof.
  induction n as [|n IH]; intros l1 l2 fuel Hn Hs Hl Hhead Hfuel;
    rewrite reverse_iterate_from_step; unfold iterator_neb;
    cbn [m_ptr_to_cc m_index cc_pointer_eqb]; rewrite Nat.eqb_refl; cbn [negb orb].
  - destruct l1; [|simpl in Hn; lia].
    rewrite Hl. simpl app. rewrite (skip_free_head_used l2 Hhead). reflexivity.
  - destruct (used_split l1) as [Hfree|(l' & e & frees & -> & He & Hfree)].
    + rewrite Hl, (skip_free_app_free l1 l2 Hfree), (skip_free_head_used l2 Hhead).
      rewrite Nat.add_0_r, Z.eqb_refl, used_from_all_free by assumption. reflexivity.
    + pose proof Hs as [Hc Hlen].
      rewrite Hl, <- app_assoc in Hlen. simpl in Hlen.
      rewrite !length_app in Hlen. simpl in Hlen. rewrite length_app in Hlen.
      rewrite length_app in Hn, Hfuel. simpl in Hn, Hfuel.
      assert (Hl' : all_items c = l' ++ (e :: frees ++ l2)).
      { rewrite Hl, <- app_assoc. reflexivity. }
      pose proof (skip_free_before_used l' e (frees ++ l2) He) as Hsk.
      rewrite <- Hl' in Hsk.
      rewrite length_app. simpl length.
      destruct (Z.eqb_spec (Z.of_nat (length l' + S (length frees)))
                  (Z.of_nat (skip_free (all_items c)))); [lia|].
      destruct fuel as [|fuel]; [lia|].
      assert (at_ c (Z.of_nat (length l')) = Some e) as Hat.
      { apply at_Some. split; [lia|]. rewrite Hl', Nat2Z.id.
        apply list_lookup_middle. reflexivity. }
      assert (decrement c {| m_ptr_to_cc := Some this;
                             m_index := Z.of_nat (length l' + S (length frees)) |}
              = Some {| m_ptr_to_cc := Some this; m_index := Z.of_nat (length l') |})
        as Hdec.
      { unfold decrement. cbn [m_ptr_to_cc m_index].
        destruct (Z.ltb_spec 0 (Z.of_nat (length l' + S (length frees)))); [|lia].
        rewrite (decrement_loop_to c (length frees) _ _ (Z.of_nat (length l')));
          try assumption; try lia; [reflexivity | |].
        - rewrite (is_used_at c _ e Hat). f_equal. assumption.
        - intros k Hk.
          assert (exists x, all_items c !! Z.to_nat k = Some x /\ x ∈ frees)
            as (x & Hx & Hin).
          { destruct (frees !! (Z.to_nat k - S (length l'))%nat) as [x|] eqn:Ex.
            - exists x. split; [|eapply list_elem_of_lookup_2; eassumption].
              rewrite Hl'. rewrite lookup_app_r by lia.
              replace (Z.to_nat k - length l')%nat
                with (S (Z.to_nat k - S (length l'))) by lia.
              simpl. rewrite lookup_app_l; [assumption|].
              eapply lookup_lt_Some. eassumption.
            - apply lookup_ge_None in Ex. lia. }
          replace k with (Z.of_nat (Z.to_nat k)) by lia.
          rewrite (is_used_lookup c _ x Hs Hx). f_equal.
          rewrite Forall_forall in Hfree. apply Hfree. assumption. }
      rewrite Hdec. cbn [mbind option_bind]. unfold deref. cbn [m_index].
      rewrite Hat. cbn [mbind option_bind].
      rewrite (IH l' (e :: frees ++ l2) fuel); try assumption; try lia.
      * cbn [mbind option_bind]. f_equal.
        rewrite used_from_app. cbn [used_from]. rewrite He.
        rewrite (used_from_all_free frees) by assumption.
        rewrite rev_app_distr. reflexivity.
      * intros e' l'' [= <- <-]. assumption.
Qed.

(** X8. In a state reached by [insert] and [erase] (values with the flag
    [USED], capacity at most [bottom]), the iteration from [rbegin()] to
    [rend()] returns, and it visits what forward iteration visits, in the
    reverse order. *)
Theorem reverse_iteration_rev p (this : nat) (c : CC) :
  reachable_in_range p c ->
  exists l,
    forward_iteration this c = Some l /\ reverse_iteration this c = Some (rev l).
Proof.
  intros (Hs & _ & _ & Hsz & _)%reachable_in_range_consistent.
  pose proof Hs as [Hc Hlen].
  exists (used_cells c). split.
  - assert (size_ c = Z.of_nat (length (used_cells c))) as Hn.
    { rewrite Hsz. unfold count_used, used_cells. rewrite length_used_from. reflexivity. }
    apply forward_iteration_spec; [assumption | |].
    + intros H0. rewrite H0 in Hn. destruct (used_cells c); [reflexivity|].
      simpl in Hn. lia.
    + intros Hne. pose proof (count_used_bound c Hs). lia.
  - unfold reverse_iteration. rewrite (begin_skip_free this c Hs Hsz).
    cbn [mbind option_bind]. unfold end_, used_cells.
    replace (capacity_ c) with (Z.of_nat (length (all_items c))) at 2 by lia.
    apply (reverse_iterate_from_spec this c (length (all_items c)) (all_items c) []);
      try assumption; try lia.
    + rewrite app_nil_r. reflexivity.
    + intros e l' [=].
Qed.

End Reverse.

(** ** The cells of the free list *)

Section Linked.
Context {IT : IndexType} {T : Type} {Tr : Traits T} {St : Storage T}.

Abbreviation CC := (Compact_container_with_index_2 T).
Abbreviation Index := Index_for_cc_with_index.

Lemma free_chain_functional (c : CC) h l :
  free_chain c h l -> forall l', free_chain c h l' -> l = l'.
Proof.
  induction 1 as [|h e l Hh He Hu Hch IH]; intros l' H'.
  - destruct l' as [|x l']; [reflexivity|].
    apply free_chain_cons_inv in H' as (Heq & Hx & _). congruence.
  - destruct l' as [|x l'].
    + apply free_chain_nil_inv in H'. contradiction.
    + apply free_chain_cons_inv in H' as (<- & _ & e' & He' & _ & Hch').
      rewrite He in He'. injection He' as <-. f_equal. apply IH. assumption.
Qed.

Lemma linked_NoDup (c : CC) l : linked c l -> NoDup l.
Proof.
  intros ((_ & _ & _ & _ & l0 & Hch0 & Hnd) & Hch & _).
  rewrite (free_chain_functional c _ l Hch l0 Hch0). assumption.
Qed.

Lemma linked_init p : linked (init p : CC) [].
Proof. split; [apply consistent_init|]. split; [constructor | reflexivity]. Qed.

Lemma linked_erase (c c' : CC) x d l :
  linked c l -> erase c x = Some (c', d) ->
  linked c' (m_idx x :: l) /\ capacity_ c' = capacity_ c.
Proof.
  intros Hlk H. pose proof (linked_NoDup c l Hlk) as Hnd.
  destruct Hlk as (Hc & Hch & Hcnt).
  pose proof (consistent_erase c c' x d Hc H) as Hc'.
  destruct Hc as (Hs & Hcap & Hb & Hsz & _).
  destruct (erase_Some_inv c x c' d H) as (e & He & Ht).
  rewrite (erase_eq c x e He Ht) in H. injection H as <- <-.
  pose proof He as [Hr Hl]%at_Some.
  apply used_cell_USED in Ht.
  match goal with |- linked ?c0 _ /\ _ => set (c' := c0) in * end.
  split; [|reflexivity]. split; [assumption|]. split.
  - assert (m_idx x ∉ l) as Hnin.
    { intros Hin. destruct (free_chain_free c _ l _ Hch Hin) as (e' & He' & Hu').
      congruence. }
    pose proof bottom_ge.
    change (free_list c') with (m_idx x). econstructor.
    + lia.
    + apply (at_update_eq c c' (m_idx x) _ e); auto.
    + apply used_cell_set_val_FREE.
    + rewrite static_get_val_set_val.
      rewrite land_bottom_small by (eapply free_chain_head; eassumption).
      apply (free_chain_frame c); [assumption|].
      intros j Hj.
      apply (at_update_ne c c' (m_idx x) (static_set_val zeroed (free_list c) FREE));
        auto; [lia|].
      intros ->. contradiction.
  - pose proof (count_insert (all_items c) _ e
                  (static_set_val zeroed (free_list c) FREE) Hl) as Hn.
    rewrite Ht, used_cell_set_val_FREE in Hn.
    unfold count_used in *. cbn [length]. simpl in *. lia.
Qed.

Lemma linked_take (c : CC) t h l :
  linked c (h :: l) -> used_cell t = true ->
  exists e,
    free_list c = h /\ h <> bottom /\ at_ c h = Some e /\ used_cell e = false
    /\ linked (take_free_cell c t e) l.
Proof.
  intros Hlk Ht. pose proof (linked_NoDup c _ Hlk) as Hnd.
  destruct Hlk as (Hc & Hch & Hcnt).
  apply free_chain_cons_inv in Hch as (Hh & Hne & e & He & Hu & Hch).
  exists e. split; [assumption|]. split; [assumption|]. split; [assumption|].
  split; [assumption|].
  rewrite <- Hh in He, Hne.
  pose proof (consistent_take_free_cell c t e Hc Hne He Ht) as Hc'.
  destruct Hc as (Hs & Hcap & Hb & Hsz & _).
  apply NoDup_cons in Hnd as [Hnin Hnd].
  pose proof He as [Hr Hl]%at_Some.
  split; [assumption|]. split.
  - simpl. apply (free_chain_frame c); [assumption|].
    intros j Hj. apply (at_update_ne c _ (free_list c) t); simpl; auto; [lia|].
    intros ->. rewrite Hh in Hj. contradiction.
  - pose proof (count_insert (all_items c) _ e t Hl) as Hn.
    rewrite Hu, Ht in Hn.
    unfold count_used in *. simpl in *. lia.
Qed.

Lemma linked_grown p (c : CC) :
  linked c [] -> 0 < block_size c -> capacity_ c + block_size c <= bottom ->
  linked (grown p c) (seqZ (capacity_ c) (block_size c)).
Proof.
  intros (Hc & Hch & Hcnt) Hpos Hle.
  apply free_chain_nil_inv in Hch as Hf.
  pose proof (consistent_grown p c Hc Hf Hpos Hle) as Hc'.
  destruct Hc as (Hs & _).
  split; [assumption|]. split.
  - destruct (grown_fields p c) as (_ & _ & -> & _).
    pose proof (free_chain_grown p c Hs Hf Hle (Z.to_nat (block_size c)) ltac:(lia))
      as H.
    destruct (Z.to_nat (block_size c)) eqn:E; [lia|]. rewrite <- E in H.
    replace (capacity_ c + block_size c - Z.of_nat (Z.to_nat (block_size c)))
      with (capacity_ c) in H by lia.
    replace (Z.of_nat (Z.to_nat (block_size c))) with (block_size c) in H by lia.
    exact H.
  - rewrite count_used_grown, length_seqZ.
    destruct (grown_fields p c) as (-> & _). simpl in Hcnt. lia.
Qed.

(** The head of the free list is [bottom] exactly when every cell is used. *)
Lemma linked_full (c : CC) l :
  linked c l -> (free_list c = bottom <-> size_ c = capacity_ c).
Proof.
  intros Hlk. pose proof Hlk as ((_ & _ & _ & Hsz & _) & Hch & Hcnt).
  rewrite Hsz. split.
  - intros Hf. rewrite Hf in Hch.
    rewrite <- (free_chain_functional c _ [] (free_chain_nil c) l Hch) in Hcnt.
    simpl in Hcnt. lia.
  - intros Hfull. destruct l as [|h l]; [|simpl in Hcnt; lia].
    apply free_chain_nil_inv in Hch. assumption.
Qed.

(** What [insert] does to the free list: it takes the head, or, when the
    list is empty, the first cell of a new block. *)
Lemma linked_insert p (c c' : CC) t r d l :
  linked c l -> used_cell t = true ->
  insert p c t = Some (r, c', d) -> capacity_ c' <= bottom ->
  (exists l', l = m_idx r :: l' /\ linked c' l' /\ capacity_ c' = capacity_ c
              /\ d = [])
  \/ (l = [] /\ m_idx r = capacity_ c
      /\ capacity_ c' = capacity_ c + block_size c
      /\ linked c' (seqZ (capacity_ c + 1) (block_size c - 1))).
Proof.
  intros Hlk Ht H Hcap.
  destruct (insert_Some_inv p c t r c' d H)
    as (c1 & e & [(Hne & -> & ->)|(Hb & Ha)] & He & -> & ->).
  - left. destruct l as [|h l].
    + destruct Hlk as (_ & Hch & _). apply free_chain_nil_inv in Hch. contradiction.
    + destruct (linked_take c t h l Hlk Ht) as (e' & Hh & _ & He' & _ & Hlk').
      rewrite Hh in He. rewrite He in He'. injection He' as <-.
      exists l. cbn [m_idx]. rewrite Hh. auto.
  - right. pose proof Hlk as ((Hs & _ & Hbs & _) & Hch & _).
    destruct (allocate_new_block_Some p c c1 d Hs Hbs Ha) as (Hpos & Hm & -> & _).
    simpl in Hcap. destruct (grown_fields p c) as (Hg1 & _ & Hg3 & _).
    rewrite Hg1 in Hcap. rewrite Hb in Hch.
    pose proof (free_chain_functional c _ [] (free_chain_nil c) l Hch) as <-.
    pose proof (linked_grown p c Hlk Hpos Hcap) as Hlk1.
    rewrite seqZ_cons in Hlk1 by lia.
    destruct (linked_take (grown p c) t _ _ Hlk1 Ht) as (e' & Hh & _ & He' & _ & Hlk').
    rewrite Hh in He. rewrite He in He'. injection He' as <-.
    cbn [m_idx]. rewrite Hg3. split; [reflexivity|]. split; [reflexivity|].
    split; [simpl; assumption|].
    replace (Z.succ (capacity_ c)) with (capacity_ c + 1) in Hlk' by lia.
    replace (Z.pred (block_size c)) with (block_size c - 1) in Hlk' by lia.
    assumption.
Qed.

Lemma reachable_in_range_linked p (c : CC) :
  reachable_in_range p c -> exists l, linked c l.
Proof.
  induction 1 as [|c t r c' d _ [l IH] Ht H Hcap|c x c' d _ [l IH] H].
  - exists []. apply linked_init.
  - apply used_cell_USED in Ht.
    destruct (linked_insert p c c' t r d l IH Ht H Hcap)
      as [(l' & _ & Hlk & _)|(_ & _ & _ & Hlk)]; eauto.
  - exists (m_idx x :: l). eapply linked_erase; eassumption.
Qed.

End Linked.

(** ** Reuse of the slots *)

Section Reuse.
Context {IT : IndexType} {T : Type} {Tr : Traits T} {St : Storage T}.

Abbreviation CC := (Compact_container_with_index_2 T).
Abbreviation Index := Index_for_cc_with_index.

(** X9. In a state reached by [insert] and [erase] (values with the flag
    [USED], capacity at most [bottom]), [insert] never returns the index of
    a used cell, and it leaves every used cell at its index with its value,
    also when it grows the container. *)
Theorem insert_keeps_live_elements p (c c' : CC) t r d :
  reachable_in_range p c -> insert p c t = Some (r, c', d) ->
  forall j e, at_ c j = Some e -> used_cell e = true ->
    j <> m_idx r /\ at_ c' j = Some e.
Proof.
  intros (Hs & _ & Hbs & _ & l & Hch & _)%reachable_in_range_consistent H j e Hj Hu.
  destruct (insert_Some_inv p c t r c' d H)
    as (c1 & e0 & [(Hne & -> & ->)|(Hb & Ha)] & He & -> & ->); cbn [m_idx].
  - assert (j <> free_list c) as Hjr.
    { intros ->. destruct l as [|h l].
      - apply free_chain_nil_inv in Hch. contradiction.
      - apply free_chain_cons_inv in Hch as (Hh & _ & e' & He' & Hu' & _).
        rewrite <- Hh in He'. congruence. }
    split; [assumption|].
    rewrite <- Hj. apply (at_update_ne c _ (free_list c) t); auto.
    apply at_Some in He. lia.
  - destruct (allocate_new_block_Some p c c1 d Hs Hbs Ha) as (Hpos & Hm & -> & _).
    destruct (grown_fields p c) as (Hg1 & _ & Hg3 & _).
    pose proof Hj as [Hr _]%at_Some. rewrite Hg3.
    split; [lia|].
    pose proof (at_grown_old p c j e Hs ltac:(lia) Hj) as Hold.
    unfold moved_cell in Hold. rewrite Hu in Hold. rewrite <- Hold.
    apply (at_update_ne (grown p c) _ (free_list (grown p c)) t); auto.
    + rewrite Hg3. destruct Hs. lia.
    + rewrite Hg3. lia.
Qed.

(** X10. In such a state [size()] is at most [capacity()], and [insert]
    adds a block exactly when they are equal: below, it takes a free cell
    of the array and destroys nothing; at equality, the capacity grows by
    [block_size] and the index returned is the old capacity. *)
Theorem insert_grows_when_full p (c c' : CC) t r d :
  reachable_in_range p c -> insert p c t = Some (r, c', d) ->
  size c <= capacity c
  /\ (size c < capacity c ->
      capacity c' = capacity c /\ d = [] /\ is_used c (m_idx r) = Some false)
  /\ (size c = capacity c ->
      capacity c' = capacity c + block_size c /\ m_idx r = capacity c).
Proof.
  intros [l Hlk]%reachable_in_range_linked H.
  pose proof (linked_full c l Hlk) as Hfull.
  pose proof Hlk as ((Hs & _ & Hbs & Hsz & _) & Hch & Hcnt).
  unfold size, capacity.
  split; [rewrite Hsz; apply count_used_bound; assumption|].
  destruct (insert_Some_inv p c t r c' d H)
    as (c1 & e0 & [(Hne & -> & ->)|(Hb & Ha)] & He & -> & ->); cbn [m_idx].
  - split; [|intros Heq; apply Hfull in Heq; contradiction].
    intros _. split; [reflexivity|]. split; [reflexivity|].
    destruct l as [|h l].
    + apply free_chain_nil_inv in Hch. contradiction.
    + apply free_chain_cons_inv in Hch as (Hh & _ & e' & He' & Hu' & _).
      rewrite <- Hh in He'.
      rewrite (is_used_at c _ e' He'). f_equal. assumption.
  - split; [intros Hlt; apply Hfull in Hb; lia|].
    intros _.
    destruct (allocate_new_block_Some p c c1 d Hs Hbs Ha) as (_ & _ & -> & _).
    destruct (grown_fields p c) as (Hg1 & _ & Hg3 & _).
    simpl. rewrite Hg1, Hg3. auto.
Qed.

Lemma linked_erase_each (xs : list Index) : forall (c c1 : CC) l d,
  linked c l -> erase_each c xs = Some (c1, d) ->
  linked c1 (rev (m_idx <$> xs) ++ l) /\ capacity_ c1 = capacity_ c.
Proof.
  induction xs as [|x xs IH]; intros c c1 l d Hlk H.
  - injection H as <- <-. auto.
  - cbn [erase_each] in H.
    destruct (erase c x) as [[c' d1]|] eqn:E; [|discriminate].
    cbn [mbind option_bind] in H.
    destruct (erase_each c' xs) as [[c2 d2]|] eqn:E2; [|discriminate].
    injection H as <- <-.
    destruct (linked_erase c c' x d1 l Hlk E) as [Hlk' Hcap].
    destruct (IH c' c2 _ d2 Hlk' E2) as [Hlk2 Hcap2].
    split; [|congruence].
    rewrite fmap_cons. cbn [rev]. rewrite <- app_assoc. exact Hlk2.
Qed.

Lemma linked_insert_range_pop p (ts : list T) : forall (c : CC) l1 l2,
  linked c (l1 ++ l2) -> length ts = length l1 ->
  Forall (fun t => used_cell t = true) ts ->
  exists c',
    insert_range p c ts = Some ((fun i => {| m_idx := i |}) <$> l1, c', [])
    /\ linked c' l2 /\ capacity_ c' = capacity_ c.
Proof.
  induction ts as [|t ts IH]; intros c l1 l2 Hlk Hlen Hts.
  - destruct l1; [|discriminate]. exists c. auto.
  - destruct l1 as [|h l1]; [discriminate|].
    apply Forall_cons in Hts as [Ht Hts].
    destruct (linked_take c t h (l1 ++ l2) Hlk Ht) as (e & Hh & Hne & He & _ & Hlk').
    rewrite <- Hh in Hne, He.
    pose proof (insert_no_growth p c t e Hne He) as Hins.
    destruct (IH (take_free_cell c t e) l1 l2 Hlk' ltac:(simpl in Hlen; lia) Hts)
      as (c' & Hrange & Hlk2 & Hcap).
    exists c'. split; [|auto].
    cbn [insert_range]. rewrite Hins. cbn [mbind option_bind].
    rewrite Hrange. cbn [mbind option_bind]. rewrite Hh. reflexivity.
Qed.

Lemma Index_rev (xs : list Index) :
  (fun i => {| m_idx := i |}) <$> rev (m_idx <$> xs) = rev xs.
Proof.
  induction xs as [|[x] xs IH]; [reflexivity|].
  rewrite fmap_cons. cbn [rev]. rewrite fmap_app, IH. reflexivity.
Qed.

(** X12. The free list is a stack.  In a state reached by [insert] and
    [erase] (values with the flag [USED], capacity at most [bottom]), after
    calls of [erase] for the indices [xs], as many calls of [insert] return
    the indices [xs] in the reverse order; they add no block and destroy
    nothing. *)
Theorem erased_slots_reused_in_reverse p (c c1 : CC) xs d ts :
  reachable_in_range p c -> erase_each c xs = Some (c1, d) ->
  Forall (fun t => static_type t = USED) ts -> length ts = length xs ->
  exists c2,
    insert_range p c1 ts = Some (rev xs, c2, [])
    /\ capacity c2 = capacity c.
Proof.
  intros [l Hlk]%reachable_in_range_linked He Hts Hlen.
  destruct (linked_erase_each xs c c1 l d Hlk He) as [Hlk1 Hcap1].
  destruct (linked_insert_range_pop p ts c1 (rev (m_idx <$> xs)) l Hlk1) as (c2 & H & _ & Hcap2).
  - rewrite length_rev, length_fmap. assumption.
  - eapply Forall_impl; [exact Hts|]. intros t0 Ht0. apply used_cell_USED. assumption.
  - exists c2. rewrite Index_rev in H. split; [assumption|].
    unfold capacity. congruence.
Qed.

End Reuse.

(** ** The growth policies *)

Section Policies.
Context {IT : IndexType} {T : Type} {Tr : Traits T} {St : Storage T}.

Abbreviation CC := (Compact_container_with_index_2 T).

Lemma insert_shape p (c c' : CC) t r d :
  sized c -> 0 <= block_size c < modulus ->
  insert p c t = Some (r, c', d) ->
  (capacity_ c' = capacity_ c /\ block_size c' = block_size c)
  \/ (0 < block_size c /\ capacity_ c + block_size c < modulus
      /\ capacity_ c' = capacity_ c + block_size c
      /\ block_size c'
         = match p with
           | Multiply_by_two_policy_for_cc_with_size _ => capacity_ c + block_size c
           | Constant_size_policy_for_cc_with_size _ => block_size c
           end).
Proof.
  intros Hs Hbs H.
  destruct (insert_Some_inv p c t r c' d H)
    as (c1 & e & [(Hne & -> & ->)|(Hb & Ha)] & He & -> & ->).
  - left. auto.
  - right.
    destruct (allocate_new_block_Some p c c1 d Hs Hbs Ha) as (Hpos & Hm & -> & _).
    destruct (grown_fields p c) as (Hg1 & _).
    cbn [take_free_cell capacity_ block_size]. rewrite Hg1, grown_block_size. auto.
Qed.

Lemma erase_shape (c c' : CC) x d :
  erase c x = Some (c', d) ->
  capacity_ c' = capacity_ c /\ block_size c' = block_size c.
Proof.
  intros H. destruct (erase_Some_inv c x c' d H) as (e & He & Ht).
  rewrite (erase_eq c x e He Ht) in H. injection H as <- <-. auto.
Qed.

Lemma reachable_block_size p (c : CC) :
  reachable p c ->
  match p with
  | Multiply_by_two_policy_for_cc_with_size k =>
      (capacity_ c = 0 /\ block_size c = wrap k)
      \/ (0 < capacity_ c /\ block_size c = capacity_ c
          /\ exists j : nat, capacity_ c = wrap k * 2 ^ Z.of_nat j)
  | Constant_size_policy_for_cc_with_size k =>
      block_size c = wrap k /\ exists m : nat, capacity_ c = Z.of_nat m * wrap k
  end.
Proof.
  induction 1 as [|c t r c' d Hr IH H|c x c' d Hr IH H|c c' d Hr IH H].
  - destruct p as [k|k]; [left; auto|]. split; [reflexivity|]. exists O. reflexivity.
  - destruct (reachable_sized p c Hr) as [Hs Hbs].
    destruct (insert_shape p c c' t r d Hs Hbs H)
      as [[-> ->]|(Hpos & Hm & -> & ->)]; [assumption|].
    destruct p as [k|k].
    + right. destruct IH as [[Hc Hb]|(Hc & Hb & j & Hj)].
      * rewrite Hc, Hb in *. split; [lia|]. split; [reflexivity|].
        exists O. change (2 ^ Z.of_nat 0) with 1. lia.
      * rewrite Hb. split; [lia|]. split; [reflexivity|].
        exists (S j). rewrite Nat2Z.inj_succ, Z.pow_succ_r by lia. lia.
    + destruct IH as [Hb (m & Hm')]. split; [assumption|].
      exists (S m). rewrite Hb, Hm'. lia.
  - destruct (erase_shape c c' x d H) as [-> ->]. assumption.
  - apply clear_Some_inv in H. subst c'.
    destruct p as [k|k]; [left; auto|]. split; [reflexivity|]. exists O. reflexivity.
Qed.

(** X13. With [Multiply_by_two_policy_for_cc_with_size<k>], in every state
    reached by [insert], [erase] and [clear]: the capacity is 0, or it is
    [k] times a power of two and the next block has as many cells as the
    container; an [insert] that grows the container gives it [k] cells
    when it had none and doubles its capacity otherwise. *)
Theorem multiply_by_two_policy_doubles k (c : CC) :
  reachable (Multiply_by_two_policy_for_cc_with_size k) c ->
  ((capacity c = 0 /\ block_size c = wrap k)
   \/ (0 < capacity c /\ block_size c = capacity c
       /\ exists j : nat, capacity c = wrap k * 2 ^ Z.of_nat j))
  /\ (forall t r c' d,
        insert (Multiply_by_two_policy_for_cc_with_size k) c t = Some (r, c', d) ->
        capacity c' <> capacity c ->
        capacity c' = if capacity c =? 0 then wrap k else 2 * capacity c).
Proof.
  intros Hr. pose proof (reachable_block_size _ c Hr) as Hinv. cbn beta iota in Hinv.
  split; [exact Hinv|].
  intros t r c' d H Hne. unfold capacity in *.
  destruct (reachable_sized _ c Hr) as [Hs Hbs].
  destruct (insert_shape _ c c' t r d Hs Hbs H) as [[Hc _]|(_ & _ & Hc & _)];
    [contradiction|].
  rewrite Hc. destruct Hinv as [[Hz Hb]|(Hpos & Hb & _)].
  - rewrite Hz, Hb. reflexivity.
  - destruct (Z.eqb_spec (capacity_ c) 0); lia.
Qed.

(** X14. With [Constant_size_policy_for_cc_with_size<k>], in every state
    reached by [insert], [erase] and [clear]: the block size is [k] and the
    capacity is a multiple of [k]; an [insert] that grows the container
    adds [k] cells. *)
Theorem constant_size_policy_blocks k (c : CC) :
  reachable (Constant_size_policy_for_cc_with_size k) c ->
  block_size c = wrap k
  /\ (exists m : nat, capacity c = Z.of_nat m * wrap k)
  /\ (forall t r c' d,
        insert (Constant_size_policy_for_cc_with_size k) c t = Some (r, c', d) ->
        capacity c' <> capacity c ->
        capacity c' = capacity c + wrap k).
Proof.
  intros Hr. pose proof (reachable_block_size _ c Hr) as [Hb Hm]. cbn beta iota in *.
  split; [exact Hb|]. split; [exact Hm|].
  intros t r c' d H Hne. unfold capacity in *.
  destruct (reachable_sized _ c Hr) as [Hs Hbs].
  destruct (insert_shape _ c c' t r d Hs Hbs H) as [[Hc _]|(_ & _ & Hc & _)];
    [contradiction|].
  rewrite Hc, Hb. reflexivity.
Qed.

End Policies.

(** ** Iteration after [erase] and [insert] *)

Section Iteration_after.
Context {IT : IndexType} {T : Type} {Tr : Traits T} {St : Storage T}.

Abbreviation CC := (Compact_container_with_index_2 T).

(** Forward iteration of a container that satisfies the invariant. *)
Lemma consistent_iteration (this : nat) (c : CC) :
  consistent c -> forward_iteration this c = Some (used_cells c).
Proof.
  intros (Hs & _ & _ & Hsz & _).
  assert (size_ c = Z.of_nat (length (used_cells c))) as Hn.
  { rewrite Hsz. unfold count_used, used_cells. rewrite length_used_from. reflexivity. }
  apply forward_iteration_spec; [assumption | |].
  - intros H0. rewrite H0 in Hn. destruct (used_cells c); [reflexivity|].
    simpl in Hn. lia.
  - intros Hne. pose proof (count_used_bound c Hs). lia.
Qed.

Lemma used_from_bounds (l : list T) : forall i,
  Forall (fun ie => i <= ie.1 < i + Z.of_nat (length l)) (used_from i l).
Proof.
  induction l as [|e l IH]; intros i; simpl; [constructor|].
  assert (Forall (fun ie : Z * T => i <= ie.1 < i + Z.pos (Pos.of_succ_nat (length l)))
            (used_from (i + 1) l)) as Hrest.
  { eapply Forall_impl; [apply IH|]. simpl. intros ie Hie. lia. }
  destruct (used_cell e); [constructor; [simpl; lia | assumption] | assumption].
Qed.

(** The used cells around the cell [k]. *)
Lemma used_from_middle (l : list T) (k : nat) e :
  l !! k = Some e ->
  exists l1 l2,
    (forall v, used_from 0 (<[k := v]> l)
               = l1 ++ (if used_cell v then [(Z.of_nat k, v)] else []) ++ l2)
    /\ Forall (fun ie => ie.1 < Z.of_nat k) l1
    /\ Forall (fun ie => Z.of_nat k < ie.1) l2.
Proof.
  intros He. apply lookup_lt_Some in He as Hk.
  exists (used_from 0 (take k l)), (used_from (Z.of_nat k + 1) (drop (S k) l)).
  split; [|split].
  - intros v. rewrite insert_take_drop by assumption.
    rewrite used_from_app, length_take. cbn [used_from].
    replace (0 + Z.of_nat (k `min` length l)) with (Z.of_nat k) by lia.
    destruct (used_cell v); reflexivity.
  - eapply Forall_impl; [apply used_from_bounds|]. simpl. intros ie Hie.
    rewrite length_take in Hie. lia.
  - eapply Forall_impl; [apply used_from_bounds|]. simpl. intros ie Hie. lia.
Qed.

Lemma used_from_moved (l : list T) : forall i,
  used_from i (moved_cell <$> l) = used_from i l.
Proof.
  induction l as [|e l IH]; intros i; [reflexivity|].
  rewrite fmap_cons. cbn [used_from]. rewrite used_cell_moved, IH.
  unfold moved_cell. destruct (used_cell e); reflexivity.
Qed.

Lemma used_cells_grown p (c : CC) : used_cells (grown p c) = used_cells c.
Proof.
  unfold used_cells. destruct (grown_fields p c) as (_ & _ & _ & ->).
  unfold grown_items. rewrite used_from_app, used_from_moved.
  rewrite (used_from_all_free (fresh_cell c <$> _)); [apply app_nil_r|].
  apply Forall_fmap, Forall_forall. intros i _. apply used_cell_set_val_FREE.
Qed.

(** X15. In a state reached by [insert] and [erase] (values with the flag
    [USED], capacity at most [bottom]), [erase(x)] takes the position [x]
    out of the forward iteration and destroys the element there; the other
    positions are visited as before, in the same order. *)
Theorem erase_iteration p (this : nat) (c c' : CC) x d :
  reachable_in_range p c -> erase c x = Some (c', d) ->
  exists l1 e l2,
    forward_iteration this c = Some (l1 ++ (m_idx x, e) :: l2)
    /\ forward_iteration this c' = Some (l1 ++ l2)
    /\ d = [e].
Proof.
  intros Hr H.
  pose proof (reachable_in_range_consistent p c' (in_range_erase p c x c' d Hr H)) as Hc'.
  apply reachable_in_range_consistent in Hr as Hc.
  rewrite (consistent_iteration this c Hc), (consistent_iteration this c' Hc').
  destruct (erase_Some_inv c x c' d H) as (e & He & Ht).
  rewrite (erase_eq c x e He Ht) in H. injection H as <- <-.
  apply used_cell_USED in Ht. apply at_Some in He as [Hx He].
  destruct (used_from_middle (all_items c) _ e He) as (l1 & l2 & Hm & _).
  exists l1, e, l2. unfold used_cells. cbn [all_items].
  rewrite (Hm (static_set_val zeroed (free_list c) FREE)), used_cell_set_val_FREE.
  rewrite <- (list_insert_id (all_items c) _ e He) at 1.
  rewrite (Hm e), Ht. rewrite Z2Nat.id by lia. auto.
Qed.

Lemma used_cells_take_free_cell (c : CC) t e :
  at_ c (free_list c) = Some e -> used_cell e = false -> used_cell t = true ->
  exists l1 l2,
    used_cells c = l1 ++ l2
    /\ used_cells (take_free_cell c t e) = l1 ++ (free_list c, t) :: l2
    /\ Forall (fun ie => ie.1 < free_list c) l1
    /\ Forall (fun ie => free_list c < ie.1) l2.
Proof.
  intros [Hr He]%at_Some Hu Ht.
  destruct (used_from_middle (all_items c) _ e He) as (l1 & l2 & Hm & H1 & H2).
  rewrite Z2Nat.id in * by lia.
  exists l1, l2. unfold used_cells. cbn [take_free_cell all_items].
  rewrite (Hm t), Ht.
  rewrite <- (list_insert_id (all_items c) _ e He) at 1.
  rewrite (Hm e), Hu. auto.
Qed.

(** X16. In such a state, an [insert] of a value with the flag [USED]
    that leaves the capacity at [bottom] or below adds one position to the
    forward iteration, at the index returned and with the value inserted;
    the other positions are visited as before, and the positions stay in
    ascending order of the index. *)
Theorem insert_iteration p (this : nat) (c c' : CC) t r d :
  reachable_in_range p c -> static_type t = USED ->
  insert p c t = Some (r, c', d) -> capacity_ c' <= bottom ->
  exists l1 l2,
    forward_iteration this c = Some (l1 ++ l2)
    /\ forward_iteration this c' = Some (l1 ++ (m_idx r, t) :: l2)
    /\ Forall (fun ie => ie.1 < m_idx r) l1
    /\ Forall (fun ie => m_idx r < ie.1) l2.
Proof.
  intros Hr Ht H Hcap.
  pose proof (reachable_in_range_consistent p c'
                (in_range_insert p c t r c' d Hr Ht H Hcap)) as Hc'.
  apply reachable_in_range_consistent in Hr as Hc.
  rewrite (consistent_iteration this c Hc), (consistent_iteration this c' Hc').
  apply used_cell_USED in Ht.
  pose proof Hc as (Hs & _ & Hbs & _ & l & Hch & _).
  assert (forall (c1 : CC) e0,
            at_ c1 (free_list c1) = Some e0 -> used_cell e0 = false ->
            used_cells c1 = used_cells c ->
            exists l1 l2,
              Some (used_cells c) = Some (l1 ++ l2)
              /\ Some (used_cells (take_free_cell c1 t e0))
                 = Some (l1 ++ (free_list c1, t) :: l2)
              /\ Forall (fun ie => ie.1 < free_list c1) l1
              /\ Forall (fun ie => free_list c1 < ie.1) l2) as Hstep.
  { intros c1 e0 He Hu Heq.
    destruct (used_cells_take_free_cell c1 t e0 He Hu Ht) as (l1 & l2 & E1 & E2 & H1 & H2).
    exists l1, l2. rewrite <- Heq, E1, E2. auto. }
  destruct (insert_Some_inv p c t r c' d H)
    as (c1 & e0 & [(Hne & -> & ->)|(Hb & Ha)] & He & -> & ->); cbn [m_idx].
  - apply Hstep; [assumption| |reflexivity].
    destruct l as [|h l].
    + apply free_chain_nil_inv in Hch. contradiction.
    + apply free_chain_cons_inv in Hch as (Hh & _ & e' & He' & Hu' & _).
      rewrite <- Hh in He'. congruence.
  - destruct (allocate_new_block_Some p c c1 d Hs Hbs Ha) as (Hpos & Hm & -> & _).
    apply Hstep; [assumption| |apply used_cells_grown].
    destruct (grown_fields p c) as (_ & _ & Hg3 & _). rewrite Hg3 in He.
    rewrite (at_grown_new p c (capacity_ c) Hs ltac:(lia)) in He.
    injection He as <-. apply used_cell_set_val_FREE.
Qed.

End Iteration_after.

(** ** Erasing a range *)

Section Erase_range.
Context {IT : IndexType} {T : Type} {Tr : Traits T} {St : Storage T}.

Abbreviation CC := (Compact_container_with_index_2 T).

Lemma erase_range_step fuel (c : CC) first last :
  erase_range fuel c first last
  = if iterator_neb first last then
      match fuel with
      | O => None
      | S fuel' =>
          first' ← increment c first;
          '(c1, d1) ← erase c (Index_of_iterator first);
          '(c2, d2) ← erase_range fuel' c1 first' last;
          Some (c2, d1 ++ d2)
      end
    else Some (c, []).
Proof. destruct fuel; reflexivity. Qed.

Lemma skip_free_take (l : list T) :
  Forall (fun e => used_cell e = false) (take (skip_free l) l).
Proof.
  induction l as [|e l IH]; simpl; [constructor|].
  destruct (used_cell e) eqn:E; simpl; [constructor|].
  constructor; assumption.
Qed.

Lemma filter_free (l : list T) :
  Forall (fun e => used_cell e = false) l -> List.filter used_cell l = [].
Proof. apply filter_nil_free. Qed.

Lemma insert_middle (l1 l2 : list T) e v :
  <[length l1 := v]> (l1 ++ e :: l2) = l1 ++ v :: l2.
Proof.
  induction l1 as [|x l1 IH]; simpl; [reflexivity|]. f_equal. exact IH.
Qed.

(** [erase(first, last)] on a range that starts at a used cell or is
    empty, and that ends at a used cell or at [end()]: the cells of the
    range are [l2]. *)
Lemma erase_range_spec (this : nat) : forall (n : nat) (l2 l1 l3 : list T) (c : CC) fuel,
  (length l2 <= n)%nat ->
  sized c -> all_items c = l1 ++ l2 ++ l3 ->
  (forall e l', l2 = e :: l' -> used_cell e = true) ->
  (forall e l', l3 = e :: l' -> used_cell e = true) ->
  Z.of_nat (length (List.filter used_cell l2)) <= size_ c < modulus ->
  (length (List.filter used_cell l2) <= fuel)%nat ->
  exists c' l2',
    erase_range fuel c
      {| m_ptr_to_cc := Some this; m_index := Z.of_nat (length l1) |}
      {| m_ptr_to_cc := Some this; m_index := Z.of_nat (length l1 + length l2) |}
    = Some (c', List.filter used_cell l2)
    /\ all_items c' = l1 ++ l2' ++ l3
    /\ length l2' = length l2
    /\ Forall (fun e => used_cell e = false) l2'
    /\ capacity_ c' = capacity_ c /\ block_size c' = block_size c
    /\ size_ c' = size_ c - Z.of_nat (length (List.filter used_cell l2)).
Proof.
  induction n as [|n IH]; intros l2 l1 l3 c fuel Hn Hs Hl Hh2 Hh3 Hsz Hfuel;
    rewrite erase_range_step; unfold iterator_neb;
    cbn [m_ptr_to_cc m_index cc_pointer_eqb]; rewrite Nat.eqb_refl; cbn [negb orb].
  - destruct l2; [|simpl in Hn; lia]. simpl. rewrite Nat.add_0_r, Z.eqb_refl.
    cbn [negb]. exists c, []. simpl. split; [reflexivity|].
    split; [assumption|]. repeat (split; [auto; lia|]). lia.
  - destruct l2 as [|e l2].
    { simpl. rewrite Nat.add_0_r, Z.eqb_refl.
      cbn [negb]. exists c, []. simpl. split; [reflexivity|].
      split; [assumption|]. repeat (split; [auto; lia|]). lia. }
    pose proof (Hh2 e l2 eq_refl) as He.
    pose proof Hs as [Hc Hlen]. rewrite Hl in Hlen.
    rewrite !length_app in Hlen. cbn [length] in Hlen, Hn.
    destruct (Z.eqb_spec (Z.of_nat (length l1))
                (Z.of_nat (length l1 + length (e :: l2)))) as [Heq|_];
      [simpl in Heq; lia|]. cbn [negb].
    cbn [List.filter] in Hsz, Hfuel |- *. rewrite He in Hsz, Hfuel |- *.
    cbn [length] in Hsz, Hfuel.
    destruct fuel as [|fuel]; [lia|].
    (* the increment *)
    set (s := skip_free (l2 ++ l3)).
    assert (s <= length l2)%nat as Hsl.
    { unfold s. destruct l3 as [|e3 l3].
      - rewrite app_nil_r. apply skip_free_le.
      - apply skip_free_before_used. apply (Hh3 e3 l3 eq_refl). }
    assert (increment c {| m_ptr_to_cc := Some this; m_index := Z.of_nat (length l1) |}
            = Some {| m_ptr_to_cc := Some this;
                      m_index := Z.of_nat (length l1 + 1 + s) |}) as Hinc.
    { unfold increment. cbn [m_ptr_to_cc m_index].
      destruct (Z.ltb_spec (Z.of_nat (length l1)) (capacity_ c)); [|lia].
      pose proof (increment_loop_spec c (l2 ++ l3) (l1 ++ [e]) (Z.to_nat (capacity_ c)) Hs)
        as Hloop.
      rewrite <- app_assoc in Hloop. specialize (Hloop Hl).
      rewrite length_app in Hloop. cbn [length] in Hloop.
      replace (Z.of_nat (length l1 + 1) - 1) with (Z.of_nat (length l1)) in Hloop by lia.
      rewrite Hloop by (fold s; lia). cbn [mbind option_bind]. fold s.
      do 2 f_equal. lia. }
    rewrite Hinc. cbn [mbind option_bind].
    (* the call of [erase] *)
    assert (at_ c (Z.of_nat (length l1)) = Some e) as Hat.
    { apply at_Some. split; [lia|]. rewrite Hl, Nat2Z.id.
      apply list_lookup_middle. reflexivity. }
    unfold Index_of_iterator. cbn [m_index].
    rewrite (erase_eq c {| m_idx := Z.of_nat (length l1) |} e Hat
               (proj1 (used_cell_USED e) He)).
    cbn [mbind option_bind m_idx]. rewrite Nat2Z.id.
    set (e' := static_set_val zeroed (free_list c) FREE).
    set (c1 := {| capacity_ := capacity_ c; size_ := wrap (size_ c - 1);
                  block_size := block_size c; free_list := Z.of_nat (length l1);
                  all_items := <[length l1 := e']> (all_items c) |}).
    (* the rest of the range *)
    assert (Hsplit : l2 = take s l2 ++ drop s l2) by (symmetry; apply take_drop).
    assert (Hfrees : Forall (fun x => used_cell x = false) (take s l2)).
    { pose proof (skip_free_take (l2 ++ l3)) as Hf. fold s in Hf.
      rewrite take_app_le in Hf by assumption. assumption. }
    assert (Hrest : forall x l', drop s l2 = x :: l' -> used_cell x = true).
    { intros x l' Hd. apply (drop_skip_free_head (l2 ++ l3) x (l' ++ l3)).
      fold s. rewrite drop_app_le by assumption. rewrite Hd. reflexivity. }
    assert (Hl1 : all_items c1 = (l1 ++ e' :: take s l2) ++ drop s l2 ++ l3).
    { unfold c1. cbn [all_items]. rewrite Hl. cbn [app]. rewrite insert_middle.
      rewrite <- app_assoc. cbn [app]. rewrite (app_assoc (take s l2)), <- Hsplit.
      reflexivity. }
    assert (Hs1 : sized c1).
    { apply (sized_same_shape c); [reflexivity | | assumption].
      unfold c1. cbn [all_items]. apply length_insert. }
    assert (Hcount : List.filter used_cell l2 = List.filter used_cell (drop s l2)).
    { rewrite Hsplit at 1. rewrite List.filter_app, (filter_free _ Hfrees). reflexivity. }
    assert (Hw : wrap (size_ c - 1) = size_ c - 1) by (apply wrap_small; lia).
    destruct (IH (drop s l2) (l1 ++ e' :: take s l2) l3 c1 fuel) as
      (c' & l2' & Hrun & Hl' & Hlen' & Hfree' & Hcap' & Hbs' & Hsz'); try assumption.
    + rewrite length_drop. lia.
    + unfold c1. cbn [size_]. rewrite Hw, <- Hcount. lia.
    + rewrite <- Hcount. lia.
    + rewrite length_app in Hrun. cbn [length] in Hrun.
      rewrite length_take, length_drop in Hrun.
      replace (length l1 + S (s `min` length l2))%nat with (length l1 + 1 + s)%nat
        in Hrun by lia.
      replace (length l1 + 1 + s + (length l2 - s))%nat
        with (length l1 + length (e :: l2))%nat in Hrun by (cbn [length]; lia).
      rewrite Hrun. cbn [mbind option_bind].
      exists c', (e' :: take s l2 ++ l2').
      rewrite <- Hcount. split; [reflexivity|].
      split; [rewrite Hl', <- app_assoc; simpl; rewrite <- app_assoc; reflexivity|].
      split.
      { cbn [length]. rewrite length_app, length_take, Hlen', length_drop. lia. }
      split.
      { constructor; [apply used_cell_set_val_FREE|].
        apply Forall_app. split; assumption. }
      split; [assumption|]. split; [assumption|].
      rewrite Hsz'. unfold c1. cbn [size_ length]. rewrite Hw, <- Hcount. lia.
Qed.

End Erase_range.

(** ** The cells of an erased range *)

Section Erase_range_cells.
Context {IT : IndexType} {T : Type} {Tr : Traits T} {St : Storage T}.

Abbreviation CC := (Compact_container_with_index_2 T).

(** The used cells between the indices [i] and [j], in ascending order. *)
Lemma erase_range_cells (this : nat) (c : CC) i j fuel :
  sized c -> size_ c = count_used c ->
  0 <= i <= j -> j <= capacity_ c ->
  i = j \/ is_used c i = Some true ->
  j = capacity_ c \/ is_used c j = Some true ->
  (length (List.filter used_cell
             (take (Z.to_nat (j - i)) (drop (Z.to_nat i) (all_items c)))) <= fuel)%nat ->
  exists c',
    erase_range fuel c {| m_ptr_to_cc := Some this; m_index := i |}
                       {| m_ptr_to_cc := Some this; m_index := j |}
    = Some (c', List.filter used_cell
                  (take (Z.to_nat (j - i)) (drop (Z.to_nat i) (all_items c))))
    /\ sized c'
    /\ capacity_ c' = capacity_ c /\ block_size c' = block_size c
    /\ size_ c' = size_ c
                  - Z.of_nat (length (List.filter used_cell
                       (take (Z.to_nat (j - i)) (drop (Z.to_nat i) (all_items c)))))
    /\ (forall k, i <= k < j -> is_used c' k = Some false)
    /\ (forall k, ~ (i <= k < j) -> at_ c' k = at_ c k).
Proof.
  intros Hs Hsz Hij Hj Hfirst Hlast Hfuel. pose proof Hs as [Hc Hlen].
  set (l1 := take (Z.to_nat i) (all_items c)).
  set (l2 := take (Z.to_nat (j - i)) (drop (Z.to_nat i) (all_items c))) in *.
  set (l3 := drop (Z.to_nat (j - i)) (drop (Z.to_nat i) (all_items c))).
  assert (Hl : all_items c = l1 ++ l2 ++ l3).
  { unfold l1, l2, l3. rewrite !take_drop. reflexivity. }
  assert (Hn1 : length l1 = Z.to_nat i) by (unfold l1; rewrite length_take; lia).
  assert (Hn2 : length l2 = Z.to_nat (j - i)).
  { unfold l2. rewrite length_take, length_drop. lia. }
  assert (Hh2 : forall e l', l2 = e :: l' -> used_cell e = true).
  { intros e l' E.
    assert (all_items c !! Z.to_nat i = Some e) as He.
    { rewrite Hl, E, <- Hn1. apply list_lookup_middle. reflexivity. }
    pose proof (is_used_lookup c _ e Hs He) as Hu.
    rewrite Z2Nat.id in Hu by lia.
    destruct Hfirst as [->|Hf]; [rewrite E in Hn2; simpl in Hn2; lia|].
    congruence. }
  assert (Hh3 : forall e l', l3 = e :: l' -> used_cell e = true).
  { intros e l' E.
    assert (all_items c !! Z.to_nat j = Some e) as He.
    { rewrite Hl, E, app_assoc.
      replace (Z.to_nat j) with (length (l1 ++ l2)) by (rewrite length_app; lia).
      apply list_lookup_middle. reflexivity. }
    pose proof (is_used_lookup c _ e Hs He) as Hu.
    rewrite Z2Nat.id in Hu by lia.
    apply lookup_lt_Some in He.
    destruct Hlast as [->|Hf]; [lia | congruence]. }
  assert (Hcnt : Z.of_nat (length (List.filter used_cell l2)) <= size_ c < modulus).
  { pose proof (count_used_bound c Hs) as Hbd. rewrite Hsz. split; [|lia].
    unfold count_used. rewrite Hl, !List.filter_app, !length_app. lia. }
  destruct (erase_range_spec this (length l2) l2 l1 l3 c fuel (le_n _) Hs Hl Hh2 Hh3
              Hcnt Hfuel)
    as (c' & l2' & Hrun & Hl' & Hlen' & Hfree' & Hcap' & Hbs' & Hsz').
  rewrite Hn1, Hn2 in Hrun.
  replace (Z.of_nat (Z.to_nat i)) with i in Hrun by lia.
  replace (Z.of_nat (Z.to_nat i + Z.to_nat (j - i))) with j in Hrun by lia.
  assert (Hs' : sized c').
  { apply (sized_same_shape c); [assumption | | assumption].
    rewrite Hl', Hl, !length_app. lia. }
  exists c'. split; [assumption|]. split; [assumption|]. split; [assumption|].
  split; [assumption|]. split; [assumption|]. split.
  - intros k Hk.
    destruct (l2' !! (Z.to_nat k - length l1)%nat) as [x|] eqn:Ex;
      [|apply lookup_ge_None in Ex; lia].
    assert (all_items c' !! Z.to_nat k = Some x) as Hx.
    { rewrite Hl', lookup_app_r by lia. rewrite lookup_app_l by lia. assumption. }
    pose proof (is_used_lookup c' _ x Hs' Hx) as Hu.
    rewrite Z2Nat.id in Hu by lia. rewrite Hu. f_equal.
    rewrite Forall_lookup in Hfree'. exact (Hfree' _ _ Ex).
  - intros k Hk. apply at_ext; [assumption|]. intros Hr. rewrite Hl', Hl.
    destruct (Z_lt_le_dec k i).
    + rewrite !lookup_app_l by lia. reflexivity.
    + rewrite !(lookup_app_r l1) by lia.
      rewrite !lookup_app_r by lia. rewrite Hlen'. reflexivity.
Qed.

(** X17. [erase(first, last)], for a range of this container that starts
    at a used cell or is empty and that ends at a used cell or at [end()]:
    with the invariant, it returns; it destroys the objects of the used
    cells of the range, in ascending order; afterwards no cell of the range
    is used, every other cell is as before, the capacity is the same and
    the size is less by the number of objects destroyed. *)
Theorem erase_range_erases (this : nat) (c : CC) i j :
  consistent c ->
  0 <= i <= j -> j <= capacity_ c ->
  i = j \/ is_used c i = Some true ->
  j = capacity_ c \/ is_used c j = Some true ->
  exists c' d,
    erase_range (Z.to_nat (capacity_ c)) c (index_to this i) (index_to this j)
    = Some (c', d)
    /\ d = List.filter used_cell
             (take (Z.to_nat (j - i)) (drop (Z.to_nat i) (all_items c)))
    /\ capacity c' = capacity c
    /\ size c' = size c - Z.of_nat (length d)
    /\ (forall k, i <= k < j -> is_used c' k = Some false)
    /\ (forall k, ~ (i <= k < j) -> at_ c' k = at_ c k).
Proof.
  intros (Hs & _ & _ & Hsz & _) Hij Hj Hfirst Hlast.
  destruct (erase_range_cells this c i j (Z.to_nat (capacity_ c)) Hs Hsz Hij Hj
              Hfirst Hlast) as (c' & Hrun & _ & Hcap & _ & Hsize & Hin & Hout).
  { destruct Hs as [Hc Hlen].
    etransitivity; [apply filter_length_le|].
    rewrite length_take, length_drop. lia. }
  eexists c', _. split; [exact Hrun|]. split; [reflexivity|]. auto.
Qed.

(** X18. With the invariant, [erase(begin(), end())] returns and destroys
    the objects that [clear()] destroys, in the same order; it leaves no
    used cell and the size 0, but it keeps the array and the capacity,
    where [clear()] gives them back. *)
Theorem erase_all_keeps_capacity p (this : nat) (c : CC) b :
  consistent c -> begin this c = Some b ->
  exists c' d,
    erase_range (Z.to_nat (capacity_ c)) c b (end_ this c) = Some (c', d)
    /\ clear p c = Some (init p, d)
    /\ size c' = 0 /\ capacity c' = capacity c
    /\ (forall k, 0 <= k < capacity c -> is_used c' k = Some false).
Proof.
  intros (Hs & _ & _ & Hsz & _) Hb. pose proof Hs as [Hc Hlen].
  destruct (begin_spec this c Hs Hsz) as (j & Hb' & Hj & Hfree & Hused & _).
  rewrite Hb' in Hb. injection Hb as <-.
  assert (Hd : List.filter used_cell
                 (take (Z.to_nat (capacity_ c - j)) (drop (Z.to_nat j) (all_items c)))
               = List.filter used_cell (all_items c)).
  { rewrite take_ge by (rewrite length_drop; lia).
    rewrite <- (take_drop (Z.to_nat j) (all_items c)) at 2.
    rewrite List.filter_app.
    rewrite (filter_free (take (Z.to_nat j) (all_items c))); [reflexivity|].
    apply Forall_lookup. intros k e He.
    apply lookup_take_Some in He as [He Hk].
    specialize (Hfree (Z.of_nat k) ltac:(lia)).
    rewrite (is_used_lookup c k e Hs He) in Hfree. congruence. }
  destruct (erase_range_cells this c j (capacity_ c) (Z.to_nat (capacity_ c)) Hs Hsz
              ltac:(lia) ltac:(lia)) as (c' & Hrun & _ & Hcap & _ & Hsize & Hin & Hout).
  { destruct (Z.eq_dec j (capacity_ c)); [auto | right; apply Hused; lia]. }
  { auto. }
  { etransitivity; [apply filter_length_le|].
    rewrite length_take, length_drop. lia. }
  rewrite Hd in Hrun, Hsize.
  exists c', (List.filter used_cell (all_items c)).
  split; [exact Hrun|]. split.
  { unfold clear.
    pose proof (destroy_items_spec c (all_items c) [] Hs eq_refl) as Hdes.
    change (Z.of_nat (length [])) with 0 in Hdes.
    rewrite <- Hlen, Hdes. reflexivity. }
  unfold size, capacity. split; [unfold count_used in Hsz; lia|].
  split; [assumption|].
  intros k Hk. destruct (Z_lt_le_dec k j).
  - rewrite is_used_fmap, Hout by lia. rewrite <- is_used_fmap. apply Hfree. lia.
  - apply Hin. lia.
Qed.

End Erase_range_cells.

(** ** Copies and [assign] *)

Section Copies.
Context {IT : IndexType} {T : Type} {Tr : Traits T} {St : Storage T}.

Abbreviation CC := (Compact_container_with_index_2 T).

Lemma growth_from_pos p bs0 (n : nat) :
  0 < bs0 -> 0 <= fst (growth_from p bs0 n) /\ 0 < snd (growth_from p bs0 n).
Proof.
  intros Hk. induction n as [|n [IH1 IH2]]; simpl; [lia|].
  destruct (growth_from p bs0 n) as [cap bs]. simpl in *.
  destruct (Z.of_nat n <? cap); simpl; [lia|]. destruct p; lia.
Qed.

Lemma growth_from_mono p bs0 (n m : nat) :
  0 < bs0 -> (n <= m)%nat ->
  fst (growth_from p bs0 n) <= fst (growth_from p bs0 m).
Proof.
  intros Hk. induction 1 as [|m _ IH]; [lia|].
  destruct (growth_from_pos p bs0 m Hk) as [H1 H2].
  simpl. destruct (growth_from p bs0 m) as [cap bs]. simpl in *.
  destruct (Z.of_nat m <? cap); simpl; lia.
Qed.

(** A freshly constructed container whose block size has been set. *)
Lemma filled_fresh p bs : filled (set_block_size bs (init p) : CC) [].
Proof.
  pose proof bottom_ge. pose proof modulus_bottom.
  split; [split; simpl; [lia | reflexivity]|].
  split; [simpl; lia|]. split; [reflexivity|].
  split; [exists []; split; [reflexivity | constructor]|].
  split; [constructor|]. simpl. constructor.
Qed.

Lemma insert_range_filled_from p bs0 (ts : list T) : forall (c : CC) ts0,
  filled c ts0 ->
  (capacity_ c, block_size c) = growth_from p bs0 (length ts0) ->
  0 < bs0 ->
  Forall (fun t => used_cell t = true) ts ->
  fst (growth_from p bs0 (length ts0 + length ts)) <= bottom ->
  exists c' d,
    insert_range p c ts
    = Some ((fun i => {| m_idx := i |})
              <$> seqZ (Z.of_nat (length ts0)) (Z.of_nat (length ts)), c', d)
    /\ filled c' (ts0 ++ ts)
    /\ (capacity_ c', block_size c') = growth_from p bs0 (length ts0 + length ts).
Proof.
  induction ts as [|t ts IH]; intros c ts0 Hf Hg Hk Hus Hle.
  - exists c, []. simpl. rewrite app_nil_r, Nat.add_0_r. auto.
  - inversion Hus as [|? ? Ht Hus']. subst.
    pose proof (growth_from_pos p bs0 (length ts0) Hk) as [Hp1 Hp2].
    rewrite <- Hg in Hp1, Hp2. simpl in Hp1, Hp2.
    pose proof (growth_from_mono p bs0 (S (length ts0)) (length ts0 + length (t :: ts)) Hk
                  ltac:(simpl; lia)) as Hmono.
    cbn [growth_from] in Hmono. rewrite <- Hg in Hmono.
    destruct (filled_step p c ts0 t Hf Ht Hp2) as (c1 & d1 & Hi & Hf1 & Hg1).
    { intros Heq.
      assert ((Z.of_nat (length ts0) <? capacity_ c) = false) as E
        by (apply Z.ltb_ge; lia).
      simpl in Hmono, Hle. rewrite E in Hmono. simpl in Hmono. lia. }
    assert ((capacity_ c1, block_size c1) = growth_from p bs0 (length (ts0 ++ [t])))
      as Hg1'.
    { rewrite length_app. simpl. rewrite Nat.add_1_r. cbn [growth_from].
      rewrite <- Hg. exact Hg1. }
    destruct (IH c1 (ts0 ++ [t]) Hf1 Hg1' Hk Hus') as (c' & d & Hr & Hf' & Hg').
    { rewrite length_app. simpl. simpl in Hle.
      replace (length ts0 + 1 + length ts)%nat with (length ts0 + S (length ts))%nat by lia.
      exact Hle. }
    exists c', (d1 ++ d). cbn [insert_range]. rewrite Hi. cbn [mbind option_bind].
    rewrite Hr. cbn [mbind option_bind].
    rewrite <- app_assoc in Hf'. simpl in Hf'.
    rewrite length_app in Hg'. simpl in Hg'.
    replace (length ts0 + 1 + length ts)%nat with (length ts0 + S (length ts))%nat
      in Hg' by lia.
    split; [|split; assumption].
    replace (Z.of_nat (length (t :: ts))) with (Z.succ (Z.of_nat (length ts)))
      by (simpl; lia).
    rewrite (seqZ_cons (Z.of_nat (length ts0))) by lia.
    rewrite Z.pred_succ, fmap_cons.
    replace (Z.of_nat (length (ts0 ++ [t]))) with (Z.succ (Z.of_nat (length ts0)))
      by (rewrite length_app; simpl; lia).
    reflexivity.
Qed.

Lemma growth_from_multiply k cap (n : nat) :
  0 < cap -> (1 <= n)%nat -> Z.of_nat n <= cap ->
  growth_from (Multiply_by_two_policy_for_cc_with_size k) cap n = (cap, cap).
Proof.
  intros Hc. induction n as [|n IH]; intros Hn Hle; [lia|].
  cbn [growth_from]. destruct n as [|n].
  - simpl. reflexivity.
  - rewrite IH by lia.
    destruct (Z.ltb_spec (Z.of_nat (S n)) cap); [reflexivity | lia].
Qed.

Lemma growth_from_constant k bs (m n : nat) :
  0 < bs -> Z.of_nat n <= Z.of_nat m * bs ->
  exists q : nat,
    growth_from (Constant_size_policy_for_cc_with_size k) bs n = (Z.of_nat q * bs, bs)
    /\ Z.of_nat n <= Z.of_nat q * bs /\ (q <= m)%nat.
Proof.
  intros Hb. induction n as [|n IH]; intros Hle.
  - exists O. simpl. split; [reflexivity | lia].
  - destruct (IH ltac:(lia)) as (q & Hg & Hn & Hq).
    cbn [growth_from]. rewrite Hg.
    destruct (Z.ltb_spec (Z.of_nat n) (Z.of_nat q * bs)).
    + exists q. split; [reflexivity|]. split; [lia | assumption].
    + exists (S q). split; [f_equal; lia|]. split; [nia|]. nia.
Qed.

(** A copy of the elements of a reachable container needs no more cells
    than the container has. *)
Lemma reachable_copy_bound p (c : CC) (n : nat) :
  reachable p c -> Z.of_nat n <= capacity_ c ->
  n = O
  \/ (0 < block_size c /\ fst (growth_from p (block_size c) n) <= capacity_ c).
Proof.
  intros Hr Hn. pose proof (reachable_block_size p c Hr) as Hinv.
  destruct n as [|n]; [left; reflexivity | right].
  destruct p as [k|k].
  - destruct Hinv as [[Hz _]|(Hpos & Hb & _)]; [lia|].
    rewrite Hb. split; [assumption|].
    rewrite growth_from_multiply by lia. simpl. lia.
  - destruct Hinv as [Hb [m Hm]].
    pose proof (wrap_range k) as Hw. rewrite <- Hb in Hw.
    assert (0 < block_size c) as Hpos by nia.
    split; [assumption|].
    destruct (growth_from_constant k (block_size c) m (S n) Hpos) as (q & -> & _ & Hq).
    + rewrite <- Hb in Hm. lia.
    + simpl. rewrite <- Hb in Hm. nia.
Qed.

Lemma filter_all_used_cells (l : list T) :
  Forall (fun e => used_cell e = true) (List.filter used_cell l).
Proof.
  induction l as [|e l IH]; simpl; [constructor|].
  destruct (used_cell e) eqn:E; [constructor|]; assumption.
Qed.

(** The copy constructor on a reachable container. *)
Lemma copy_construct_spec p (that : nat) (c : CC) :
  reachable_in_range p c ->
  exists c' d,
    copy_construct p that c = Some (c', d)
    /\ filled c' (List.filter used_cell (all_items c))
    /\ capacity_ c' <= capacity_ c.
Proof.
  intros Hr. apply reachable_in_range_consistent in Hr as Hc.
  apply reachable_in_range_reachable in Hr.
  pose proof Hc as (Hs & Hcap & _ & Hsz & _).
  pose proof (count_used_bound c Hs) as Hbd. unfold count_used in Hbd.
  unfold copy_construct. rewrite (consistent_iteration that c Hc).
  cbn [mbind option_bind]. unfold used_cells. rewrite snd_used_from.
  set (vs := List.filter used_cell (all_items c)) in *.
  destruct (reachable_copy_bound p c (length vs) Hr ltac:(lia)) as [Hz|[Hpos Hle]].
  - destruct vs; [|discriminate]. cbn [insert_range mbind option_bind].
    eexists _, _. split; [reflexivity|]. split; [apply filled_fresh|].
    simpl. lia.
  - destruct (insert_range_filled_from p (block_size c) vs
                (set_block_size (block_size c) (init p)) [])
      as (c' & d & Hrun & Hf & Hg); try assumption.
    + apply filled_fresh.
    + reflexivity.
    + apply filter_all_used_cells.
    + simpl. lia.
    + rewrite Hrun. cbn [mbind option_bind]. exists c', d.
      split; [reflexivity|]. split; [exact Hf|].
      simpl in Hg. rewrite <- Hg in Hle. simpl in Hle. assumption.
Qed.

(** X19. The copy constructor on a container reached by [insert] and
    [erase] (values with the flag [USED], capacity at most [bottom]): it
    returns; forward iteration of the copy visits the values that forward
    iteration of the original visits, in the same order, at the indices 0,
    1, 2, ...; the copy has the size of the original and at most its
    capacity. *)
Theorem copy_construct_preserves_order p (this that : nat) (c : CC) :
  reachable_in_range p c ->
  exists c' d l,
    forward_iteration that c = Some l
    /\ copy_construct p that c = Some (c', d)
    /\ forward_iteration this c' = Some (zip (seqZ 0 (Z.of_nat (length l))) l.*2)
    /\ size c' = size c /\ capacity c' <= capacity c.
Proof.
  intros Hr. destruct (copy_construct_spec p that c Hr) as (c' & d & Hcopy & Hf & Hcap).
  apply reachable_in_range_consistent in Hr as Hc.
  exists c', d, (used_cells c).
  split; [apply consistent_iteration; assumption|].
  split; [assumption|].
  unfold used_cells at 2. rewrite snd_used_from.
  unfold used_cells. rewrite length_used_from.
  split; [apply filled_iteration; assumption|].
  split; [|assumption].
  destruct Hf as (_ & _ & Hsz' & _). destruct Hc as (_ & _ & _ & Hsz & _).
  unfold size. rewrite Hsz', Hsz. reflexivity.
Qed.

(** X20. The copy assignment [this = c]: when [c] is this container it
    changes nothing; otherwise it gives this container the state that the
    copy constructor builds from [c], and it destroys the objects that this
    container held, in ascending order of their indices, after the objects
    that the construction of the copy destroyed. *)
Theorem copy_assign_replaces p (this_address that : nat) (this c : CC) :
  reachable p this -> reachable_in_range p c ->
  copy_assign p this_address this_address this this = Some (this, [])
  /\ (that <> this_address ->
      exists c' d,
        copy_construct p that c = Some (c', d)
        /\ copy_assign p this_address that this c
           = Some (c', d ++ (used_cells this).*2)).
Proof.
  intros Hthis Hr. split.
  - unfold copy_assign. rewrite Nat.eqb_refl. reflexivity.
  - intros Hne. destruct (copy_construct_spec p that c Hr) as (c' & d & Hcopy & _).
    exists c', d. split; [assumption|].
    unfold copy_assign. destruct (Nat.eqb_spec that this_address); [contradiction|].
    rewrite Hcopy. cbn [mbind option_bind swap].
    destruct (reachable_sized p this Hthis) as [Hs _]. pose proof Hs as [_ Hlen].
    unfold clear. cbn [capacity_].
    pose proof (destroy_items_spec this (all_items this) [] Hs eq_refl) as Hdes.
    change (Z.of_nat (length [])) with 0 in Hdes. rewrite Hlen in Hdes.
    assert (destroy_items
              {| capacity_ := capacity_ this; size_ := size_ this;
                 block_size := block_size this; free_list := free_list this;
                 all_items := all_items this |} (Z.to_nat (capacity_ this)) 0
            = Some (List.filter used_cell (all_items this))) as ->
      by (destruct this; exact Hdes).
    cbn [mbind option_bind]. unfold used_cells. rewrite snd_used_from.
    destruct c'; reflexivity.
Qed.

(** X21. [assign(first, last)] on a reachable container, with a first
    block of at least one cell, values with the flag [USED] and a capacity
    for them that does not pass [bottom]: it destroys the objects that the
    container held, in ascending order of their indices, and leaves the
    values of the range at the indices 0, 1, 2, ..., in their order. *)
Theorem assign_range_replaces p (this : nat) (c : CC) (ts : list T) :
  reachable p c ->
  0 < wrap (first_block_size p) ->
  Forall (fun t => static_type t = USED) ts ->
  fst (growth_after p (length ts)) <= bottom ->
  exists c' d,
    assign_range p c ts = Some (c', (used_cells c).*2 ++ d)
    /\ forward_iteration this c' = Some (zip (seqZ 0 (Z.of_nat (length ts))) ts)
    /\ size c' = Z.of_nat (length ts).
Proof.
  intros Hr Hk Hts Hle.
  destruct (reachable_sized p c Hr) as [Hs _]. pose proof Hs as [_ Hlen].
  pose proof (destroy_items_spec c (all_items c) [] Hs eq_refl) as Hdes.
  change (Z.of_nat (length [])) with 0 in Hdes. rewrite Hlen in Hdes.
  destruct (insert_range_filled p ts (init p) [] (filled_init p) eq_refl Hk)
    as (c' & d & Hrun & Hf & _).
  { eapply Forall_impl; [exact Hts|]. intros t Ht. apply used_cell_USED. assumption. }
  { assumption. }
  exists c', d. unfold assign_range, clear. rewrite Hdes. cbn [mbind option_bind].
  rewrite Hrun. cbn [mbind option_bind]. unfold used_cells. rewrite snd_used_from.
  split; [reflexivity|]. simpl in Hf.
  split; [apply filled_iteration; assumption|].
  destruct Hf as (_ & _ & Hsz & _). exact Hsz.
Qed.

End Copies.

(** ** The tag word, the comparison of iterators, the free list *)

Section Cells_and_links.
Context {IT : IndexType} {T : Type} {Tr : Traits T} {St : Storage T}.

Abbreviation CC := (Compact_container_with_index_2 T).

Lemma testbit_above_bottom v :
  bottom < v < modulus -> Z.testbit v nbbits_size_type_m1 = true.
Proof.
  intros Hv. pose proof nbbits_size_type_m1_ge as Hn.
  rewrite bottom_eq in Hv. rewrite modulus_eq in Hv.
  apply Z.testbit_true; [lia|].
  assert (v / 2 ^ nbbits_size_type_m1 = 1) as ->; [|reflexivity].
  symmetry. apply (Z.div_unique v _ 1 (v - 2 ^ nbbits_size_type_m1)); lia.
Qed.

(** X22. The bit squatting is a round trip: a value of at most [bottom]
    written with a type is read back with [static_get_val], and the type
    with [static_type]; [static_set_type] changes the type and keeps the
    value.  A value above [bottom] written with the type [USED] is read as
    [FREE]. *)
Theorem tag_word_round_trip (e : T) :
  (forall v t, 0 <= v <= bottom ->
     static_get_val (static_set_val e v t) = v
     /\ static_type (static_set_val e v t) = t)
  /\ (forall t,
        static_get_val (static_set_type e t) = static_get_val e
        /\ static_type (static_set_type e t) = t)
  /\ (forall v, bottom < v < modulus ->
        static_type (static_set_val e v USED) = FREE).
Proof.
  assert (forall v t, 0 <= v <= bottom ->
            static_get_val (static_set_val e v t) = v
            /\ static_type (static_set_val e v t) = t) as Hval.
  { intros v t Hv. split.
    - rewrite static_get_val_set_val. apply land_bottom_small. assumption.
    - rewrite static_type_spec, size_t_static_set_val, word_flag.
      rewrite <- (land_bottom_small v Hv), land_bottom_flag.
      destruct t; reflexivity. }
  split; [exact Hval|]. split.
  - intros t. split; [apply static_get_val_set_type|].
    unfold static_set_type. rewrite wrap_land_lnot_mask.
    apply Hval. apply land_bottom_range.
  - intros v Hv.
    rewrite static_type_spec, size_t_static_set_val, word_flag.
    rewrite (testbit_above_bottom v Hv). reflexivity.
Qed.

(** X23. [operator==] on iterators holds exactly for iterators with the
    same container and the same index, and [operator!=] is its
    negation. *)
Theorem iterator_comparison (a b : CC_iterator_with_index) :
  (iterator_eqb a b = true <-> a = b)
  /\ iterator_neb a b = negb (iterator_eqb a b).
Proof. split; [apply iterator_eqb_eq | apply iterator_neb_eqb]. Qed.

(** X24. [++] on an iterator fails on a singular iterator and at or after
    [end()]; on a cell of the container it returns, and gives the iterator
    of the next used cell, or [end()] when no later cell is used. *)
Theorem increment_next_used (c : CC) (it : CC_iterator_with_index) :
  sized c ->
  (m_ptr_to_cc it = None \/ capacity_ c <= m_index it -> increment c it = None)
  /\ (m_ptr_to_cc it <> None -> 0 <= m_index it < capacity_ c ->
      exists it',
        increment c it = Some it'
        /\ m_ptr_to_cc it' = m_ptr_to_cc it
        /\ m_index it < m_index it' <= capacity_ c
        /\ (forall k, m_index it < k < m_index it' -> is_used c k = Some false)
        /\ (m_index it' < capacity_ c -> is_used c (m_index it') = Some true)).
Proof.
  intros Hs. split.
  - intros [Hp|Hi]; unfold increment.
    + rewrite Hp. reflexivity.
    + destruct (m_ptr_to_cc it); [|reflexivity].
      destruct (Z.ltb_spec (m_index it) (capacity_ c)); [lia | reflexivity].
  - intros Hp Hi. destruct (m_ptr_to_cc it) as [a|] eqn:E; [|contradiction].
    destruct (increment_spec c it a Hs E Hi) as (j & Hinc & Hj & Hfree & Hused).
    eexists. split; [exact Hinc|]. cbn [m_ptr_to_cc m_index]. auto.
Qed.

(** X25. [--] on an iterator fails on a singular iterator and at the
    index 0, and it fails when no cell before the iterator is used;
    otherwise it returns, and gives the iterator of the last used cell
    before it. *)
Theorem decrement_previous_used (c : CC) (it : CC_iterator_with_index) :
  sized c ->
  (m_ptr_to_cc it = None \/ m_index it <= 0 -> decrement c it = None)
  /\ (m_ptr_to_cc it <> None -> 0 < m_index it <= capacity_ c ->
      (forall k, 0 <= k < m_index it -> is_used c k = Some false) ->
      decrement c it = None)
  /\ (m_ptr_to_cc it <> None -> 0 < m_index it <= capacity_ c ->
      forall j, 0 <= j < m_index it -> is_used c j = Some true ->
      exists it',
        decrement c it = Some it'
        /\ m_ptr_to_cc it' = m_ptr_to_cc it
        /\ j <= m_index it' < m_index it
        /\ is_used c (m_index it') = Some true
        /\ (forall k, m_index it' < k < m_index it -> is_used c k = Some false)).
Proof.
  intros Hs. split; [|split].
  - intros [Hp|Hi]; unfold decrement.
    + rewrite Hp. reflexivity.
    + destruct (m_ptr_to_cc it); [|reflexivity].
      destruct (Z.ltb_spec 0 (m_index it)); [lia | reflexivity].
  - intros Hp Hi Hfree. destruct (m_ptr_to_cc it) as [a|] eqn:E; [|contradiction].
    destruct (decrement_spec c it a Hs E Hi) as [(j & _ & Hj & Hused & _)|[Hdec _]];
      [|assumption].
    rewrite Hfree in Hused by lia. discriminate.
  - intros Hp Hi j Hj Hu. destruct (m_ptr_to_cc it) as [a|] eqn:E; [|contradiction].
    destruct (decrement_spec c it a Hs E Hi)
      as [(j' & Hdec & Hj' & Hused & Hfree)|[_ Hfree]].
    + eexists. split; [exact Hdec|]. cbn [m_ptr_to_cc m_index].
      split; [reflexivity|]. split; [|auto].
      destruct (Z_lt_le_dec j' j) as [Hlt|]; [|lia].
      rewrite Hfree in Hu by lia. discriminate.
    + rewrite Hfree in Hu by lia. discriminate.
Qed.

Lemma count_free_indices (c : CC) (l : list T) : forall i,
  (forall (k : nat) e, l !! k = Some e ->
     is_used c (i + Z.of_nat k) = Some (used_cell e)) ->
  (length (filter (fun k => is_used c k = Some false) (seqZ i (Z.of_nat (length l))))
   + length (List.filter used_cell l) = length l)%nat.
Proof.
  induction l as [|e l IH]; intros i Hl; [reflexivity|].
  replace (Z.of_nat (length (e :: l))) with (Z.succ (Z.of_nat (length l)))
    by (simpl; lia).
  rewrite seqZ_cons by lia. rewrite Z.pred_succ, filter_cons.
  pose proof (Hl O e eq_refl) as H0. rewrite Z.add_0_r in H0.
  assert (IH' := IH (Z.succ i)).
  assert (forall (k : nat) e0, l !! k = Some e0 ->
            is_used c (Z.succ i + Z.of_nat k) = Some (used_cell e0)) as Hl'.
  { intros k e0 He0. replace (Z.succ i + Z.of_nat k) with (i + Z.of_nat (S k)) by lia.
    apply Hl. assumption. }
  specialize (IH' Hl'). cbn [List.filter].
  destruct (used_cell e) eqn:E.
  - rewrite decide_False by (rewrite H0; discriminate). simpl. lia.
  - rewrite decide_True by assumption. simpl. lia.
Qed.

(** X26. In a state reached by [insert] and [erase] (values with the flag
    [USED], capacity at most [bottom]), the free list links every free
    cell of the array, each once, and nothing else: following it from its
    head to [bottom] visits [capacity() - size()] cells. *)
Theorem free_list_links_free_cells p (c : CC) :
  reachable_in_range p c ->
  exists l,
    free_chain c (free_list c) l /\ NoDup l
    /\ Z.of_nat (length l) = capacity c - size c
    /\ forall k, k ∈ l <-> is_used c k = Some false.
Proof.
  intros [l Hlk]%reachable_in_range_linked.
  pose proof (linked_NoDup c l Hlk) as Hnd.
  destruct Hlk as ((Hs & _ & _ & Hsz & _) & Hch & Hcnt).
  pose proof Hs as [Hc Hlen].
  exists l. split; [assumption|]. split; [assumption|].
  unfold size, capacity. split; [lia|].
  set (F := filter (fun k => is_used c k = Some false) (seqZ 0 (capacity_ c))).
  assert (forall k, k ∈ F <-> is_used c k = Some false) as HF.
  { intros k. unfold F. rewrite list_elem_of_filter, elem_of_seqZ. split; [tauto|].
    intros Hu. split; [assumption|].
    apply is_used_Some in Hu as (e & [Hr _]%at_Some & _). lia. }
  assert (forall k, k ∈ l -> k ∈ F) as Hsub.
  { intros k Hk. apply HF.
    destruct (free_chain_free c _ l k Hch Hk) as (e & He & Hu).
    rewrite (is_used_at c k e He). f_equal. assumption. }
  assert (length F = length l) as HlenF.
  { pose proof (count_free_indices c (all_items c) 0) as Hn.
    rewrite Hlen, Z2Nat.id in Hn by lia. fold F in Hn.
    unfold count_used in Hcnt.
    assert (length F + length (List.filter used_cell (all_items c))
            = Z.to_nat (capacity_ c))%nat as Hn'.
    { apply Hn. intros k e He. rewrite Z.add_0_l.
      apply is_used_lookup; assumption. }
    lia. }
  intros k. rewrite <- HF. split; [apply Hsub|].
  assert (l ≡ₚ F) as Hp.
  { apply submseteq_length_Permutation; [|lia].
    apply NoDup_submseteq; assumption. }
  rewrite Hp. auto.
Qed.

End Cells_and_links.

(** ** [end()] and growth *)

Section End_and_growth.
Context {IT : IndexType} {T : Type} {Tr : Traits T} {St : Storage T}.

Abbreviation CC := (Compact_container_with_index_2 T).

(** X27. An [insert] that extends the array invalidates [end()]: the
    iterator that was [end()] before the call is not [end()] afterwards,
    it is the iterator of the element inserted.  An [insert] that does not
    extend the array leaves [end()] as it was. *)
Theorem insert_invalidates_end p (this : nat) (c c' : CC) t r d :
  reachable p c -> insert p c t = Some (r, c', d) ->
  (capacity c' <> capacity c ->
   end_ this c <> end_ this c'
   /\ end_ this c = index_to this (m_idx r)
   /\ deref c' (end_ this c) = Some t)
  /\ (capacity c' = capacity c -> end_ this c' = end_ this c).
Proof.
  intros Hr H. destruct (reachable_sized p c Hr) as [Hs Hbs].
  pose proof (insert_cell p c c' t r d H) as Hcell.
  unfold capacity. split.
  - intros Hne.
    destruct (insert_Some_inv p c t r c' d H)
      as (c1 & e & [(_ & -> & _)|(_ & Ha)] & _ & -> & ->);
      [contradiction Hne; reflexivity|].
    destruct (allocate_new_block_Some p c c1 d Hs Hbs Ha) as (_ & _ & -> & _).
    destruct (grown_fields p c) as (_ & _ & Hg3 & _).
    cbn [m_idx] in *. rewrite Hg3 in *.
    split; [|split].
    + unfold end_. intros [= Heq]. apply Hne. symmetry. exact Heq.
    + reflexivity.
    + exact Hcell.
  - intros Heq. unfold end_. rewrite Heq. reflexivity.
Qed.

End End_and_growth.

(** ** When [insert] fails *)

Section Insert_failure.
Context {IT : IndexType} {T : Type} {Tr : Traits T} {St : Storage T}.

Abbreviation CC := (Compact_container_with_index_2 T).

Lemma insert_range_reachable p (ts : list T) : forall (c c' : CC) rs d,
  reachable p c -> insert_range p c ts = Some (rs, c', d) -> reachable p c'.
Proof.
  induction ts as [|t ts IH]; intros c c' rs d Hr H.
  - injection H as _ <- _. assumption.
  - cbn [insert_range] in H.
    destruct (insert p c t) as [[[r c1] d1]|] eqn:E; [|discriminate].
    cbn [mbind option_bind] in H.
    destruct (insert_range p c1 ts) as [[[rs2 c2] d2]|] eqn:E2; [|discriminate].
    injection H as _ <- _.
    apply (IH c1 c2 rs2 d2); [|assumption].
    eapply reachable_insert; eassumption.
Qed.

(** With an empty free list, [insert] succeeds exactly when a block can
    be added. *)
Lemma insert_full_fails p (c : CC) t :
  sized c -> 0 <= block_size c < modulus -> free_list c = bottom ->
  insert p c t = None
  <-> block_size c = 0 \/ modulus <= capacity_ c + block_size c.
Proof.
  intros Hs Hbs Hb. split.
  - intros Hnone.
    destruct (Z.eq_dec (block_size c) 0) as [|Hz]; [auto|].
    destruct (Z_lt_le_dec (capacity_ c + block_size c) modulus) as [Hlt|]; [|auto].
    exfalso.
    pose proof (allocate_new_block_eq p c Hs ltac:(lia) Hlt) as Ha.
    destruct (grown_fields p c) as (_ & _ & Hg3 & _).
    pose proof (at_grown_new p c (capacity_ c) Hs ltac:(lia)) as Hat.
    rewrite <- Hg3 in Hat at 1.
    rewrite (insert_growth p c _ _ t _ Hb Ha Hat) in Hnone. discriminate.
  - intros Hbad.
    destruct (insert p c t) as [[[r c'] d]|] eqn:H; [|reflexivity].
    exfalso.
    destruct (insert_Some_inv p c t r c' d H)
      as (c1 & e0 & [(Hne & _)|(_ & Ha)] & _); [contradiction|].
    destruct (allocate_new_block_Some p c c1 d Hs Hbs Ha) as (Hpos & Hm & _). lia.
Qed.

(** In the states reached with a capacity of at most [bottom], the block
    size and the capacity are 0 when the first block of the policy has no
    cell; otherwise a block has at least one cell and the capacity with one
    more block is a value of [size_type]. *)
Lemma reachable_in_range_block p (c : CC) :
  reachable_in_range p c ->
  (wrap (first_block_size p) = 0 -> capacity_ c = 0 /\ block_size c = 0)
  /\ (0 < wrap (first_block_size p) ->
      0 < block_size c /\ capacity_ c + block_size c < modulus).
Proof.
  intros Hr. pose proof (reachable_in_range_consistent p c Hr) as (_ & Hcap & _).
  apply reachable_in_range_reachable, reachable_block_size in Hr.
  pose proof modulus_bottom as Hm.
  destruct p as [k|k]; cbn [first_block_size].
  - destruct Hr as [[Hz Hb]|(Hpos & Hb & j & Hj)].
    + pose proof (wrap_range k). split; intros Hk; lia.
    + split; intros Hk; [rewrite Hk in Hj; lia | lia].
  - destruct Hr as [Hb [m Hc]]. pose proof (wrap_range k).
    split; intros Hk; [rewrite Hk in Hc; lia|].
    split; [lia|]. destruct m as [|m]; [lia | nia].
Qed.

(** X11. With an empty free list, [insert] fails exactly when no block
    can be added: the block size is 0, or the new capacity is not a value
    of [size_type]; this holds in every state reached by [insert], [erase]
    and [clear], whatever the values and the capacity.  In the states
    reached with values that have the flag [USED] and a capacity of at
    most [bottom], the new capacity always is a value of [size_type], and
    [insert] fails exactly when the first block of the policy has no
    cell. *)
Theorem insert_fails_when p (c : CC) t :
  reachable p c ->
  (free_list c = bottom ->
   (insert p c t = None
    <-> block_size c = 0 \/ modulus <= capacity c + block_size c))
  /\ (reachable_in_range p c ->
      (insert p c t = None <-> wrap (first_block_size p) = 0)).
Proof.
  intros Hr. destruct (reachable_sized p c Hr) as [Hs Hbs].
  split; [apply insert_full_fails; assumption|].
  intros Hin. destruct (reachable_in_range_block p c Hin) as [Hzero Hpos].
  destruct (reachable_in_range_linked p c Hin) as [l Hlk].
  pose proof (linked_full c l Hlk) as Hfull.
  destruct Hlk as ((_ & _ & _ & Hsz & _) & Hch & Hcnt).
  pose proof (count_used_bound c Hs) as Hbd.
  pose proof (wrap_range (first_block_size p)) as Hw.
  split.
  - intros Hnone.
    destruct (Z.eq_dec (wrap (first_block_size p)) 0) as [|Hne]; [assumption|].
    exfalso. destruct (Hpos ltac:(lia)) as [Hb Hlt].
    destruct (Z.eq_dec (free_list c) bottom) as [Hf|Hf].
    + apply (insert_full_fails p c t Hs Hbs Hf) in Hnone. unfold capacity in *. lia.
    + destruct l as [|h l].
      * apply free_chain_nil_inv in Hch. contradiction.
      * apply free_chain_cons_inv in Hch as (Hh & _ & e' & He' & _).
        rewrite <- Hh in He'.
        rewrite (insert_no_growth p c t e' Hf He') in Hnone. discriminate.
  - intros Hk. destruct (Hzero Hk) as [Hc Hb].
    apply insert_full_fails; try assumption; [|auto].
    apply Hfull. lia.
Qed.

End Insert_failure.

(** ** Runs on a container of indices with [IndexType = unsigned char] *)

Section Examples.
#[local] Existing Instance uint8.

Abbreviation I n := {| m_idx := n |}.
Abbreviation K n := (Constant_size_policy_for_cc_with_size n).
Abbreviation CCI := (Compact_container_with_index_2 Index_for_cc_with_index).

(** Every conjunct is an equation that evaluation decides; the conjuncts
    are taken in order, a run giving the state of the next one. *)
Ltac evaluate :=
  repeat match goal with |- _ /\ _ => split end; vm_compute; reflexivity.

Example bottom_uint8 : @bottom uint8 = 127.
Proof. reflexivity. Qed.

Example bottom_uint32 : @bottom uint32 = 2147483647.
Proof. reflexivity. Qed.

Example bottom_uint64 : @bottom uint64 = 9223372036854775807.
Proof. reflexivity. Qed.

Example mask_type_uint8 : @mask_type uint8 = 128.
Proof. reflexivity. Qed.

Lemma reachable_in_range_erased : reachable_in_range (K 4) cc_erased.
Proof.
  apply (in_range_erase (K 4) cc_two (I 0) cc_erased [I 10]); [|vm_compute; reflexivity].
  apply (in_range_insert (K 4) cc_one (I 20) (I 1) cc_two []);
    [|vm_compute; reflexivity ..|vm_compute; discriminate].
  apply (in_range_insert (K 4) (init (K 4)) (I 10) (I 0) cc_one []);
    [|vm_compute; reflexivity ..|vm_compute; discriminate].
  apply in_range_init.
Defined.

(** C1: the scenario with blocks of four cells and the values 10, 20, 30. *)
Lemma insert_insert_erase_insert_witness :
  (0 < wrap (first_block_size (K 4))
   /\ static_type (I 10) = USED /\ static_type (I 20) = USED
   /\ static_type (I 30) = USED)
  /\ capacity (init (K 4) : CCI) = 0
  /\ exists (s1 s2 s3 s4 : CCI) d1 d2 d4,
      insert (K 4) (init (K 4)) (I 10) = Some (I 0, s1, d1) /\ size s1 = 1
      /\ insert (K 4) s1 (I 20) = Some (I 1, s2, d2) /\ size s2 = 2
      /\ erase s2 (I 0) = Some (s3, [I 10]) /\ size s3 = 1
      /\ is_used s3 0 = Some false
      /\ insert (K 4) s3 (I 30) = Some (I 0, s4, d4) /\ size s4 = 2
      /\ forward_iteration 0%nat s4 = Some [(0, I 30); (1, I 20)].
Proof.
  split; [vm_compute; repeat split; reflexivity|].
  apply (insert_insert_erase_insert (K 4) (I 10) (I 20) (I 30) 0%nat); vm_compute; reflexivity.
Defined.

(** C1 as stated fails: with a first block of no cell the first [insert]
    fails; with a value whose tag word has the flag [FREE], iteration does
    not visit it. *)
Lemma insert_insert_erase_insert_counterexample :
  insert (K 0) (init (K 0)) (I 10) = None
  /\ exists (s2 s3 s4 : CCI) d d3 d4,
      insert_range (K 4) (init (K 4)) [I 10; I 128] = Some ([I 0; I 1], s2, d)
      /\ erase s2 (I 0) = Some (s3, d3)
      /\ insert (K 4) s3 (I 30) = Some (I 0, s4, d4)
      /\ forward_iteration 0%nat s4 = Some [(0, I 30)].
Proof.
  split; [vm_compute; reflexivity|].
  do 6 eexists. evaluate.
Qed.

(** C2: [erase(0)] then [insert] on the container of two elements. *)
Lemma erase_then_insert_reuses_witness :
  erase cc_two (I 0) = Some (cc_erased, [I 10]) /\ m_idx (I 0) <> bottom
  /\ exists c'' : CCI,
      insert (K 4) cc_erased (I 30) = Some (I 0, c'', []) /\ capacity_ c'' = capacity_ cc_erased.
Proof.
  split; [vm_compute; reflexivity|]. split; [vm_compute; discriminate|].
  apply (erase_then_insert_reuses (K 4) cc_two cc_erased (I 0) [I 10] (I 30));
    [vm_compute; reflexivity | vm_compute; discriminate].
Defined.

(** C2 as stated fails: after 128 insertions the slot 127, which is
    [bottom], is used; once it is erased the next [insert] takes the free
    list for empty, grows the container and returns 128. *)
Lemma erase_then_insert_counterexample :
  exists rs (c c1 c2 : CCI) d0 d1 d2,
    insert_range (K 1) (init (K 1)) (replicate 128 (I 0)) = Some (rs, c, d0)
    /\ erase c (I 127) = Some (c1, d1)
    /\ insert (K 1) c1 (I 0) = Some (I 128, c2, d2)
    /\ I 128 <> I 127.
Proof.
  do 7 eexists. split; [evaluate|]. split; [evaluate|]. split; [evaluate|].
  discriminate.
Qed.

(** C3: two insertions and one erasure. *)
Lemma size_counts_iteration_witness :
  reachable_in_range (K 4) cc_erased
  /\ forward_iteration 0%nat cc_erased = Some (used_cells cc_erased)
  /\ size cc_erased = Z.of_nat (length (used_cells cc_erased))
  /\ size cc_erased = count_used cc_erased.
Proof.
  split; [exact reachable_in_range_erased|].
  apply (size_counts_iteration (K 4) cc_erased 0%nat reachable_in_range_erased).
Defined.

(** C3 as stated fails: a value with the flag [FREE] in its tag word is
    counted and not visited; and past [bottom] an [insert] takes a used
    cell again, which is counted twice. *)
Lemma size_counts_iteration_counterexample :
  (exists r (c : CCI) d,
      insert (K 1) (init (K 1)) (I 128) = Some (r, c, d)
      /\ size c = 1 /\ forward_iteration 0%nat c = Some [])
  /\ (exists rs (c : CCI) d l,
        Forall (fun t => static_type t = USED) (replicate 129 (I 0))
        /\ insert_range (K 2) (init (K 2)) (replicate 129 (I 0)) = Some (rs, c, d)
        /\ size c = 129 /\ forward_iteration 0%nat c = Some l
        /\ length l = 128%nat /\ count_used c = 128).
Proof.
  split.
  - do 3 eexists. evaluate.
  - do 4 eexists. split; [apply Forall_replicate; vm_compute; reflexivity|].
    evaluate.
Qed.

(** C4: growth of a container with one used and one free cell. *)
Lemma growth_keeps_slots_witness :
  (sized cc_grow /\ 0 < block_size cc_grow
   /\ capacity_ cc_grow + block_size cc_grow < modulus)
  /\ exists c' d,
      allocate_new_block (K 2) cc_grow = Some (c', d)
      /\ capacity_ c' = 4 /\ at_ c' 0 = Some (I 10)
      /\ is_used c' 0 = Some true /\ is_used c' 1 = Some false
      /\ get_val c' 1 = get_val cc_grow 1
      /\ is_used c' 2 = Some false /\ is_used c' 3 = Some false.
Proof.
  assert (sized cc_grow) as Hs
      by (split; [vm_compute; split; [discriminate | reflexivity] | reflexivity]).
  split; [split; [exact Hs | split; vm_compute; reflexivity]|].
  destruct (growth_keeps_slots (K 2) cc_grow Hs eq_refl eq_refl)
    as (c' & d & H & Hc & _ & _ & Hu & Hf & Hn & _).
  exists c', d. split; [exact H|]. split; [exact Hc|].
  destruct (Hu 0 (I 10) eq_refl eq_refl) as [H0 H0'].
  destruct (Hf 1 (I 255) eq_refl eq_refl) as [H1 H1'].
  destruct (Hn 2 ltac:(vm_compute; split; [discriminate | reflexivity])) as [H2 _].
  destruct (Hn 3 ltac:(vm_compute; split; [discriminate | reflexivity])) as [H3 _].
  auto 10.
Defined.

(** C5: three insertions, one block. *)
Lemma insert_in_ascending_order_witness :
  (0 < wrap (first_block_size (K 4))
   /\ Forall (fun t => static_type t = USED) [I 10; I 20; I 30]
   /\ fst (growth_after (K 4) 3) <= bottom)
  /\ exists (c : CCI) d,
      insert_range (K 4) (init (K 4)) [I 10; I 20; I 30]
      = Some ([I 0; I 1; I 2], c, d)
      /\ forward_iteration 0%nat c = Some [(0, I 10); (1, I 20); (2, I 30)]
      /\ size c = 3.
Proof.
  assert (Forall (fun t => static_type t = USED) [I 10; I 20; I 30]) as Hus
      by (repeat constructor).
  assert (0 < wrap (first_block_size (K 4))) as Hk by (vm_compute; reflexivity).
  assert (fst (growth_after (K 4) 3) <= bottom) as Hle by (vm_compute; discriminate).
  split; [auto|].
  destruct (proj1 (insert_in_ascending_order (K 4) [I 10; I 20; I 30] 0%nat Hk Hus Hle))
    as (c & d & H1 & H2 & H3 & _).
  exists c, d. split; [exact H1|]. split; [exact H2 | exact H3].
Defined.

(** C5 as stated fails: with a first block of no cell [insert] fails; a
    value with the flag [FREE] in its tag word is not visited; and with
    [bottom = 127] the 128th call returns 128, not 127, and the 129th
    returns 1. *)
Lemma insert_in_ascending_order_counterexample :
  insert_range (K 0) (init (K 0)) [I 10] = None
  /\ (exists (c : CCI) d,
        insert_range (K 4) (init (K 4)) [I 10; I 128; I 30]
        = Some ([I 0; I 1; I 2], c, d)
        /\ forward_iteration 0%nat c = Some [(0, I 10); (2, I 30)])
  /\ (exists rs (c : CCI) d,
        insert_range (K 2) (init (K 2)) (replicate 129 (I 0)) = Some (rs, c, d)
        /\ rs !! 127%nat = Some (I 128) /\ rs !! 128%nat = Some (I 1)).
Proof.
  split; [vm_compute; reflexivity|]. split.
  - do 2 eexists. evaluate.
  - do 3 eexists. evaluate.
Qed.

(** C6: the first insertion returns a valid index. *)
Lemma insert_returns_valid_index_witness :
  (insert (K 4) (init (K 4)) (I 10) = Some (I 0, cc_one, [])
   /\ capacity_ cc_one <= bottom)
  /\ I 0 <> Index_default /\ is_valid (I 0) = true.
Proof.
  split; [split; [vm_compute; reflexivity | vm_compute; discriminate]|].
  apply (proj1 (proj2 insert_returns_valid_index) (K 4) (init (K 4)) cc_one (I 10) (I 0) []);
    [vm_compute; reflexivity | vm_compute; discriminate].
Defined.

(** C6 as stated fails: the 128th insertion returns the index 127, which
    is the default one. *)
Lemma insert_returns_valid_index_counterexample :
  exists rs (c c' : CCI) d0 r d,
    insert_range (K 1) (init (K 1)) (replicate 127 (I 0)) = Some (rs, c, d0)
    /\ insert (K 1) c (I 0) = Some (r, c', d)
    /\ r = Index_default /\ is_valid r = false.
Proof. do 6 eexists. evaluate. Qed.

(** C7: the iterators of a container of two elements. *)
Lemma owns_iff_witness :
  heap_two 0%nat = Some cc_two
  /\ (owns heap_two 0%nat (index_to 0%nat 1) = Some true
      <-> m_ptr_to_cc (index_to 0%nat 1) = Some 0%nat
          /\ (m_index (index_to 0%nat 1) = capacity_ cc_two
              \/ is_used cc_two (m_index (index_to 0%nat 1)) = Some true)).
Proof.
  split; [reflexivity|].
  apply (owns_iff heap_two 0%nat cc_two (index_to 0%nat 1) eq_refl).
Defined.

(** C7 as stated fails: [owns(end())] is true, and [end()] is no cell of
    the container. *)
Lemma owns_counterexample :
  owns heap_two 0%nat (end_ 0%nat cc_two) = Some true
  /\ ~ (0 <= m_index (end_ 0%nat cc_two) < capacity_ cc_two)
  /\ is_used cc_two (m_index (end_ 0%nat cc_two)) = None
  /\ owns_dereferencable heap_two 0%nat (end_ 0%nat cc_two) = Some false.
Proof.
  split; [reflexivity|]. split; [|split; reflexivity].
  vm_compute. intros [_ H]. discriminate H.
Qed.



(** C9: [erase(0)] on the container of two elements, and on the erased
    slot. *)
Lemma erase_used_slot_witness :
  is_used cc_two (m_idx (I 0)) = Some true
  /\ (exists e c',
        at_ cc_two 0 = Some e /\ erase cc_two (I 0) = Some (c', [e])
        /\ free_list c' = 0 /\ size_ c' = 1)
  /\ is_used cc_erased (m_idx (I 0)) <> Some true
  /\ erase cc_erased (I 0) = None.
Proof.
  assert (is_used cc_two (m_idx (I 0)) = Some true) as Hu by (vm_compute; reflexivity).
  split; [exact Hu|].
  destruct (proj1 (erase_used_slot cc_two (I 0)) Hu)
    as (e & c' & He & H & Hf & _ & _ & _ & _ & Hsz & _).
  split.
  { exists e, c'. split; [exact He|]. split; [exact H|]. split; [exact Hf|].
    apply Hsz. vm_compute. auto. }
  split; [vm_compute; discriminate|].
  apply (proj1 (proj2 (erase_used_slot cc_erased (I 0)))). vm_compute. discriminate.
Defined.

(** C9 as stated fails.  With blocks of one cell, after 129 insertions and
    [erase(128)] the head of the free list is 128, which is above
    [bottom]; [erase(5)] then leaves in the slot 5 a link that reads 0: the
    slot is not linked to the old head, and the old free list is lost.
    With blocks of two cells, after 256 insertions [size()] is 0 and the
    slot 0 is used; [erase(0)] leaves [size()] at 255. *)
Lemma erase_used_slot_counterexample :
  (exists rs (c c1 c2 : CCI) d d1 d2,
      insert_range (K 1) (init (K 1)) (replicate 129 (I 0)) = Some (rs, c, d)
      /\ erase c (I 128) = Some (c1, d1) /\ free_list c1 = 128
      /\ is_used c1 5 = Some true
      /\ erase c1 (I 5) = Some (c2, d2)
      /\ get_val c2 5 = Some 0)
  /\ (exists rs (c c1 : CCI) d d1,
        insert_range (K 2) (init (K 2)) (replicate 256 (I 0)) = Some (rs, c, d)
        /\ size c = 0 /\ is_used c 0 = Some true
        /\ erase c (I 0) = Some (c1, d1) /\ size c1 = 255).
Proof.
  split.
  - do 7 eexists. evaluate.
  - do 5 eexists. evaluate.
Qed.

(** C10: the slot that [insert] returns on the container of two
    elements. *)
Lemma is_used_tracks_liveness_witness :
  reachable (K 4) cc_two
  /\ (exists r c' d, insert (K 4) cc_two (I 30) = Some (r, c', d)
                     /\ is_used c' (m_idx r) = Some true
                     /\ is_used c' 0 = Some true)
  /\ is_used cc_erased 0 = Some false.
Proof.
  assert (reachable (K 4) cc_two) as R.
  { apply (reachable_insert (K 4) cc_one (I 20) (I 1) cc_two []); [|vm_compute; reflexivity].
    apply (reachable_insert (K 4) (init (K 4)) (I 10) (I 0) cc_one []);
      [|vm_compute; reflexivity].
    apply reachable_init. }
  split; [exact R|].
  destruct (is_used_tracks_liveness (K 4) cc_two R) as (H1 & _ & H3 & H4 & _).
  split.
  - eexists (I 2), _, []. split; [vm_compute; reflexivity|]. split.
    + eapply H1; vm_compute; reflexivity.
    + eapply (H4 (I 30) (I 2)); [vm_compute; reflexivity | discriminate | reflexivity].
  - apply (H3 (I 0) cc_erased [I 10]). vm_compute. reflexivity.
Defined.

(** C10 as stated fails: after [insert] of a value with the flag [FREE]
    in its tag word, [is_used] of the index returned is false. *)
Lemma is_used_tracks_liveness_counterexample :
  exists r (c : CCI) d,
    insert (K 1) (init (K 1)) (I 128) = Some (r, c, d)
    /\ is_used c (m_idx r) = Some false.
Proof. do 3 eexists. evaluate. Qed.

End Examples.

(** ** Further runs on a container of indices with [IndexType = unsigned char] *)

Section More_examples.
#[local] Existing Instance uint8.

Abbreviation I n := {| m_idx := n |}.
Abbreviation K n := (Constant_size_policy_for_cc_with_size n).
Abbreviation M2 n := (Multiply_by_two_policy_for_cc_with_size n).
Abbreviation CCI := (Compact_container_with_index_2 Index_for_cc_with_index).

Lemma reachable_in_range_two : reachable_in_range (K 4) cc_two.
Proof.
  apply (in_range_insert (K 4) cc_one (I 20) (I 1) cc_two []);
    [|vm_compute; reflexivity ..|vm_compute; discriminate].
  apply (in_range_insert (K 4) (init (K 4)) (I 10) (I 0) cc_one []);
    [|vm_compute; reflexivity ..|vm_compute; discriminate].
  apply in_range_init.
Defined.

Lemma reachable_in_range_three : reachable_in_range (K 4) cc_three.
Proof.
  apply (in_range_insert (K 4) cc_two (I 30) (I 2) cc_three []);
    [|vm_compute; reflexivity ..|vm_compute; discriminate].
  exact reachable_in_range_two.
Defined.

Lemma reachable_in_range_hole : reachable_in_range (K 4) cc_hole.
Proof.
  apply (in_range_erase (K 4) cc_three (I 1) cc_hole [I 20]); [|vm_compute; reflexivity].
  exact reachable_in_range_three.
Defined.

Lemma sized_hole : sized cc_hole.
Proof. split; [vm_compute; split; [discriminate | reflexivity] | reflexivity]. Defined.

(** X1: the iterator of the cell 1 of the container of two elements. *)
Lemma owns_dereferencable_spec_witness :
  heap_two 0%nat = Some cc_two
  /\ (owns_dereferencable heap_two 0%nat (index_to 0%nat 1) = Some true
      <-> m_ptr_to_cc (index_to 0%nat 1) = Some 0%nat
          /\ is_used cc_two (m_index (index_to 0%nat 1)) = Some true).
Proof.
  split; [reflexivity|].
  apply (owns_dereferencable_spec heap_two 0%nat cc_two (index_to 0%nat 1) eq_refl).
Defined.

(** X3: the index 255 wraps around to 0. *)
Lemma Index_incr_decr_witness :
  0 <= m_idx (I 255) < modulus
  /\ Index_incr (I 255) = I 0
  /\ Index_decr (Index_incr (I 255)) = I 255
  /\ Index_incr (Index_decr (I 255)) = I 255.
Proof.
  assert (0 <= m_idx (I 255) < modulus) as H
      by (vm_compute; split; [discriminate | reflexivity]).
  destruct (Index_incr_decr (I 255) H) as (H1 & H2 & _).
  split; [exact H|]. split; [reflexivity|]. split; [exact H1 | exact H2].
Defined.

(** X4: an element of the container of two elements, and an element of
    another array. *)
Lemma iterator_to_element_witness :
  sized cc_two
  /\ iterator_to 0%nat cc_two (address_of 0%nat 1) = index_to 0%nat 1
  /\ iterator_to 0%nat cc_two (address_of 1%nat 1) = index_to 0%nat 0.
Proof.
  assert (sized cc_two) as Hs
      by (split; [vm_compute; split; [discriminate | reflexivity] | reflexivity]).
  destruct (iterator_to_element 0%nat cc_two Hs) as [H1 H2].
  split; [exact Hs|]. split.
  - apply (H1 (index_to 0%nat 1) eq_refl). exists (I 20). reflexivity.
  - apply (H2 (address_of 1%nat 1)). left. discriminate.
Defined.

(** X5: from the cell 0 over the free cell 1 to the cell 2, and back. *)
Lemma increment_decrement_round_trip_witness :
  sized cc_hole
  /\ increment cc_hole (index_to 0%nat 0) = Some (index_to 0%nat 2)
  /\ decrement cc_hole (index_to 0%nat 2) = Some (index_to 0%nat 0)
  /\ decrement cc_hole (end_ 0%nat cc_hole) = Some (index_to 0%nat 2)
  /\ increment cc_hole (index_to 0%nat 2) = Some (end_ 0%nat cc_hole).
Proof.
  destruct (increment_decrement_round_trip cc_hole sized_hole) as [H1 H2].
  assert (increment cc_hole (index_to 0%nat 0) = Some (index_to 0%nat 2)) as Hi
      by (vm_compute; reflexivity).
  assert (decrement cc_hole (end_ 0%nat cc_hole) = Some (index_to 0%nat 2)) as Hd
      by (vm_compute; reflexivity).
  split; [exact sized_hole|]. split; [exact Hi|].
  split; [apply (H1 _ _ Hi); vm_compute; reflexivity|].
  split; [exact Hd|].
  apply (H2 _ _ Hd). left. reflexivity.
Defined.

(** X6: the first cell of the container is free. *)
Lemma begin_first_used_witness :
  reachable_in_range (K 4) cc_erased
  /\ exists b,
      begin 0%nat cc_erased = Some b /\ m_index b = 1
      /\ is_used cc_erased 0 = Some false
      /\ is_used cc_erased (m_index b) = Some true.
Proof.
  split; [exact reachable_in_range_erased|].
  destruct (begin_first_used (K 4) 0%nat cc_erased reachable_in_range_erased)
    as (b & Hb & _ & _ & Hfree & Hused & _).
  assert (begin 0%nat cc_erased = Some (index_to 0%nat 1)) as Hb'
      by (vm_compute; reflexivity).
  assert (b = index_to 0%nat 1) as Eb by congruence.
  exists b. split; [exact Hb|]. split; [rewrite Eb; reflexivity|].
  split.
  - apply Hfree. rewrite Eb. vm_compute. split; [discriminate | reflexivity].
  - apply Hused. rewrite Eb. vm_compute. reflexivity.
Defined.

(** X7: [--] on [begin()], which is the cell 1. *)
Lemma decrement_begin_fails_witness :
  reachable_in_range (K 4) cc_erased
  /\ begin 0%nat cc_erased = Some (index_to 0%nat 1)
  /\ decrement cc_erased (index_to 0%nat 1) = None.
Proof.
  assert (begin 0%nat cc_erased = Some (index_to 0%nat 1)) as Hb
      by (vm_compute; reflexivity).
  split; [exact reachable_in_range_erased|]. split; [exact Hb|].
  apply (decrement_begin_fails (K 4) 0%nat cc_erased _ reachable_in_range_erased Hb).
Defined.

(** X8: two elements around a free cell. *)
Lemma reverse_iteration_rev_witness :
  reachable_in_range (K 4) cc_hole
  /\ forward_iteration 0%nat cc_hole = Some [(0, I 10); (2, I 30)]
  /\ reverse_iteration 0%nat cc_hole = Some [(2, I 30); (0, I 10)].
Proof.
  assert (forward_iteration 0%nat cc_hole = Some [(0, I 10); (2, I 30)]) as Hf
      by (vm_compute; reflexivity).
  split; [exact reachable_in_range_hole|]. split; [exact Hf|].
  destruct (reverse_iteration_rev (K 4) 0%nat cc_hole reachable_in_range_hole)
    as (l & Hl & Hr).
  assert (l = [(0, I 10); (2, I 30)]) as El by congruence.
  rewrite El in Hr. exact Hr.
Defined.

(** X9: an insertion into the free cell 1. *)
Lemma insert_keeps_live_elements_witness :
  reachable_in_range (K 4) cc_hole
  /\ exists c' : CCI,
      insert (K 4) cc_hole (I 40) = Some (I 1, c', [])
      /\ (0 <> m_idx (I 1) /\ at_ c' 0 = Some (I 10))
      /\ (2 <> m_idx (I 1) /\ at_ c' 2 = Some (I 30)).
Proof.
  split; [exact reachable_in_range_hole|].
  assert (exists c' : CCI, insert (K 4) cc_hole (I 40) = Some (I 1, c', [])) as [c' H]
      by (eexists; vm_compute; reflexivity).
  exists c'. split; [exact H|].
  pose proof (insert_keeps_live_elements (K 4) cc_hole c' (I 40) (I 1) []
                reachable_in_range_hole H) as Hk.
  split; [apply (Hk 0 (I 10)) | apply (Hk 2 (I 30))]; reflexivity.
Defined.

(** X10: two of four cells are used, so the insertion adds no block. *)
Lemma insert_grows_when_full_witness :
  reachable_in_range (K 4) cc_hole
  /\ size cc_hole < capacity cc_hole
  /\ exists c' : CCI,
      insert (K 4) cc_hole (I 40) = Some (I 1, c', [])
      /\ capacity c' = capacity cc_hole
      /\ is_used cc_hole (m_idx (I 1)) = Some false.
Proof.
  assert (size cc_hole < capacity cc_hole) as Hlt by (vm_compute; reflexivity).
  split; [exact reachable_in_range_hole|]. split; [exact Hlt|].
  assert (exists c' : CCI, insert (K 4) cc_hole (I 40) = Some (I 1, c', [])) as [c' H]
      by (eexists; vm_compute; reflexivity).
  exists c'. split; [exact H|].
  destruct (insert_grows_when_full (K 4) cc_hole c' (I 40) (I 1) []
              reachable_in_range_hole H) as (_ & Hbelow & _).
  destruct (Hbelow Hlt) as (Hc & _ & Hu). split; [exact Hc | exact Hu].
Defined.

(** X11: with blocks of 128 cells, after 127 insertions the free list is
    empty and one more block would give 256 cells, which is no value of
    [unsigned char]: the next insertion fails.  With blocks of no cell the
    first insertion fails. *)
Lemma insert_fails_when_witness :
  (exists rs (c : CCI) d,
      insert_range (K 128) (init (K 128)) (replicate 127 (I 0)) = Some (rs, c, d)
      /\ reachable (K 128) c /\ free_list c = bottom
      /\ modulus <= capacity c + block_size c
      /\ insert (K 128) c (I 0) = None)
  /\ (reachable_in_range (K 0) (init (K 0) : CCI)
      /\ insert (K 0) (init (K 0)) (I 10) = None).
Proof.
  split.
  - assert (exists rs (c : CCI) d,
              insert_range (K 128) (init (K 128)) (replicate 127 (I 0)) = Some (rs, c, d)
              /\ free_list c = bottom /\ modulus <= capacity c + block_size c)
      as (rs & c & d & H & Hf & Ho)
        by (do 3 eexists; split; [vm_compute; reflexivity|];
            split; [vm_compute; reflexivity | vm_compute; discriminate]).
    pose proof (insert_range_reachable (K 128) _ _ c rs d (reachable_init (K 128)) H) as R.
    exists rs, c, d. split; [exact H|]. split; [exact R|]. split; [exact Hf|].
    split; [exact Ho|].
    apply (proj1 (insert_fails_when (K 128) c (I 0) R) Hf). right. exact Ho.
  - split; [apply in_range_init|].
    apply (proj2 (insert_fails_when (K 0) (init (K 0)) (I 10) (reachable_init (K 0)))
             (in_range_init (K 0))).
    reflexivity.
Defined.

(** X12: the slots 0 and 2 are erased, and taken again in the order 2, 0. *)
Lemma erased_slots_reused_in_reverse_witness :
  reachable_in_range (K 4) cc_three
  /\ exists c1 c2 : CCI,
      erase_each cc_three [I 0; I 2] = Some (c1, [I 10; I 30])
      /\ insert_range (K 4) c1 [I 40; I 50] = Some ([I 2; I 0], c2, [])
      /\ capacity c2 = capacity cc_three.
Proof.
  split; [exact reachable_in_range_three|].
  assert (exists c1 : CCI, erase_each cc_three [I 0; I 2] = Some (c1, [I 10; I 30]))
    as [c1 H] by (eexists; vm_compute; reflexivity).
  destruct (erased_slots_reused_in_reverse (K 4) cc_three c1 [I 0; I 2] [I 10; I 30]
              [I 40; I 50] reachable_in_range_three H) as (c2 & H2 & Hc).
  - repeat constructor.
  - reflexivity.
  - exists c1, c2. split; [exact H|]. split; [exact H2 | exact Hc].
Defined.

(** X13: the first growth with [Multiply_by_two_policy_for_cc_with_size<2>]. *)
Lemma multiply_by_two_policy_doubles_witness :
  reachable (M2 2) (init (M2 2) : CCI)
  /\ exists r (c' : CCI) d,
      insert (M2 2) (init (M2 2)) (I 10) = Some (r, c', d)
      /\ capacity c' = 2.
Proof.
  split; [apply reachable_init|].
  assert (exists c' : CCI, insert (M2 2) (init (M2 2)) (I 10) = Some (I 0, c', []))
    as [c' H] by (eexists; vm_compute; reflexivity).
  exists (I 0), c', []. split; [exact H|].
  destruct (multiply_by_two_policy_doubles 2 (init (M2 2)) (reachable_init (M2 2)))
    as [_ Hg].
  rewrite (Hg (I 10) (I 0) c' [] H); [reflexivity|].
  injection H as <-. vm_compute. discriminate.
Defined.

(** X14: the first growth with [Constant_size_policy_for_cc_with_size<4>]. *)
Lemma constant_size_policy_blocks_witness :
  reachable (K 4) (init (K 4) : CCI)
  /\ block_size (init (K 4) : CCI) = 4
  /\ exists r (c' : CCI) d,
      insert (K 4) (init (K 4)) (I 10) = Some (r, c', d)
      /\ capacity c' = 4.
Proof.
  split; [apply reachable_init|].
  destruct (constant_size_policy_blocks 4 (init (K 4)) (reachable_init (K 4)))
    as (Hb & _ & Hg).
  split; [exact Hb|].
  exists (I 0), cc_one, [].
  assert (insert (K 4) (init (K 4)) (I 10) = Some (I 0, cc_one, [])) as H
      by (vm_compute; reflexivity).
  split; [exact H|].
  rewrite (Hg (I 10) (I 0) cc_one [] H); [reflexivity|].
  vm_compute. discriminate.
Defined.

(** X15: [erase(0)] on the container of two elements. *)
Lemma erase_iteration_witness :
  (reachable_in_range (K 4) cc_two
   /\ erase cc_two (I 0) = Some (cc_erased, [I 10]))
  /\ exists l1 e l2,
      forward_iteration 0%nat cc_two = Some (l1 ++ (m_idx (I 0), e) :: l2)
      /\ forward_iteration 0%nat cc_erased = Some (l1 ++ l2)
      /\ [I 10] = [e].
Proof.
  assert (erase cc_two (I 0) = Some (cc_erased, [I 10])) as H by (vm_compute; reflexivity).
  split; [split; [exact reachable_in_range_two | exact H]|].
  apply (erase_iteration (K 4) 0%nat cc_two cc_erased (I 0) [I 10]
           reachable_in_range_two H).
Defined.

(** X16: an insertion into the free cell 1, between two elements. *)
Lemma insert_iteration_witness :
  reachable_in_range (K 4) cc_hole
  /\ exists (c' : CCI) l1 l2,
      insert (K 4) cc_hole (I 40) = Some (I 1, c', [])
      /\ forward_iteration 0%nat cc_hole = Some (l1 ++ l2)
      /\ forward_iteration 0%nat c' = Some (l1 ++ (m_idx (I 1), I 40) :: l2)
      /\ Forall (fun ie => ie.1 < m_idx (I 1)) l1
      /\ Forall (fun ie => m_idx (I 1) < ie.1) l2.
Proof.
  split; [exact reachable_in_range_hole|].
  assert (exists c' : CCI,
            insert (K 4) cc_hole (I 40) = Some (I 1, c', []) /\ capacity_ c' <= bottom)
    as (c' & H & Hc)
      by (eexists; split; [vm_compute; reflexivity | vm_compute; discriminate]).
  destruct (insert_iteration (K 4) 0%nat cc_hole c' (I 40) (I 1) []
              reachable_in_range_hole eq_refl H Hc) as (l1 & l2 & H1 & H2 & H3 & H4).
  exists c', l1, l2. auto.
Defined.

(** X17: the range from the cell 0 to the cell 2. *)
Lemma erase_range_erases_witness :
  consistent cc_hole
  /\ exists c' : CCI,
      erase_range 4 cc_hole (index_to 0%nat 0) (index_to 0%nat 2) = Some (c', [I 10])
      /\ capacity c' = 4 /\ size c' = 1
      /\ is_used c' 0 = Some false /\ is_used c' 1 = Some false
      /\ at_ c' 2 = Some (I 30).
Proof.
  pose proof (reachable_in_range_consistent (K 4) cc_hole reachable_in_range_hole) as Hc.
  split; [exact Hc|].
  destruct (erase_range_erases 0%nat cc_hole 0 2 Hc) as (c' & d & H & Hd & Hcap & Hsz & Hin & Hout).
  - vm_compute. split; discriminate.
  - vm_compute. discriminate.
  - right. reflexivity.
  - right. reflexivity.
  - assert (d = [I 10]) as Ed by (rewrite Hd; vm_compute; reflexivity).
    rewrite Ed in H, Hsz. exists c'. split; [exact H|].
    split; [exact Hcap|]. split; [exact Hsz|].
    split; [apply Hin; vm_compute; split; [discriminate | reflexivity]|].
    split; [apply Hin; vm_compute; split; [discriminate | reflexivity]|].
    rewrite Hout; [reflexivity|]. vm_compute. intros [_ Hlt]. discriminate Hlt.
Defined.

(** X18: [erase(begin(), end())] and [clear()]. *)
Lemma erase_all_keeps_capacity_witness :
  (consistent cc_hole /\ begin 0%nat cc_hole = Some (index_to 0%nat 0))
  /\ exists (c' : CCI) d,
      erase_range 4 cc_hole (index_to 0%nat 0) (end_ 0%nat cc_hole) = Some (c', d)
      /\ clear (K 4) cc_hole = Some (init (K 4), d)
      /\ size c' = 0 /\ capacity c' = 4.
Proof.
  pose proof (reachable_in_range_consistent (K 4) cc_hole reachable_in_range_hole) as Hc.
  assert (begin 0%nat cc_hole = Some (index_to 0%nat 0)) as Hb by (vm_compute; reflexivity).
  split; [split; [exact Hc | exact Hb]|].
  destruct (erase_all_keeps_capacity (K 4) 0%nat cc_hole _ Hc Hb)
    as (c' & d & H & Hcl & Hsz & Hcap & _).
  exists c', d. auto.
Defined.

(** X19: the copy of a container with a free cell between two elements. *)
Lemma copy_construct_preserves_order_witness :
  reachable_in_range (K 4) cc_hole
  /\ exists (c' : CCI) d,
      copy_construct (K 4) 1%nat cc_hole = Some (c', d)
      /\ forward_iteration 0%nat c' = Some [(0, I 10); (1, I 30)]
      /\ size c' = 2.
Proof.
  split; [exact reachable_in_range_hole|].
  destruct (copy_construct_preserves_order (K 4) 0%nat 1%nat cc_hole reachable_in_range_hole)
    as (c' & d & l & Hl & Hcopy & Hit & Hsz & _).
  assert (forward_iteration 1%nat cc_hole = Some [(0, I 10); (2, I 30)]) as Hf
      by (vm_compute; reflexivity).
  assert (l = [(0, I 10); (2, I 30)]) as El by congruence.
  rewrite El in Hit. exists c', d. split; [exact Hcopy|]. split; [exact Hit | exact Hsz].
Defined.

(** X20: the container with the element 20 is assigned the container
    with the elements 10 and 30. *)
Lemma copy_assign_replaces_witness :
  (reachable (K 4) cc_erased /\ reachable_in_range (K 4) cc_hole)
  /\ copy_assign (K 4) 0%nat 0%nat cc_erased cc_erased = Some (cc_erased, [])
  /\ exists (c' : CCI) d,
      copy_construct (K 4) 1%nat cc_hole = Some (c', d)
      /\ copy_assign (K 4) 0%nat 1%nat cc_erased cc_hole = Some (c', d ++ [I 20]).
Proof.
  pose proof (reachable_in_range_reachable (K 4) cc_erased reachable_in_range_erased) as R.
  split; [split; [exact R | exact reachable_in_range_hole]|].
  destruct (copy_assign_replaces (K 4) 0%nat 1%nat cc_erased cc_hole R
              reachable_in_range_hole) as [Hself Hother].
  split; [exact Hself|].
  destruct (Hother ltac:(discriminate)) as (c' & d & H1 & H2).
  exists c', d. split; [exact H1 | exact H2].
Defined.

(** X21: [assign] of three values to the container with the element 20. *)
Lemma assign_range_replaces_witness :
  (reachable (K 4) cc_erased
   /\ 0 < wrap (first_block_size (K 4))
   /\ Forall (fun t => static_type t = USED) [I 10; I 20; I 30]
   /\ fst (growth_after (K 4) 3) <= bottom)
  /\ exists (c' : CCI) d,
      assign_range (K 4) cc_erased [I 10; I 20; I 30] = Some (c', [I 20] ++ d)
      /\ forward_iteration 0%nat c' = Some [(0, I 10); (1, I 20); (2, I 30)]
      /\ size c' = 3.
Proof.
  pose proof (reachable_in_range_reachable (K 4) cc_erased reachable_in_range_erased) as R.
  assert (Forall (fun t => static_type t = USED) [I 10; I 20; I 30]) as Hus
      by (repeat constructor).
  assert (0 < wrap (first_block_size (K 4))) as Hk by (vm_compute; reflexivity).
  assert (fst (growth_after (K 4) 3) <= bottom) as Hle by (vm_compute; discriminate).
  split; [auto|].
  destruct (assign_range_replaces (K 4) 0%nat cc_erased [I 10; I 20; I 30] R Hk Hus Hle)
    as (c' & d & H1 & H2 & H3).
  exists c', d. split; [exact H1|]. split; [exact H2 | exact H3].
Defined.

(** X24: [++] from the cell 0 passes the free cell 1; [++] on [end()]
    fails. *)
Lemma increment_next_used_witness :
  sized cc_hole
  /\ increment cc_hole (end_ 0%nat cc_hole) = None
  /\ exists it',
      increment cc_hole (index_to 0%nat 0) = Some it'
      /\ (m_index it' < capacity_ cc_hole -> is_used cc_hole (m_index it') = Some true).
Proof.
  split; [exact sized_hole|]. split.
  - apply (proj1 (increment_next_used cc_hole (end_ 0%nat cc_hole) sized_hole)).
    right. vm_compute. discriminate.
  - destruct (proj2 (increment_next_used cc_hole (index_to 0%nat 0) sized_hole))
      as (it' & H & _ & _ & _ & Hu).
    + discriminate.
    + vm_compute. split; [discriminate | reflexivity].
    + exists it'. split; [exact H | exact Hu].
Defined.

(** X25: [--] from [end()] passes the free cell 3; [--] on the cell 0
    fails. *)
Lemma decrement_previous_used_witness :
  sized cc_hole
  /\ decrement cc_hole (index_to 0%nat 0) = None
  /\ exists it',
      decrement cc_hole (end_ 0%nat cc_hole) = Some it'
      /\ 2 <= m_index it' /\ is_used cc_hole (m_index it') = Some true.
Proof.
  split; [exact sized_hole|]. split.
  - apply (proj1 (decrement_previous_used cc_hole (index_to 0%nat 0) sized_hole)).
    right. vm_compute. discriminate.
  - destruct (proj2 (proj2 (decrement_previous_used cc_hole (end_ 0%nat cc_hole) sized_hole))
                ltac:(discriminate)
                ltac:(vm_compute; split; [reflexivity | discriminate])
                2 ltac:(vm_compute; split; [discriminate | reflexivity]) eq_refl)
      as (it' & H & _ & [Hj _] & Hu & _).
    exists it'. split; [exact H|]. split; [exact Hj | exact Hu].
Defined.

(** X26: the free list of the container with the free cells 1 and 3. *)
Lemma free_list_links_free_cells_witness :
  reachable_in_range (K 4) cc_hole
  /\ exists l,
      free_chain cc_hole (free_list cc_hole) l /\ NoDup l
      /\ Z.of_nat (length l) = 2
      /\ (1 ∈ l /\ 3 ∈ l).
Proof.
  split; [exact reachable_in_range_hole|].
  destruct (free_list_links_free_cells (K 4) cc_hole reachable_in_range_hole)
    as (l & Hch & Hnd & Hlen & Hl).
  exists l. split; [exact Hch|]. split; [exact Hnd|]. split; [exact Hlen|].
  split; apply Hl; reflexivity.
Defined.

(** X27: the first insertion extends the array. *)
Lemma insert_invalidates_end_witness :
  (reachable (K 4) (init (K 4) : CCI)
   /\ insert (K 4) (init (K 4)) (I 10) = Some (I 0, cc_one, []))
  /\ end_ 0%nat (init (K 4) : CCI) <> end_ 0%nat cc_one
  /\ end_ 0%nat (init (K 4) : CCI) = index_to 0%nat 0
  /\ deref cc_one (end_ 0%nat (init (K 4) : CCI)) = Some (I 10).
Proof.
  assert (insert (K 4) (init (K 4)) (I 10) = Some (I 0, cc_one, [])) as H
      by (vm_compute; reflexivity).
  split; [split; [apply reachable_init | exact H]|].
  apply (proj1 (insert_invalidates_end (K 4) 0%nat (init (K 4)) cc_one (I 10) (I 0) []
                  (reachable_init (K 4)) H)).
  vm_compute. discriminate.
Defined.

End More_examples.
